(** * Scroll animation controller: a shallow embedding and its properties

    The repository ships one module, [scroll-animations.ts], in three
    revisions that share their structure:

    - [MotionFull]: the Motion One controller that hides entrance elements
      at setup and has an explicit fallback branch;
    - [MotionMinimal]: the Motion One controller with fixed, minimal timings
      and no hiding at setup;
    - [AnimeJs]: the Anime.js controller, timings in milliseconds.

    Host-language primitives the code relies on ([parseInt], [parseFloat],
    [x || d], property lookup on an object literal, [String.prototype.split],
    [Number.prototype.toFixed], [Math.round]) live in module [JS].

    Conventions of the embedding.
    - A string is a sequence of code units; the [ascii] type stands for the
      code units U+0000 to U+00FF.
    - A number is [NaN], an infinity, or an exact rational.  Rounding to
      binary64 is not represented, and neither is the sign of zero.
    - An element is identified by a natural number (object identity).
    - A call that may throw returns [Threw]; the callback of a [forEach]
      that throws aborts the loop, as in the host language. *)

From Stdlib Require Import ZArith QArith Qround Qabs Lqa String Ascii List Bool Lia.
From Stdlib Require Import DecimalString DecimalPos.
From stdpp Require Import gmap.
Import ListNotations.

Local Open Scope Z_scope.

(* ===================================================================== *)
(** ** Host-language primitives *)
(* ===================================================================== *)

Module JS.

(** Numbers.  A finite number is an exact rational: the rounding of the
    host's binary64 arithmetic is not modelled.  Reading a literal and one
    multiplication or division agree with the host up to that rounding,
    and exactly where the values are binary64 numbers; the statements that
    need exact agreement say in which range they hold. *)
Inductive number : Type :=
| NaN
| Infinity (negative : bool)
| Finite (q : Q).

Definition isNaN (x : number) : bool :=
  match x with NaN => true | _ => false end.

Definition isFinite (x : number) : bool :=
  match x with Finite _ => true | _ => false end.

Definition Qlt_bool (x y : Q) : bool := negb (Qle_bool y x).

Definition Qsign_neg (q : Q) : bool := (Qnum q <? 0)%Z.
Definition Qis_zero (q : Q) : bool := (Qnum q =? 0)%Z.

(** [x / y], [x * y], [x + y] and [-x] on numbers. *)
Definition div (x y : number) : number :=
  match x, y with
  | NaN, _ | _, NaN => NaN
  | Infinity _, Infinity _ => NaN
  | Infinity s, Finite q => Infinity (xorb s (Qsign_neg q))
  | Finite _, Infinity _ => Finite 0
  | Finite p, Finite q =>
      if Qis_zero q
      then (if Qis_zero p then NaN else Infinity (Qsign_neg p))
      else Finite (p / q)
  end.

Definition mul (x y : number) : number :=
  match x, y with
  | NaN, _ | _, NaN => NaN
  | Infinity s, Infinity t => Infinity (xorb s t)
  | Infinity s, Finite q | Finite q, Infinity s =>
      if Qis_zero q then NaN else Infinity (xorb s (Qsign_neg q))
  | Finite p, Finite q => Finite (p * q)
  end.

Definition add (x y : number) : number :=
  match x, y with
  | NaN, _ | _, NaN => NaN
  | Infinity s, Infinity t => if Bool.eqb s t then Infinity s else NaN
  | Infinity s, Finite _ | Finite _, Infinity s => Infinity s
  | Finite p, Finite q => Finite (p + q)
  end.

Definition neg (x : number) : number :=
  match x with
  | NaN => NaN
  | Infinity s => Infinity (negb s)
  | Finite q => Finite (- q)
  end.

Definition ofZ (n : Z) : number := Finite (inject_Z n).

(** Equality of numbers up to the representation of the rational. *)
Definition num_eq (x y : number) : Prop :=
  match x, y with
  | NaN, NaN => True
  | Infinity s, Infinity t => s = t
  | Finite p, Finite q => p == q
  | _, _ => False
  end.

(** [a || d] on an attribute value: [undefined] and the empty string are
    falsy. *)
Definition or_default (a : option string) (d : string) : string :=
  match a with
  | Some EmptyString | None => d
  | Some s => s
  end.

(** Characters. *)
Definition is_whitespace (c : ascii) : bool :=
  let n := nat_of_ascii c in
  ((n =? 9) || (n =? 10) || (n =? 11) || (n =? 12) || (n =? 13)
   || (n =? 32) || (n =? 160))%nat.

Fixpoint trim_start (s : string) : string :=
  match s with
  | String c r => if is_whitespace c then trim_start r else s
  | EmptyString => s
  end.

(** Value of a digit in radix 10 or 16. *)
Definition digit_value (radix : Z) (c : ascii) : option Z :=
  let n := Z.of_nat (nat_of_ascii c) in
  if (48 <=? n) && (n <=? 57) then Some (n - 48)
  else if (radix =? 16) && (97 <=? n) && (n <=? 102) then Some (n - 87)
  else if (radix =? 16) && (65 <=? n) && (n <=? 70) then Some (n - 55)
  else None.

(** Longest prefix of digits: its value (most significant first), the
    number of digits read and the rest of the string. *)
Fixpoint read_digits (radix : Z) (acc : Z) (count : nat) (s : string)
  : Z * nat * string :=
  match s with
  | String c r =>
      match digit_value radix c with
      | Some d => read_digits radix (acc * radix + d) (S count) r
      | None => (acc, count, s)
      end
  | EmptyString => (acc, count, s)
  end.

(** [parseInt(s)] with no radix argument. *)
Definition parseInt (input : string) : number :=
  let s := trim_start input in
  let '(negative, s) :=
    match s with
    | String "-" r => (true, r)
    | String "+" r => (false, r)
    | _ => (false, s)
    end in
  let '(radix, s) :=
    match s with
    | String "0" (String "x" r) | String "0" (String "X" r) => (16, r)
    | _ => (10, s)
    end in
  let '(v, count, _) := read_digits radix 0 0 s in
  match count with
  | O => NaN
  | _ => ofZ (if negative then - v else v)
  end.

(** [parseFloat(s)]: the longest prefix that is a decimal literal. *)
Definition read_exponent (s : string) : Z :=
  match s with
  | String c r =>
      if (Ascii.eqb c "e" || Ascii.eqb c "E")%bool then
        let '(negative, r) :=
          match r with
          | String "-" t => (true, t)
          | String "+" t => (false, t)
          | _ => (false, r)
          end in
        let '(e, count, _) := read_digits 10 0 0 r in
        match count with
        | O => 0
        | _ => if negative then - e else e
        end
      else 0
  | EmptyString => 0
  end.

Definition Qpow10 (e : Z) : Q :=
  if e <? 0 then 1 # Z.to_pos (10 ^ (- e)) else inject_Z (10 ^ e).

Definition starts_with_Infinity (s : string) : bool :=
  String.prefix "Infinity" s.

Definition parseFloat (input : string) : number :=
  let s := trim_start input in
  let '(negative, s) :=
    match s with
    | String "-" r => (true, r)
    | String "+" r => (false, r)
    | _ => (false, s)
    end in
  if starts_with_Infinity s then Infinity negative
  else
    let '(ip, icount, s1) := read_digits 10 0 0 s in
    let '(fp, fcount, s2) :=
      match s1 with
      | String "." r =>
          let '(fp, fcount, r') := read_digits 10 0 0 r in
          match icount, fcount with
          | O, O => (0, O, s1)
          | _, _ => (fp, fcount, r')
          end
      | _ => (0, O, s1)
      end in
    match icount, fcount with
    | O, O => NaN
    | _, _ =>
        let mantissa :=
          (inject_Z ip + inject_Z fp * Qpow10 (- Z.of_nat fcount))%Q in
        let v := (mantissa * Qpow10 (read_exponent s2))%Q in
        Finite (if negative then (- v)%Q else v)
    end.

(** [s.includes(c)] for a one-character needle. *)
Fixpoint includes (s : string) (c : ascii) : bool :=
  match s with
  | String d r => Ascii.eqb d c || includes r c
  | EmptyString => false
  end.

(** [s.split('')]: one string per code unit. *)
Fixpoint split_chars (s : string) : list string :=
  match s with
  | String c r => String c EmptyString :: split_chars r
  | EmptyString => []
  end.

(** [s.split(sep)] for a one-character separator. *)
Fixpoint split_on (sep : ascii) (cur : string) (s : string) : list string :=
  match s with
  | String c r =>
      if Ascii.eqb c sep then cur :: split_on sep EmptyString r
      else split_on sep (cur ++ String c EmptyString) r
  | EmptyString => [cur]
  end.

Definition split (s : string) (sep : ascii) : list string :=
  split_on sep EmptyString s.

(** [parts.join('')]. *)
Definition join (parts : list string) : string :=
  fold_right String.append EmptyString parts.

(** Decimal digits of an integer, with a leading minus sign when
    negative. *)
Definition digits (n : Z) : string := NilZero.string_of_int (Z.to_int n).

Definition ten21 : Z := 10 ^ 21.

Fixpoint strip_trailing_zeros_rev (s : list ascii) : list ascii :=
  match s with
  | "0"%char :: r => strip_trailing_zeros_rev r
  | _ => s
  end.

Definition strip_trailing_zeros (s : string) : string :=
  string_of_list_ascii
    (rev (strip_trailing_zeros_rev (rev (list_ascii_of_string s)))).

(** Exponent notation of a positive integer [n >= 10^21].  The digits are
    those of [n] itself. *)
Definition exponential (n : Z) : string :=
  let ds := digits n in
  let e := digits (Z.of_nat (String.length ds) - 1) in
  match strip_trailing_zeros ds with
  | String d EmptyString => String d ("e+" ++ e)
  | String d r => String d ("." ++ r ++ "e+" ++ e)
  | EmptyString => ds
  end.

(** [x.toString()] for an integral value [n]. *)
Definition integer_toString (n : Z) : string :=
  if Z.abs n <? ten21 then digits n
  else if n <? 0 then "-" ++ exponential (- n) else exponential n.

(** [Math.round(x)]: the integer nearest to [x], ties towards positive
    infinity. *)
Definition round_half_up (q : Q) : Z := Qfloor (q + (1 # 2)).

(** [Math.round(x).toString()]. *)
Definition round_toString (x : number) : string :=
  match x with
  | NaN => "NaN"
  | Infinity false => "Infinity"
  | Infinity true => "-Infinity"
  | Finite q => integer_toString (round_half_up q)
  end.

(** [x.toFixed(1)]. *)
Definition toFixed1 (x : number) : string :=
  match x with
  | NaN => "NaN"
  | Infinity false => "Infinity"
  | Infinity true => "-Infinity"
  | Finite q =>
      let negative := Qsign_neg q in
      let a := Qabs q in
      if Qle_bool (inject_Z ten21) a then
        (if negative then "-" else "") ++ exponential (Qfloor a)
      else
        let n := round_half_up (a * inject_Z 10) in
        (if negative then "-" else "")
          ++ digits (n / 10) ++ "." ++ digits (n mod 10)
  end.

(** Property lookup [table[key]] on an object literal: own properties
    first, then the members every object inherits. *)
Definition inherited_names : list string :=
  [ "constructor"; "hasOwnProperty"; "isPrototypeOf"; "propertyIsEnumerable";
    "toLocaleString"; "toString"; "valueOf"; "__proto__";
    "__defineGetter__"; "__defineSetter__";
    "__lookupGetter__"; "__lookupSetter__" ]%string.

Inductive property (A : Type) : Type :=
| Own (v : A)
| Inherited (name : string)
| Undefined.
Arguments Own {A} v.
Arguments Inherited {A} name.
Arguments Undefined {A}.

Fixpoint assoc {A} (table : list (string * A)) (key : string) : option A :=
  match table with
  | (k, v) :: r => if String.eqb k key then Some v else assoc r key
  | [] => None
  end.

Definition get {A} (table : list (string * A)) (key : string) : property A :=
  match assoc table key with
  | Some v => Own v
  | None =>
      if existsb (String.eqb key) inherited_names then Inherited key
      else Undefined
  end.

(** Calling an inherited member as a plain function, [f()], with no
    receiver and no argument.  [Object()], [toString()] and
    [isPrototypeOf()] return; the members that convert their receiver to
    an object raise a TypeError on [undefined], and [__proto__] is an
    object, not a function, so calling it raises a TypeError as well. *)
Definition inherited_call_throws (name : string) : bool :=
  existsb (String.eqb name)
    [ "hasOwnProperty"; "propertyIsEnumerable"; "toLocaleString"; "valueOf";
      "__proto__"; "__defineGetter__"; "__defineSetter__";
      "__lookupGetter__"; "__lookupSetter__" ]%string.

End JS.


(* ===================================================================== *)
(** ** The page: document, mutable state, effects *)
(* ===================================================================== *)

Module Page.
Import JS.

(** Identity of a DOM element. *)
Definition elem : Type := nat.

(** The static part of the page.  [attrs e] lists the [data-*] attributes
    of [e] under their [dataset] names ([animate], [delay], [duration],
    [stagger], [staggerDelay], [staggerItem], [parallax], [counter],
    [textReveal], ...). *)
Record document : Type := {
  elements : list elem;                       (* document order *)
  attrs : elem -> list (string * string);
  descendants : elem -> list elem;            (* document order *)
  textContent : elem -> string
}.

(** [element.dataset.name]. *)
Definition dataset (doc : document) (e : elem) (name : string)
  : option string :=
  assoc (attrs doc e) name.

Definition has_attr (doc : document) (name : string) (e : elem) : bool :=
  match dataset doc e name with Some _ => true | None => false end.

(** [document.querySelectorAll('[data-name]')]. *)
Definition querySelectorAll (doc : document) (name : string) : list elem :=
  List.filter (has_attr doc name) (elements doc).

(** [container.querySelectorAll('[data-name]')]. *)
Definition querySelectorAllIn (doc : document) (container : elem)
  (name : string) : list elem :=
  List.filter (has_attr doc name) (descendants doc container).

(** What the controller hands to the animation library. *)
Inductive easing : Type :=
| Curve (name : string)
| Spring (stiffness damping : Z)
| NoEasing.

Inductive delay : Type :=
| NoDelay
| Fixed (d : number)
| Stagger (step : number).

Record options : Type := {
  duration : number;
  delayOpt : delay;
  easingOpt : easing
}.

Definition keyframes : Type := list (string * list string).

(** The keyframe argument of a library call: a preset of the table, or a
    member the table object inherits (it carries no keyframes). *)
Inductive config : Type :=
| Preset (kf : keyframes)
| Member (name : string).

(** Targets of a library call: elements of the document, or the inline
    units created by the text reveal inside an element. *)
Inductive target : Type :=
| Node (e : elem)
| Unit (owner : elem) (index : nat).

(** The two dispatchers of the controller. *)
Inductive dispatcher : Type := AnimateElement | AnimateStaggerChildren.

(** Entries of the trace, oldest first. *)
Inductive effect : Type :=
| Enter (d : dispatcher) (e : elem)           (* a dispatcher is called on e *)
| Animate (targets : list target) (c : config) (o : options)
| Progress (e : elem) (o : options)           (* animate(progress => ..., o) *)
| CallInherited (name : string)               (* an inherited member is used *)
| Recompute.                                  (* handleScroll ran *)

(** An inline [style.transform]: a literal, or the [translateY(<y>px)] the
    parallax loop writes. *)
Inductive transform_value : Type :=
| Css (v : string)
| TranslateYpx (y : number).

(** What the host reports when a frame is rendered: the scroll position,
    the viewport height and the bounding rectangle of each element. *)
Record viewport : Type := {
  scrollY : Q;
  innerHeight : Q;
  rectTop : elem -> Q;
  rectHeight : elem -> Q
}.

(** The scroll listener of the parallax loop. *)
Record parallax : Type := {
  listening : bool;          (* the scroll listener is installed *)
  ticking : bool;
  frameRequests : nat        (* callbacks the listener has queued with
                                requestAnimationFrame and not yet run *)
}.

(** The intersection observers of the module. *)
Inductive observer : Type :=
| EntranceObserver      (* this.observer *)
| StaggerObserver
| CounterObserver
| TextObserver.

Definition observer_eqb (a b : observer) : bool :=
  match a, b with
  | EntranceObserver, EntranceObserver | StaggerObserver, StaggerObserver
  | CounterObserver, CounterObserver | TextObserver, TextObserver => true
  | _, _ => false
  end.

(** The mutable part of the page. *)
Record state : Type := {
  animatedElements : gset elem;
  targets : observer -> list elem;    (* what each observer observes *)
  opacity : gmap elem string;         (* inline style.opacity *)
  transform : gmap elem transform_value;   (* inline style.transform *)
  innerHTML : gmap elem string;       (* markup written by the text reveal *)
  text : gmap elem string;            (* textContent, where it was changed *)
  scroll : parallax;
  timers : list nat;                  (* pending setTimeout delays, in ms *)
  trace : list effect
}.

Definition initial : state := {|
  animatedElements := ∅;
  targets := fun _ => [];
  opacity := ∅;
  transform := ∅;
  innerHTML := ∅;
  text := ∅;
  scroll := {| listening := false; ticking := false; frameRequests := 0 |};
  timers := [];
  trace := []
|}.

(** Computations that read and write the page and may throw. *)
Inductive outcome (A : Type) : Type :=
| Returned (a : A)
| Threw.
Arguments Returned {A} a.
Arguments Threw {A}.

Definition M (A : Type) : Type := state -> outcome A * state.

Definition ret {A} (a : A) : M A := fun s => (Returned a, s).

Definition bind {A B} (m : M A) (k : A -> M B) : M B :=
  fun s =>
    match m s with
    | (Returned a, s') => k a s'
    | (Threw, s') => (Threw, s')
    end.

#[export] Instance M_ret : MRet M := @ret.
#[export] Instance M_bind : MBind M := fun A B k m => bind m k.

Definition throw {A} : M A := fun s => (Threw, s).
Definition read : M state := fun s => (Returned s, s).
Definition modify (f : state -> state) : M unit := fun s => (Returned tt, f s).

(** [list.forEach(f)]. *)
Fixpoint forEach {A} (f : A -> M unit) (l : list A) : M unit :=
  match l with
  | [] => ret tt
  | x :: r => f x ;; forEach f r
  end.

(** State after a computation, whatever its outcome: an exception that
    leaves a callback is reported by the host and the page lives on. *)
Definition exec {A} (m : M A) (s : state) : state := snd (m s).

(** Field updates. *)
Definition set_animatedElements (f : gset elem -> gset elem) (s : state)
  : state :=
  {| animatedElements := f (animatedElements s); targets := targets s;
     opacity := opacity s; transform := transform s;
     innerHTML := innerHTML s; text := text s; scroll := scroll s;
     timers := timers s; trace := trace s |}.

Definition set_targets
  (f : (observer -> list elem) -> observer -> list elem) (s : state)
  : state :=
  {| animatedElements := animatedElements s; targets := f (targets s);
     opacity := opacity s; transform := transform s;
     innerHTML := innerHTML s; text := text s; scroll := scroll s;
     timers := timers s; trace := trace s |}.

Definition set_opacity (f : gmap elem string -> gmap elem string) (s : state)
  : state :=
  {| animatedElements := animatedElements s; targets := targets s;
     opacity := f (opacity s); transform := transform s;
     innerHTML := innerHTML s; text := text s; scroll := scroll s;
     timers := timers s; trace := trace s |}.

Definition set_transform
  (f : gmap elem transform_value -> gmap elem transform_value) (s : state)
  : state :=
  {| animatedElements := animatedElements s; targets := targets s;
     opacity := opacity s; transform := f (transform s);
     innerHTML := innerHTML s; text := text s; scroll := scroll s;
     timers := timers s; trace := trace s |}.

Definition set_innerHTML (f : gmap elem string -> gmap elem string) (s : state)
  : state :=
  {| animatedElements := animatedElements s; targets := targets s;
     opacity := opacity s; transform := transform s;
     innerHTML := f (innerHTML s); text := text s; scroll := scroll s;
     timers := timers s; trace := trace s |}.

Definition set_text (f : gmap elem string -> gmap elem string) (s : state)
  : state :=
  {| animatedElements := animatedElements s; targets := targets s;
     opacity := opacity s; transform := transform s;
     innerHTML := innerHTML s; text := f (text s); scroll := scroll s;
     timers := timers s; trace := trace s |}.

Definition set_scroll (f : parallax -> parallax) (s : state)
  : state :=
  {| animatedElements := animatedElements s; targets := targets s;
     opacity := opacity s; transform := transform s;
     innerHTML := innerHTML s; text := text s; scroll := f (scroll s);
     timers := timers s; trace := trace s |}.

Definition set_timers (f : list nat -> list nat) (s : state)
  : state :=
  {| animatedElements := animatedElements s; targets := targets s;
     opacity := opacity s; transform := transform s;
     innerHTML := innerHTML s; text := text s; scroll := scroll s;
     timers := f (timers s); trace := trace s |}.

Definition set_trace (f : list effect -> list effect) (s : state)
  : state :=
  {| animatedElements := animatedElements s; targets := targets s;
     opacity := opacity s; transform := transform s;
     innerHTML := innerHTML s; text := text s; scroll := scroll s;
     timers := timers s; trace := f (trace s) |}.

(** [el.style.opacity = v] and [el.style.transform = v]. *)
Definition style_opacity (e : elem) (v : string) : M unit :=
  modify (set_opacity (insert e v)).

Definition style_transform (e : elem) (v : transform_value) : M unit :=
  modify (set_transform (insert e v)).

(** [observer.observe(e)] and [observer.unobserve(e)]. *)
Definition observe (o : observer) (e : elem) : M unit :=
  modify (set_targets (fun t o' =>
    if observer_eqb o o' then
      (if existsb (Nat.eqb e) (t o') then t o' else t o' ++ [e])
    else t o')).

Definition unobserve (o : observer) (e : elem) : M unit :=
  modify (set_targets (fun t o' =>
    if observer_eqb o o' then List.filter (fun x => negb (x =? e)%nat) (t o')
    else t o')).

Definition record (f : effect) : M unit :=
  modify (set_trace (fun t => t ++ [f])).

(** A call into the animation library.  The library is an external
    collaborator: [throws] says on which calls it raises.  What the library
    does to the page once called (the inline styles it writes while it
    animates) is not represented: [opacity] and [transform] of a state hold
    what the module itself has written. *)
Definition invoke (throws : effect -> bool) (f : effect) : M unit :=
  record f ;;
  if throws f then throw else ret tt.

(** [animFunc()] where [animFunc] is a member the table object inherits:
    the host calls it, and the library is not involved. *)
Definition call_inherited (name : string) : M unit :=
  record (CallInherited name) ;;
  if inherited_call_throws name then throw else ret tt.

(** An entry of an intersection callback batch. *)
Record entry : Type := {
  entryTarget : elem;
  isIntersecting : bool
}.

(** What the host and the library deliver to the counter effect and to the
    text reveal. *)
Inductive counter_event : Type :=
| CounterIntersection (entries : list entry)   (* counterObserver *)
| CounterProgress (e : elem) (progress : Q).   (* the library ticks e *)

Inductive text_event : Type :=
| TextIntersection (entries : list entry)      (* textObserver *)
| Timeout.                                     (* a pending timer fires *)

(** [element.textContent], and the write to it. *)
Definition current_text (doc : document) (s : state) (e : elem) : string :=
  match text s !! e with
  | Some t => t
  | None => textContent doc e
  end.

Definition set_textContent (e : elem) (t : string) : M unit :=
  modify (set_text (insert e t)).

(** [setTimeout(callback, ms)]. *)
Definition setTimeout (ms : nat) : M unit :=
  modify (set_timers (fun t => t ++ [ms])).

End Page.

(* ===================================================================== *)
(** ** The controller: what the three revisions share *)
(* ===================================================================== *)

Module Controller.
Import JS Page.

(** Modelled from the spec: the [stagger] helper of the animation library,
    which is not part of the sources.  The item at index [i] of a batch is
    delayed by [i] times the step; a fixed delay applies to every item. *)
Definition delay_at (d : delay) (i : nat) : number :=
  match d with
  | NoDelay => ofZ 0
  | Fixed x => x
  | Stagger step => mul (ofZ (Z.of_nat i)) step
  end.

Section Dispatch.

Variable doc : document.
Variable animateElement : elem -> M unit.
Variable animateStaggerChildren : elem -> M unit.

(** [handleIntersection(entries)]. *)
Definition handleIntersection (entries : list entry) : M unit :=
  forEach (fun en =>
    s ← read;
    if isIntersecting en
       && negb (bool_decide (entryTarget en ∈ animatedElements s))
    then
      modify (set_animatedElements (fun seen => seen ∪ {[entryTarget en]})) ;;
      record (Enter AnimateElement (entryTarget en)) ;;
      animateElement (entryTarget en)
    else ret tt) entries.

(** The callback given to [staggerObserver] in [setupStaggerObservers]. *)
Definition staggerCallback (entries : list entry) : M unit :=
  forEach (fun en =>
    s ← read;
    if isIntersecting en
       && negb (bool_decide (entryTarget en ∈ animatedElements s))
    then
      modify (set_animatedElements (fun seen => seen ∪ {[entryTarget en]})) ;;
      record (Enter AnimateStaggerChildren (entryTarget en)) ;;
      animateStaggerChildren (entryTarget en)
    else ret tt) entries.

(** [setupStaggerObservers()]. *)
Definition setupStaggerObservers : M unit :=
  let staggerContainers := querySelectorAll doc "stagger" in
  forEach (fun container => observe StaggerObserver container)
    staggerContainers.

(** [setupParallax()]: no listener when nothing opted in. *)
Definition setupParallax : M unit :=
  let parallaxElements := querySelectorAll doc "parallax" in
  if (length parallaxElements =? 0)%nat then ret tt
  else
    (* let ticking = false; window.addEventListener('scroll', ...) *)
    modify (set_scroll (fun _ =>
      {| listening := true; ticking := false; frameRequests := 0 |})).

(** The scroll listener installed by [setupParallax]. *)
Definition onScroll : M unit :=
  s ← read;
  if listening (scroll s) then
    if negb (ticking (scroll s)) then
      (* requestAnimationFrame(...) ; ticking = true *)
      modify (set_scroll (fun p =>
        {| listening := listening p; ticking := true;
           frameRequests := S (frameRequests p) |}))
    else ret tt
  else ret tt.

(** [handleScroll()]: for each parallax element inside its band, write the
    offset as a transform; outside the band leave the transform alone.
    The trace notes that the recomputation ran.  The offset is kept as a
    number; the assignment takes effect when it is finite. *)
Definition handleScroll (v : viewport) : M unit :=
  let parallaxElements := querySelectorAll doc "parallax" in
  record Recompute ;;
  forEach (fun element =>
    let speed := parseFloat (or_default (dataset doc element "parallax") "0.5") in
    let direction := or_default (dataset doc element "parallaxDirection") "up" in
    let elementTop := (rectTop v element + scrollY v)%Q in
    let scrollProgress := (scrollY v - elementTop + innerHeight v)%Q in
    if Qlt_bool 0 scrollProgress
       && Qlt_bool scrollProgress (innerHeight v + rectHeight v element)
    then
      let translateY :=
        mul (mul (Finite scrollProgress) speed) (Finite (1 # 10)) in
      let translateY :=
        if String.eqb direction "down" then neg translateY else translateY in
      (* [translateY(NaNpx)] and [translateY(Infinitypx)] are not valid
         declarations: the host ignores the assignment *)
      if isFinite translateY
      then style_transform element (TranslateYpx translateY)
      else ret tt
    else ret tt) parallaxElements.

(** The callback handed to [requestAnimationFrame]:
    [handleScroll(); ticking = false]. *)
Definition frameCallback (v : viewport) : M unit :=
  handleScroll v ;;
  modify (set_scroll (fun p =>
    {| listening := listening p; ticking := false;
       frameRequests := frameRequests p |})).

(** A rendered frame: the host takes the queued callbacks and runs
    them. *)
Definition onFrame (v : viewport) : M unit :=
  s ← read;
  modify (set_scroll (fun p =>
    {| listening := listening p; ticking := ticking p;
       frameRequests := 0 |})) ;;
  forEach (fun _ => frameCallback v) (seq 0 (frameRequests (scroll s))).

(** What the host delivers to the controller. *)
Inductive event : Type :=
| Intersection (entries : list entry)         (* this.observer *)
| StaggerIntersection (entries : list entry)  (* staggerObserver *)
| ScrollEvent
| AnimationFrame (v : viewport).

Definition handle (ev : event) : M unit :=
  match ev with
  | Intersection entries => handleIntersection entries
  | StaggerIntersection entries => staggerCallback entries
  | ScrollEvent => onScroll
  | AnimationFrame v => onFrame v
  end.

Definition step (s : state) (ev : event) : state := exec (handle ev) s.

Definition run (evs : list event) (s : state) : state :=
  fold_left step evs s.

End Dispatch.

(** Number of times a dispatcher was called on [e]. *)
Definition is_enter (d : dispatcher) (e : elem) (f : effect) : bool :=
  match f, d with
  | Enter AnimateElement e', AnimateElement
  | Enter AnimateStaggerChildren e', AnimateStaggerChildren => (e' =? e)%nat
  | _, _ => false
  end.

Definition invocations (d : dispatcher) (e : elem) (t : list effect) : nat :=
  length (List.filter (is_enter d e) t).

Definition is_recompute (f : effect) : bool :=
  match f with Recompute => true | _ => false end.

Definition recomputations (t : list effect) : nat :=
  length (List.filter is_recompute t).

End Controller.

(* ===================================================================== *)
(** ** Counter and text reveal: what the revisions share *)
(* ===================================================================== *)

Module Ancillary.
Import JS Page.
Local Open Scope string_scope.

(** The progress callback of the counter: the text it writes for a target
    literal [endValue] at a given progress. *)
Definition counter_text (endValue : string) (progress : number) : string :=
  let isFloat := includes endValue "." in
  let numericEnd := parseFloat endValue in
  let currentValue := mul progress numericEnd in
  if isFloat then toFixed1 currentValue else round_toString currentValue.

(** The double quote. *)
Definition dq : string := String (ascii_of_nat 34) EmptyString.

(** The non-breaking space, as a code unit. *)
Definition nbsp : string := String (ascii_of_nat 160) EmptyString.

(** Content of the unit that wraps one character. *)
Definition char_content (char : string) : string :=
  if String.eqb char " " then "&nbsp;" else char.

Definition char_span (char : string) : string :=
  "<span class=" ++ dq ++ "char-reveal" ++ dq ++ " style=" ++ dq
    ++ "display:inline-block;" ++ dq ++ ">" ++ char_content char ++ "</span>".

Definition word_span (word : string) : string :=
  "<span class=" ++ dq ++ "word-reveal" ++ dq ++ " style=" ++ dq
    ++ "display:inline-block; margin-right: 0.25em;" ++ dq ++ ">"
    ++ word ++ "</span>".

(** [text.split('').map(char => ...)] and [text.split(' ').map(word => ...)]. *)
Definition char_units (text : string) : list string :=
  map char_span (split_chars text).

Definition word_units (text : string) : list string :=
  map word_span (split text " ").

(** The units [element.querySelectorAll('.char-reveal')] (or
    ['.word-reveal']) finds after the markup is written: one per span, in
    the order written.  The text is taken to hold no markup characters. *)
Definition units_of (element : elem) (units : list string) : list target :=
  map (Unit element) (seq 0 (length units)).

(** [textContent] of the element once the markup is in place.  The code
    writes the text to [innerHTML] unescaped; these are the text contents
    for a text the HTML parser reads back as it was written (no [<], [&],
    NUL or carriage return). *)
Definition text_of_chars (text : string) : string :=
  join (map (fun char => if String.eqb char " " then nbsp else char)
            (split_chars text)).

Definition text_of_words (text : string) : string :=
  join (split text " ").

Section TextReveal.

Variable doc : document.
(** The two library calls, which differ between the revisions. *)
Variable animate_chars : list target -> M unit.
Variable animate_words : list target -> M unit.

(** The callback given to [textObserver]. *)
Definition textObserverCallback (entries : list entry) : M unit :=
  forEach (fun en =>
    if isIntersecting en then
      let element := entryTarget en in
      s ← read;
      let text := or_default (Some (current_text doc s element)) "" in
      let type := or_default (dataset doc element "textReveal") "words" in
      (if String.eqb type "chars" then
         (* Split into characters *)
         modify (set_innerHTML (insert element (join (char_units text)))) ;;
         set_textContent element (text_of_chars text) ;;
         animate_chars (units_of element (char_units text))
       else
         (* Split into words *)
         modify (set_innerHTML (insert element (join (word_units text)))) ;;
         set_textContent element (text_of_words text) ;;
         animate_words (units_of element (word_units text))) ;;
      unobserve TextObserver element
    else ret tt) entries.

(** The callback given to [setTimeout]: make text visible. *)
Definition textTimeout : M unit :=
  let textElements := querySelectorAll doc "textReveal" in
  forEach (fun el => style_opacity el "1") textElements.

(** [setupTextRevealAnimations()]. *)
Definition setupTextRevealAnimations : M unit :=
  let textElements := querySelectorAll doc "textReveal" in
  forEach (fun el =>
    style_opacity el "0" ;;
    observe TextObserver el) textElements ;;
  setTimeout 100.

Definition text_handle (ev : text_event) : M unit :=
  match ev with
  | TextIntersection entries => textObserverCallback entries
  | Timeout =>
      s ← read;
      match timers s with
      | [] => ret tt
      | _ :: rest => modify (set_timers (fun _ => rest)) ;; textTimeout
      end
  end.

Definition text_step (s : state) (ev : text_event) : state :=
  exec (text_handle ev) s.

Definition text_run (evs : list text_event) (s : state) : state :=
  fold_left text_step evs s.

End TextReveal.

Section Counter.

Variable throws : effect -> bool.
Variable doc : document.
(** Duration of the tick-up, which differs between the revisions. *)
Variable counter_duration : elem -> number.

(** The callback given to [counterObserver]. *)
Definition counterObserverCallback (entries : list entry) : M unit :=
  forEach (fun en =>
    if isIntersecting en then
      let element := entryTarget en in
      let endValue := or_default (dataset doc element "counter") "0" in
      let duration := counter_duration element in
      (* Check if it's a number *)
      (if negb (isNaN (parseFloat endValue)) then
         invoke throws
           (Progress element
              {| duration := duration; delayOpt := NoDelay;
                 easingOpt := Curve "ease-out" |})
       else ret tt) ;;
      unobserve CounterObserver element
    else ret tt) entries.

(** The progress callback handed to the library for [element]. *)
Definition counterProgress (element : elem) (progress : Q) : M unit :=
  let endValue := or_default (dataset doc element "counter") "0" in
  set_textContent element (counter_text endValue (Finite progress)).

(** [setupCounterAnimations()]. *)
Definition setupCounterAnimations : M unit :=
  let counters := querySelectorAll doc "counter" in
  forEach (fun counter => observe CounterObserver counter) counters.

Definition counter_handle (ev : counter_event) : M unit :=
  match ev with
  | CounterIntersection entries => counterObserverCallback entries
  | CounterProgress e p => counterProgress e p
  end.

End Counter.

End Ancillary.

(* ===================================================================== *)
(** ** Revision 1: Motion One, entrance elements hidden at setup *)
(* ===================================================================== *)

Module MotionFull.
Import JS Page Controller.
Local Open Scope string_scope.

Section WithLibrary.

Variable throws : effect -> bool.
Variable doc : document.

Definition ease_out : easing := Curve "ease-out".

(** The [animations] table of [animateElement]; each thunk is
    represented by the library call it makes. *)
Definition animations (element : elem) (duration delay : number)
  : list (string * effect) :=
  let anim kf dur ease :=
    Animate [Node element] (Preset kf)
      {| duration := dur; delayOpt := Fixed delay; easingOpt := ease |} in
  [ ("fade-up", anim
       [("opacity", ["0"; "1"]);
        ("transform", ["translateY(60px)"; "translateY(0px)"])]
       duration ease_out);
    ("fade-down", anim
       [("opacity", ["0"; "1"]);
        ("transform", ["translateY(-60px)"; "translateY(0px)"])]
       duration ease_out);
    ("fade-left", anim
       [("opacity", ["0"; "1"]);
        ("transform", ["translateX(60px)"; "translateX(0px)"])]
       duration ease_out);
    ("fade-right", anim
       [("opacity", ["0"; "1"]);
        ("transform", ["translateX(-60px)"; "translateX(0px)"])]
       duration ease_out);
    ("zoom-in", anim
       [("opacity", ["0"; "1"]);
        ("transform", ["scale(0.8)"; "scale(1)"])]
       duration ease_out);
    ("zoom-out", anim
       [("opacity", ["0"; "1"]);
        ("transform", ["scale(1.1)"; "scale(1)"])]
       duration ease_out);
    ("flip-up", anim
       [("opacity", ["0"; "1"]);
        ("transform",
         ["perspective(1000px) rotateX(90deg) translateY(40px)";
          "perspective(1000px) rotateX(0deg) translateY(0px)"])]
       (add duration (Finite (2 # 10))) ease_out);
    ("rotate-in", anim
       [("opacity", ["0"; "1"]);
        ("transform", ["rotate(-10deg) scale(0.9)"; "rotate(0deg) scale(1)"])]
       duration (Spring 300 20));
    ("blur-in", anim
       [("opacity", ["0"; "1"]);
        ("filter", ["blur(10px)"; "blur(0px)"]);
        ("transform", ["translateY(30px)"; "translateY(0px)"])]
       duration ease_out);
    ("slide-reveal", anim
       [("opacity", ["0"; "1"]);
        ("transform", ["translateY(100px)"; "translateY(0px)"])]
       (add duration (Finite (2 # 10))) ease_out);
    ("bounce-in", anim
       [("opacity", ["0"; "1"]);
        ("transform",
         ["translateY(80px) scale(0.85)"; "translateY(0px) scale(1)"])]
       (add duration (Finite (4 # 10))) (Spring 200 15));
    ("skew-in", anim
       [("opacity", ["0"; "1"]);
        ("transform",
         ["skewY(6deg) translateY(40px)"; "skewY(0deg) translateY(0px)"])]
       duration ease_out) ]%string.

(** Option resolution at the head of [animateElement]. *)
Definition resolve_delay (element : elem) : number :=
  div (parseInt (or_default (dataset doc element "delay") "0")) (ofZ 1000).

Definition resolve_duration (element : elem) : number :=
  div (parseInt (or_default (dataset doc element "duration") "800"))
      (ofZ 1000).

Definition resolve_kind (element : elem) : string :=
  or_default (dataset doc element "animate") "fade-up".

(** [animateElement(element)]. *)
Definition animateElement (element : elem) : M unit :=
  let delay := resolve_delay element in
  let duration := resolve_duration element in
  match get (animations element duration delay) (resolve_kind element) with
  | Own animFunc => invoke throws animFunc
  | Inherited name => call_inherited name
  | Undefined =>
      (* Fallback: show element without animation *)
      style_opacity element "1" ;;
      style_transform element (Css "none")
  end.

(** The [baseConfig] table of [animateStaggerChildren]. *)
Definition baseConfig : list (string * keyframes) :=
  [ ("fade-up",
     [("opacity", ["0"; "1"]);
      ("transform", ["translateY(50px)"; "translateY(0px)"])]);
    ("fade-down",
     [("opacity", ["0"; "1"]);
      ("transform", ["translateY(-50px)"; "translateY(0px)"])]);
    ("zoom-in",
     [("opacity", ["0"; "1"]);
      ("transform", ["scale(0.8)"; "scale(1)"])]);
    ("slide-left",
     [("opacity", ["0"; "1"]);
      ("transform", ["translateX(60px)"; "translateX(0px)"])]);
    ("slide-right",
     [("opacity", ["0"; "1"]);
      ("transform", ["translateX(-60px)"; "translateX(0px)"])]);
    ("rotate-stagger",
     [("opacity", ["0"; "1"]);
      ("transform",
       ["rotate(-15deg) translateY(40px)"; "rotate(0deg) translateY(0px)"])]);
    ("cascade",
     [("opacity", ["0"; "1"]);
      ("transform",
       ["translateY(80px) translateX(-30px) rotate(-5deg)";
        "translateY(0px) translateX(0px) rotate(0deg)"])]) ]%string.

Definition fade_up_config : keyframes :=
  match assoc baseConfig "fade-up" with Some kf => kf | None => [] end.

Definition staggerDelayMs (container : elem) : number :=
  parseInt (or_default (dataset doc container "staggerDelay") "100").

(** The one library call of [animateStaggerChildren]. *)
Definition stagger_call (container : elem) : effect :=
  let children := querySelectorAllIn doc container "staggerItem" in
  let animationType := or_default (dataset doc container "stagger") "fade-up" in
  let config :=
    match get baseConfig animationType with
    | Own kf => Preset kf
    | Inherited name => Member name
    | Undefined => Preset fade_up_config
    end in
  Animate (map Node children) config
    {| duration := Finite (8 # 10);
       delayOpt := Stagger (div (staggerDelayMs container) (ofZ 1000));
       easingOpt := ease_out |}.

(** [animateStaggerChildren(container)]. *)
Definition animateStaggerChildren (container : elem) : M unit :=
  let children := querySelectorAllIn doc container "staggerItem" in
  forEach (fun child => style_opacity child "0") children ;;
  invoke throws (stagger_call container).

(** [setupObservers()]. *)
Definition setupObservers : M unit :=
  let animatableElements := querySelectorAll doc "animate" in
  forEach (fun el =>
    (* Set initial state *)
    style_opacity el "0" ;;
    observe EntranceObserver el) animatableElements ;;
  setupParallax doc ;;
  setupStaggerObservers doc.

(** The controller once [setupObservers] has run. *)
Definition ready : state := exec setupObservers initial.

Definition run (evs : list event) : state :=
  Controller.run doc animateElement animateStaggerChildren evs ready.

(** Counter: duration read from the element. *)
Definition counter_duration (element : elem) : number :=
  div (parseInt (or_default (dataset doc element "counterDuration") "2000"))
      (ofZ 1000).

Definition counterObserverCallback :=
  Ancillary.counterObserverCallback throws doc counter_duration.

(** Text reveal: the two library calls. *)
Definition animate_chars (chars : list target) : M unit :=
  invoke throws
    (Animate chars
       (Preset [("opacity", ["0"; "1"]);
                ("transform", ["translateY(30px)"; "translateY(0px)"])])
       {| duration := Finite (6 # 10);
          delayOpt := Stagger (Finite (3 # 100));
          easingOpt := ease_out |}).

Definition animate_words (words : list target) : M unit :=
  invoke throws
    (Animate words
       (Preset [("opacity", ["0"; "1"]);
                ("transform",
                 ["perspective(1000px) rotateX(90deg) translateY(40px)";
                  "perspective(1000px) rotateX(0deg) translateY(0px)"])])
       {| duration := Finite (8 # 10);
          delayOpt := Stagger (Finite (8 # 100));
          easingOpt := ease_out |}).

Definition textObserverCallback :=
  Ancillary.textObserverCallback doc animate_chars animate_words.

Definition setupTextRevealAnimations : M unit :=
  Ancillary.setupTextRevealAnimations doc.

Definition text_run (evs : list text_event) (s : state) : state :=
  Ancillary.text_run doc animate_chars animate_words evs s.

End WithLibrary.

End MotionFull.

(* ===================================================================== *)
(** ** Revision 2: Motion One, minimal timings, nothing hidden at setup *)
(* ===================================================================== *)

Module MotionMinimal.
Import JS Page Controller.
Local Open Scope string_scope.

Section WithLibrary.

Variable throws : effect -> bool.
Variable doc : document.

Definition ease_out : easing := Curve "ease-out".

Definition animations (element : elem) (duration delay : number)
  : list (string * effect) :=
  let anim from to :=
    Animate [Node element] (Preset [("transform", [from; to])])
      {| duration := duration; delayOpt := Fixed delay;
         easingOpt := ease_out |} in
  [ ("fade-up", anim "translateY(20px)" "translateY(0px)");
    ("fade-down", anim "translateY(-20px)" "translateY(0px)");
    ("fade-left", anim "translateX(20px)" "translateX(0px)");
    ("fade-right", anim "translateX(-20px)" "translateX(0px)");
    ("zoom-in", anim "scale(0.95)" "scale(1)");
    ("zoom-out", anim "scale(1.05)" "scale(1)");
    ("flip-up", anim "translateY(10px)" "translateY(0px)");
    ("rotate-in", anim "scale(0.98)" "scale(1)");
    ("blur-in", anim "translateY(10px)" "translateY(0px)");
    ("slide-reveal", anim "translateY(15px)" "translateY(0px)");
    ("bounce-in", anim "translateY(15px)" "translateY(0px)");
    ("skew-in", anim "translateY(10px)" "translateY(0px)") ]%string.

Definition resolve_delay (element : elem) : number :=
  div (parseInt (or_default (dataset doc element "delay") "0")) (ofZ 1000).

(** Minimal 300ms duration. *)
Definition resolve_duration (element : elem) : number := Finite (3 # 10).

Definition resolve_kind (element : elem) : string :=
  or_default (dataset doc element "animate") "fade-up".

(** [animateElement(element)]. *)
Definition animateElement (element : elem) : M unit :=
  let delay := resolve_delay element in
  let duration := resolve_duration element in
  match get (animations element duration delay) (resolve_kind element) with
  | Own animFunc => invoke throws animFunc
  | Inherited name => call_inherited name
  | Undefined => ret tt   (* Content is already visible, no fallback needed *)
  end.

Definition baseConfig : list (string * keyframes) :=
  [ ("fade-up", [("transform", ["translateY(10px)"; "translateY(0px)"])]);
    ("fade-down", [("transform", ["translateY(-10px)"; "translateY(0px)"])]);
    ("zoom-in", [("transform", ["scale(0.98)"; "scale(1)"])]);
    ("slide-left", [("transform", ["translateX(10px)"; "translateX(0px)"])]);
    ("slide-right", [("transform", ["translateX(-10px)"; "translateX(0px)"])]);
    ("rotate-stagger", [("transform", ["translateY(10px)"; "translateY(0px)"])]);
    ("cascade", [("transform", ["translateY(10px)"; "translateY(0px)"])])
  ]%string.

Definition fade_up_config : keyframes :=
  match assoc baseConfig "fade-up" with Some kf => kf | None => [] end.

(** Minimal 30ms stagger. *)
Definition staggerDelayMs (container : elem) : number := ofZ 30.

Definition stagger_call (container : elem) : effect :=
  let children := querySelectorAllIn doc container "staggerItem" in
  let animationType := or_default (dataset doc container "stagger") "fade-up" in
  let config :=
    match get baseConfig animationType with
    | Own kf => Preset kf
    | Inherited name => Member name
    | Undefined => Preset fade_up_config
    end in
  Animate (map Node children) config
    {| duration := Finite (2 # 10);
       delayOpt := Stagger (div (staggerDelayMs container) (ofZ 1000));
       easingOpt := ease_out |}.

(** [animateStaggerChildren(container)]. *)
Definition animateStaggerChildren (container : elem) : M unit :=
  invoke throws (stagger_call container).

(** [setupObservers()]: content is visible by default. *)
Definition setupObservers : M unit :=
  let animatableElements := querySelectorAll doc "animate" in
  forEach (fun el => observe EntranceObserver el) animatableElements ;;
  setupParallax doc ;;
  setupStaggerObservers doc.

Definition ready : state := exec setupObservers initial.

Definition run (evs : list event) : state :=
  Controller.run doc animateElement animateStaggerChildren evs ready.

(** Counter: fast 800ms duration. *)
Definition counter_duration (element : elem) : number := Finite (8 # 10).

Definition counterObserverCallback :=
  Ancillary.counterObserverCallback throws doc counter_duration.

(** [setupTextRevealAnimations()]: disabled, text is visible by
    default. *)
Definition setupTextRevealAnimations : M unit := ret tt.

End WithLibrary.

End MotionMinimal.

(* ===================================================================== *)
(** ** Revision 3: Anime.js, timings in milliseconds *)
(* ===================================================================== *)

Module AnimeJs.
Import JS Page Controller.
Local Open Scope string_scope.

Section WithLibrary.

Variable throws : effect -> bool.
Variable doc : document.

(** The [animations] table of [animateElement]: parameter records, each
    represented by the [anime(...)] call made with it. *)
Definition animations (element : elem) (duration delay : number)
  : list (string * effect) :=
  let anim kf dur ease :=
    Animate [Node element] (Preset kf)
      {| duration := dur; delayOpt := Fixed delay;
         easingOpt := Curve ease |} in
  [ ("fade-up", anim
       [("opacity", ["0"; "1"]); ("translateY", ["60"; "0"])]
       duration "easeOutExpo");
    ("fade-down", anim
       [("opacity", ["0"; "1"]); ("translateY", ["-60"; "0"])]
       duration "easeOutExpo");
    ("fade-left", anim
       [("opacity", ["0"; "1"]); ("translateX", ["60"; "0"])]
       duration "easeOutExpo");
    ("fade-right", anim
       [("opacity", ["0"; "1"]); ("translateX", ["-60"; "0"])]
       duration "easeOutExpo");
    ("zoom-in", anim
       [("opacity", ["0"; "1"]); ("scale", ["0.8"; "1"])]
       duration "easeOutExpo");
    ("zoom-out", anim
       [("opacity", ["0"; "1"]); ("scale", ["1.1"; "1"])]
       duration "easeOutExpo");
    ("flip-up", anim
       [("opacity", ["0"; "1"]); ("rotateX", ["90"; "0"]);
        ("translateY", ["40"; "0"])]
       (add duration (ofZ 200)) "easeOutExpo");
    ("rotate-in", anim
       [("opacity", ["0"; "1"]); ("rotate", ["-10"; "0"]);
        ("scale", ["0.9"; "1"])]
       duration "easeOutElastic(1, 0.5)");
    ("blur-in", anim
       [("opacity", ["0"; "1"]); ("filter", ["blur(10px)"; "blur(0px)"]);
        ("translateY", ["30"; "0"])]
       duration "easeOutExpo");
    ("slide-reveal", anim
       [("opacity", ["0"; "1"]); ("translateY", ["100"; "0"])]
       (add duration (ofZ 200)) "easeOutQuart");
    ("bounce-in", anim
       [("opacity", ["0"; "1"]); ("translateY", ["80"; "0"]);
        ("scale", ["0.85"; "1"])]
       (add duration (ofZ 400)) "easeOutElastic(1, 0.6)");
    ("skew-in", anim
       [("opacity", ["0"; "1"]); ("skewY", ["6"; "0"]);
        ("translateY", ["40"; "0"])]
       duration "easeOutQuart") ]%string.

Definition resolve_delay (element : elem) : number :=
  parseInt (or_default (dataset doc element "delay") "0").

Definition resolve_duration (element : elem) : number :=
  parseInt (or_default (dataset doc element "duration") "800").

Definition resolve_kind (element : elem) : string :=
  or_default (dataset doc element "animate") "fade-up".

(** [animateElement(element)]: no branch for an unknown kind. *)
Definition animateElement (element : elem) : M unit :=
  let delay := resolve_delay element in
  let duration := resolve_duration element in
  match get (animations element duration delay) (resolve_kind element) with
  | Own animConfig => invoke throws animConfig
  | Inherited name => invoke throws (CallInherited name)
  | Undefined => ret tt
  end.

(** The [baseConfig] table: keyframes and easing of each group kind. *)
Definition baseConfig : list (string * (keyframes * string)) :=
  [ ("fade-up",
     ([("opacity", ["0"; "1"]); ("translateY", ["50"; "0"])],
      "easeOutExpo"));
    ("fade-down",
     ([("opacity", ["0"; "1"]); ("translateY", ["-50"; "0"])],
      "easeOutExpo"));
    ("zoom-in",
     ([("opacity", ["0"; "1"]); ("scale", ["0.8"; "1"])],
      "easeOutExpo"));
    ("slide-left",
     ([("opacity", ["0"; "1"]); ("translateX", ["60"; "0"])],
      "easeOutExpo"));
    ("slide-right",
     ([("opacity", ["0"; "1"]); ("translateX", ["-60"; "0"])],
      "easeOutExpo"));
    ("rotate-stagger",
     ([("opacity", ["0"; "1"]); ("rotate", ["-15"; "0"]);
       ("translateY", ["40"; "0"])],
      "easeOutElastic(1, 0.5)"));
    ("cascade",
     ([("opacity", ["0"; "1"]); ("translateY", ["80"; "0"]);
       ("translateX", ["-30"; "0"]); ("rotate", ["-5"; "0"])],
      "easeOutQuart")) ]%string.

Definition staggerDelay (container : elem) : number :=
  parseInt (or_default (dataset doc container "staggerDelay") "100").

(** The one [anime(...)] call of [animateStaggerChildren]: the table
    entry is spread into the parameters, and spreading anything but an
    own entry adds nothing. *)
Definition stagger_call (container : elem) : effect :=
  let children := querySelectorAllIn doc container "staggerItem" in
  let animationType := or_default (dataset doc container "stagger") "fade-up" in
  let '(kf, ease) :=
    match get baseConfig animationType with
    | Own (kf, ease) => (kf, Curve ease)
    | Inherited _ | Undefined => ([], NoEasing)
    end in
  Animate (map Node children) (Preset kf)
    {| duration := ofZ 800;
       delayOpt := Stagger (staggerDelay container);
       easingOpt := ease |}.

(** [animateStaggerChildren(container)]. *)
Definition animateStaggerChildren (container : elem) : M unit :=
  let children := querySelectorAllIn doc container "staggerItem" in
  forEach (fun child => style_opacity child "0") children ;;
  invoke throws (stagger_call container).

(** [setupObservers()]. *)
Definition setupObservers : M unit :=
  let animatableElements := querySelectorAll doc "animate" in
  forEach (fun el =>
    (* Set initial state *)
    style_opacity el "0" ;;
    observe EntranceObserver el) animatableElements ;;
  setupParallax doc ;;
  setupStaggerObservers doc.

Definition ready : state := exec setupObservers initial.

Definition run (evs : list event) : state :=
  Controller.run doc animateElement animateStaggerChildren evs ready.

(** Text reveal: the two [anime(...)] calls. *)
Definition animate_chars (chars : list target) : M unit :=
  invoke throws
    (Animate chars
       (Preset [("opacity", ["0"; "1"]); ("translateY", ["30"; "0"])])
       {| duration := ofZ 600;
          delayOpt := Stagger (ofZ 30);
          easingOpt := Curve "easeOutExpo" |}).

Definition animate_words (words : list target) : M unit :=
  invoke throws
    (Animate words
       (Preset [("opacity", ["0"; "1"]); ("translateY", ["40"; "0"]);
                ("rotateX", ["90"; "0"])])
       {| duration := ofZ 800;
          delayOpt := Stagger (ofZ 80);
          easingOpt := Curve "easeOutExpo" |}).

Definition textObserverCallback :=
  Ancillary.textObserverCallback doc animate_chars animate_words.

Definition setupTextRevealAnimations : M unit :=
  Ancillary.setupTextRevealAnimations doc.

Definition text_run (evs : list text_event) (s : state) : state :=
  Ancillary.text_run doc animate_chars animate_words evs s.

End WithLibrary.

End AnimeJs.



(* ===================================================================== *)
(** ** Reasoning about page computations *)
(* ===================================================================== *)

Module Facts.
Import JS Page Controller.

(** A computation respects a relation when the state it leaves, whatever
    its outcome, is related to the state it started from. *)
Definition respects {A} (R : relation state) (m : M A) : Prop :=
  forall s, R s (exec m s).

(** A dispatcher is quiet when it leaves alone what the triggers and the
    scroll listener rely on: the seen set, the record of dispatcher calls,
    the scroll throttle and the record of recomputations. *)
Definition quiet_rel (s s' : state) : Prop :=
  animatedElements s' = animatedElements s
  /\ scroll s' = scroll s
  /\ (forall d e, invocations d e (trace s') = invocations d e (trace s))
  /\ recomputations (trace s') = recomputations (trace s).

Definition quiet {A} (m : M A) : Prop := respects quiet_rel m.

(** The seen set bounds the dispatcher calls: an element is dispatched at
    most once over the two triggers, and only once it is in the set. *)
Definition dispatched (s : state) (e : elem) : nat :=
  (invocations AnimateElement e (trace s)
   + invocations AnimateStaggerChildren e (trace s))%nat.

Definition seen_bound (s : state) : Prop :=
  forall e, (dispatched s e <= if bool_decide (e ∈ animatedElements s)
                               then 1 else 0)%nat.

(** The throttle: a frame callback is outstanding only while [ticking]. *)
Definition throttle_ok (s : state) : Prop :=
  (frameRequests (scroll s) <= if ticking (scroll s) then 1 else 0)%nat.

(** Both invariants together, as they hold along every run. *)
Definition sound (s : state) : Prop := seen_bound s /\ throttle_ok s.

(** An effect that is neither a dispatcher call nor a recomputation. *)
Definition plain (f : effect) : Prop :=
  match f with
  | Enter _ _ | Recompute => False
  | _ => True
  end.

(** Keeping a property of the state, as a relation. *)
Definition keeps (P : state -> Prop) : relation state :=
  fun s s' => P s -> P s'.

(** What the scroll listener and the frame callback leave alone. *)
Definition dispatch_rel (s s' : state) : Prop :=
  animatedElements s' = animatedElements s
  /\ forall d e, invocations d e (trace s') = invocations d e (trace s).

(** What the intersection callbacks leave alone. *)
Definition scroll_rel (s s' : state) : Prop :=
  scroll s' = scroll s
  /\ recomputations (trace s') = recomputations (trace s).

(** The seen set only grows. *)
Definition grows (s s' : state) : Prop :=
  animatedElements s ⊆ animatedElements s'.

(** The state in which a trigger calls its dispatcher on [e]: the element
    is in the seen set and the call is noted. *)
Definition marked (d : dispatcher) (e : elem) (s : state) : state :=
  set_trace (fun t => t ++ [Enter d e])
    (set_animatedElements (fun seen => seen ∪ {[e]}) s).

(** Every intersecting entry of the batch is in the seen set. *)
Definition all_marked (entries : list entry) (s : state) : bool :=
  forallb (fun en =>
    implb (isIntersecting en)
          (bool_decide (entryTarget en ∈ animatedElements s))) entries.

(** Inline opacity of an element: hidden and shown. *)
Definition hidden (e : elem) (s : state) : Prop :=
  opacity s !! e = Some "0"%string.


(** The text reveal leaves the inline opacity and the timers alone, except
    through its timer. *)
Definition text_rel (s s' : state) : Prop :=
  opacity s' = opacity s /\ timers s' = timers s.


(** Targets and options of a library call. *)
Definition call_targets (f : effect) : list target :=
  match f with
  | Animate ts _ _ => ts
  | Progress e _ => [Node e]
  | _ => []
  end.

Definition call_delay (f : effect) : delay :=
  match f with
  | Animate _ _ o | Progress _ o => delayOpt o
  | _ => NoDelay
  end.

Definition call_duration (f : effect) : number :=
  match f with
  | Animate _ _ o | Progress _ o => duration o
  | _ => NaN
  end.

(** A numeric attribute as the markup declares it: the integer [parseInt]
    reads from its value, and the default when the attribute is absent or
    empty. *)
Definition declared (attr : option string) (default : Z) : number :=
  match attr with
  | None | Some EmptyString => ofZ default
  | Some v => parseInt v
  end.

(** An animation kind as the markup declares it. *)
Definition declared_kind (attr : option string) : string :=
  match attr with
  | None | Some EmptyString => "fade-up"
  | Some k => k
  end.

(** Milliseconds to the seconds Motion One expects. *)
Definition seconds (ms : number) : number := div ms (ofZ 1000).

End Facts.

(* ===================================================================== *)
(** ** Text formats and example pages *)
(* ===================================================================== *)

Module Format.

Definition is_digit (c : ascii) : bool :=
  let n := nat_of_ascii c in ((48 <=? n) && (n <=? 57))%nat.




End Format.

Module Examples.
Import JS Page Controller.
Local Open Scope string_scope.
Local Open Scope nat_scope.

Definition visible (e : elem) : entry :=
  {| entryTarget := e; isIntersecting := true |}.

Definition away (e : elem) : entry :=
  {| entryTarget := e; isIntersecting := false |}.

(** A library that never throws, and one that throws on every call that
    targets element 1. *)
Definition reliable : effect -> bool := fun _ => false.

Definition fails_on_1 : effect -> bool := fun f =>
  match f with
  | Animate (Node 1 :: _) _ _ => true
  | _ => false
  end.

(** [<div data-animate="wobble">]. *)
Definition page_unknown_kind : document :=
  {| elements := [1];
     attrs := fun e => match e with 1 => [("animate", "wobble")] | _ => [] end;
     descendants := fun _ => [];
     textContent := fun _ => "" |}.

(** [<div data-animate="constructor">]: a kind that names a member the
    table object inherits. *)
Definition page_inherited_kind : document :=
  {| elements := [1];
     attrs := fun e =>
       match e with 1 => [("animate", "constructor")] | _ => [] end;
     descendants := fun _ => [];
     textContent := fun _ => "" |}.

(** [<div data-animate="fade-up" data-stagger="fade-up">]. *)
Definition page_both : document :=
  {| elements := [1];
     attrs := fun e =>
       match e with
       | 1 => [("animate", "fade-up"); ("stagger", "fade-up")]
       | _ => []
       end;
     descendants := fun _ => [];
     textContent := fun _ => "" |}.

(** Two entrance elements. *)
Definition page_two : document :=
  {| elements := [1; 2];
     attrs := fun e =>
       match e with
       | 1 | 2 => [("animate", "fade-up")]
       | _ => []
       end;
     descendants := fun _ => [];
     textContent := fun _ => "" |}.

(** A grid of three items, no [data-stagger-delay]. *)
Definition page_grid : document :=
  {| elements := [1; 2; 3; 4];
     attrs := fun e =>
       match e with
       | 1 => [("stagger", "fade-up")]
       | 2 | 3 | 4 => [("staggerItem", "")]
       | _ => []
       end;
     descendants := fun e => match e with 1 => [2; 3; 4] | _ => [] end;
     textContent := fun _ => "" |}.

(** The same grid with [data-stagger-delay="250"]. *)
Definition page_grid_250 : document :=
  {| elements := [1; 2; 3; 4];
     attrs := fun e =>
       match e with
       | 1 => [("stagger", "fade-up"); ("staggerDelay", "250")]
       | 2 | 3 | 4 => [("staggerItem", "")]
       | _ => []
       end;
     descendants := fun e => match e with 1 => [2; 3; 4] | _ => [] end;
     textContent := fun _ => "" |}.

(** [<div data-animate="fade-up" data-duration="1200" data-delay="150">]. *)
Definition page_duration : document :=
  {| elements := [1];
     attrs := fun e =>
       match e with
       | 1 => [("animate", "fade-up"); ("duration", "1200"); ("delay", "150")]
       | _ => []
       end;
     descendants := fun _ => [];
     textContent := fun _ => "" |}.

(** [<p data-text-reveal="chars">Hi there</p>] and
    [<p data-text-reveal>Hi there</p>]. *)
Definition page_text : document :=
  {| elements := [1; 2];
     attrs := fun e =>
       match e with
       | 1 => [("textReveal", "chars")]
       | 2 => [("textReveal", "")]
       | _ => []
       end;
     descendants := fun _ => [];
     textContent := fun _ => "Hi there" |}.

(** Counters: [data-counter="42"], ["3.5"], ["1.0e21"] and ["n/a"]. *)
Definition page_counters : document :=
  {| elements := [1; 2; 3; 4];
     attrs := fun e =>
       match e with
       | 1 => [("counter", "42")]
       | 2 => [("counter", "3.5")]
       | 3 => [("counter", "1.0e21")]
       | 4 => [("counter", "n/a")]
       | _ => []
       end;
     descendants := fun _ => [];
     textContent := fun _ => "" |}.

End Examples.

(* ===================================================================== *)
(** ** Further invariants and the magnetic effect *)
(* ===================================================================== *)

Module Invariants.
Import JS Page Controller Facts.

(** A component of the state that a computation leaves as it was. *)
Definition unchanged {K} (f : state -> K) : relation state :=
  fun s s' => f s' = f s.

(** The seen set holds exactly the elements that were dispatched, and each
    of them was dispatched once. *)
Definition exact_bound (s : state) : Prop :=
  forall e, dispatched s e
            = if bool_decide (e ∈ animatedElements s) then 1%nat else 0%nat.

(** The listener is installed and a frame callback is outstanding exactly
    while [ticking]. *)
Definition throttle_exact (s : state) : Prop :=
  listening (scroll s) = true
  /\ frameRequests (scroll s) = if ticking (scroll s) then 1%nat else 0%nat.

(** No listener was installed and nothing was ever recomputed. *)
Definition no_listener (s : state) : Prop :=
  listening (scroll s) = false
  /\ frameRequests (scroll s) = 0%nat
  /\ recomputations (trace s) = 0%nat.

(** A batch in which no entry intersects. *)
Definition all_away (entries : list entry) : bool :=
  forallb (fun en => negb (isIntersecting en)) entries.

(** The parallax band of an element at a frame, and the offset written
    inside it, as [handleScroll] computes them. *)
Definition scroll_progress (v : viewport) (e : elem) : Q :=
  (scrollY v - (rectTop v e + scrollY v) + innerHeight v)%Q.

Definition in_band (v : viewport) (e : elem) : bool :=
  Qlt_bool 0 (scroll_progress v e)
  && Qlt_bool (scroll_progress v e) (innerHeight v + rectHeight v e).

Definition parallax_speed (doc : document) (e : elem) : number :=
  parseFloat (or_default (dataset doc e "parallax") "0.5").

Definition points_down (doc : document) (e : elem) : bool :=
  String.eqb (or_default (dataset doc e "parallaxDirection") "up") "down".

Definition band_offset (doc : document) (v : viewport) (e : elem) : number :=
  let y := mul (mul (Finite (scroll_progress v e)) (parallax_speed doc e))
               (Finite (1 # 10)) in
  if points_down doc e then neg y else y.

(** Number of spaces in a text, the text without them, and pieces put
    together again with a space between them. *)
Fixpoint count_spaces (s : string) : nat :=
  match s with
  | String c r => (if Ascii.eqb c " " then 1 else 0) + count_spaces r
  | EmptyString => 0
  end%nat.

Fixpoint remove_spaces (s : string) : string :=
  match s with
  | String c r => if Ascii.eqb c " " then remove_spaces r
                  else String c (remove_spaces r)
  | EmptyString => EmptyString
  end.

Fixpoint join_with_space (parts : list string) : string :=
  match parts with
  | [] => EmptyString
  | [p] => p
  | p :: r => (p ++ String " " (join_with_space r))%string
  end.

(** The character at an index of a text, as a one-character string. *)
Fixpoint char_at (s : string) (i : nat) : option string :=
  match s, i with
  | String c _, O => Some (String c EmptyString)
  | String _ r, S j => char_at r j
  | EmptyString, _ => None
  end.

(** Value of a decimal numeral read from its most significant digit. *)
Fixpoint uint_value (acc : Z) (u : Decimal.uint) : Z :=
  match u with
  | Decimal.Nil => acc
  | Decimal.D0 r => uint_value (acc * 10 + 0) r
  | Decimal.D1 r => uint_value (acc * 10 + 1) r
  | Decimal.D2 r => uint_value (acc * 10 + 2) r
  | Decimal.D3 r => uint_value (acc * 10 + 3) r
  | Decimal.D4 r => uint_value (acc * 10 + 4) r
  | Decimal.D5 r => uint_value (acc * 10 + 5) r
  | Decimal.D6 r => uint_value (acc * 10 + 6) r
  | Decimal.D7 r => uint_value (acc * 10 + 7) r
  | Decimal.D8 r => uint_value (acc * 10 + 8) r
  | Decimal.D9 r => uint_value (acc * 10 + 9) r
  end.

(** A suffix that ends a numeral: it does not start with a digit, nor with
    the [x] that would turn a leading zero into a hexadecimal prefix. *)
Definition ends_numeral (suffix : string) : bool :=
  match suffix with
  | String c _ =>
      negb (Format.is_digit c) && negb (Ascii.eqb c "x")
      && negb (Ascii.eqb c "X")
  | EmptyString => true
  end.

(** A suffix that ends a decimal literal without a fraction or an
    exponent: it starts neither with a digit nor with a point nor with
    [e]. *)
Definition ends_decimal (suffix : string) : bool :=
  match suffix with
  | String c _ =>
      negb (Format.is_digit c) && negb (Ascii.eqb c ".")
      && negb (Ascii.eqb c "e") && negb (Ascii.eqb c "E")
  | EmptyString => true
  end.

(** A character that can begin what [parseInt] reads: white space, a
    sign or a digit. *)
Definition opens_integer (c : ascii) : bool :=
  is_whitespace c || Format.is_digit c || Ascii.eqb c "-" || Ascii.eqb c "+".

(** An element whose delay is a word. *)
Definition page_malformed : document :=
  {| elements := [1]%nat;
     attrs := fun e =>
       match e with
       | 1%nat => [("animate", "fade-up"); ("delay", "fast")]
       | _ => []
       end%string;
     descendants := fun _ => [];
     textContent := fun _ => EmptyString |}.

(** An element whose numeric options carry a unit. *)
Definition page_units : document :=
  {| elements := [1]%nat;
     attrs := fun e =>
       match e with
       | 1%nat => [("animate", "zoom-in"); ("delay", "200ms");
                   ("duration", "1500")]
       | _ => []
       end%string;
     descendants := fun _ => [];
     textContent := fun _ => EmptyString |}.

(** The kinds the [animations] tables list, and the group kinds the
    [baseConfig] tables list; the three revisions list the same ones. *)
Definition entrance_kinds : list string :=
  [ "fade-up"; "fade-down"; "fade-left"; "fade-right"; "zoom-in"; "zoom-out";
    "flip-up"; "rotate-in"; "blur-in"; "slide-reveal"; "bounce-in";
    "skew-in" ]%string.

Definition group_kinds : list string :=
  [ "fade-up"; "fade-down"; "zoom-in"; "slide-left"; "slide-right";
    "rotate-stagger"; "cascade" ]%string.

Definition listed (kinds : list string) (kind : string) : bool :=
  existsb (String.eqb kind) kinds.

(** Numbers are modelled as exact rationals, while the host computes in
    binary64.  Two bounds mark where a literal is read alike by both: up
    to [safe_integer], 2^53, every integer is a binary64 number; and
    [counter_limit], 10^21 - 2^17, is the largest binary64 number below
    10^21, so a literal of at most that magnitude is read, and scaled by a
    progress in [0, 1], to a number below 10^21. *)
Definition safe_integer : Z := 2 ^ 53.


(** Below [safe_tenths], 2^48, a literal with one decimal is read to a
    binary64 number that differs from it by less than 1/20, so that
    [toFixed(1)] finds the literal's own tenths. *)
Definition safe_tenths : Z := 2 ^ 48.

(** A text without the characters the HTML parser treats specially when
    the text is assigned to [innerHTML] unescaped: [<] and [&], which
    start markup, the NUL character, which is dropped, and the carriage
    return, which is turned into a line feed. *)
Definition markup_free (text : string) : bool :=
  negb (includes text "<") && negb (includes text "&")
  && negb (includes text (ascii_of_nat 0))
  && negb (includes text (ascii_of_nat 13)).

(** The duration a kind of the full Motion One revision hands to the
    library, as the amended claim C5 words it: the resolved duration, plus
    0.2 s for [flip-up] and [slide-reveal] and plus 0.4 s for
    [bounce-in]. *)
Definition preset_duration (kind : string) (duration : number) : number :=
  if String.eqb kind "flip-up" || String.eqb kind "slide-reveal"
  then add duration (Finite (2 # 10))
  else if String.eqb kind "bounce-in"
  then add duration (Finite (4 # 10))
  else duration.

(** What a dispatcher hands to the library on one element, read off the
    trace: one call, on the element alone, with a delay and a duration. *)
Definition hands (before after : state) (element : elem)
  (delay duration : number) : Prop :=
  exists call,
    trace after = (trace before ++ [call])%list
    /\ call_targets call = [Node element]
    /\ call_delay call = Fixed delay
    /\ call_duration call = duration.

(** The keyframe argument of a library call. *)
Definition call_config (f : effect) : option config :=
  match f with
  | Animate _ c _ => Some c
  | _ => None
  end.

(** A call that fades one element in, and a call that only moves it. *)
Definition animates_opacity (e : elem) (call : effect) : Prop :=
  exists kf o, call = Animate [Node e] (Preset kf) o
               /\ assoc kf "opacity" = Some ["0"; "1"]%string.

Definition animates_transform_only (e : elem) (call : effect) : Prop :=
  exists from to o,
    call = Animate [Node e] (Preset [("transform", [from; to])]%string) o.

(** A grid whose group kind is not in the table. *)
Definition page_grid_unknown : document :=
  {| elements := [1; 2; 3]%nat;
     attrs := fun e =>
       match e with
       | 1%nat => [("stagger", "wobble")]
       | 2%nat | 3%nat => [("staggerItem", "")]
       | _ => []
       end%string;
     descendants := fun e => match e with 1%nat => [2; 3]%nat | _ => [] end;
     textContent := fun _ => EmptyString |}.

(** A page with one parallax element moving down, and a page without. *)
Definition page_parallax : document :=
  {| elements := [1; 2]%nat;
     attrs := fun e =>
       match e with
       | 1%nat => [("parallax", "0.5"); ("parallaxDirection", "down")]
       | _ => []
       end%string;
     descendants := fun _ => [];
     textContent := fun _ => EmptyString |}.

(** A frame at which element 1 is inside its band and element 2 far below
    the viewport. *)
Definition frame_at_100 : viewport :=
  {| scrollY := 100%Q; innerHeight := 800%Q;
     rectTop := fun e => match e with 1%nat => 300%Q | _ => 5000%Q end;
     rectHeight := fun _ => 200%Q |}.

End Invariants.

(** The magnetic effect: [setupMagneticEffect]. *)
Module Magnetic.
Import JS Page.



(** The call made by a listener: a translation of the element by [(x, y)]
    pixels, with its duration and easing. *)
Record translation : Type := {
  moved : elem;
  translateX : number;
  translateY : number;
  lasting : number;
  eased : easing
}.








(** The [mouseleave] listener of the three revisions. *)
Definition full_mouseleave (element : elem) : translation :=
  {| moved := element; translateX := ofZ 0; translateY := ofZ 0;
     lasting := Finite (4 # 10); eased := Spring 300 20 |}.

Definition minimal_mouseleave (element : elem) : translation :=
  {| moved := element; translateX := ofZ 0; translateY := ofZ 0;
     lasting := Finite (25 # 100); eased := Curve "ease-out" |}.

Definition anime_mouseleave (element : elem) : translation :=
  {| moved := element; translateX := ofZ 0; translateY := ofZ 0;
     lasting := ofZ 400; eased := Curve "easeOutElastic(1, 0.5)" |}.



End Magnetic.

(* ===================================================================== *)
(** * Properties *)
(* ===================================================================== *)

Module MonadLemmas.
Import JS Page Controller Facts.

Lemma exec_ret {A} (a : A) s : exec (mret a : M A) s = s.
Proof. reflexivity. Qed.

Lemma exec_bind {A B} (m : M A) (k : A -> M B) s :
  exec (m ≫= k) s =
  match m s with
  | (Returned a, s') => exec (k a) s'
  | (Threw, s') => s'
  end.
Proof.
  unfold exec, mbind, M_bind, bind. destruct (m s) as [[a|] s']; reflexivity.
Qed.

Lemma exec_bind_returns {A B} (m : M A) (k : A -> M B) s a :
  fst (m s) = Returned a -> exec (m ≫= k) s = exec (k a) (snd (m s)).
Proof.
  intros H. rewrite exec_bind. destruct (m s) as [[a'|] s']; simpl in *;
    congruence.
Qed.

Lemma run_bind {A B} (m : M A) (k : A -> M B) s :
  (m ≫= k) s =
  match m s with
  | (Returned a, s') => k a s'
  | (Threw, s') => (Threw, s')
  end.
Proof. reflexivity. Qed.

Section Respects.
Variable R : relation state.
Context `{!PreOrder R}.

Lemma respects_ret {A} (a : A) : respects R (mret a : M A).
Proof. intros s. reflexivity. Qed.

Lemma respects_throw {A} : respects R (throw : M A).
Proof. intros s. reflexivity. Qed.

Lemma respects_read : respects R read.
Proof. intros s. reflexivity. Qed.

Lemma respects_bind {A B} (m : M A) (k : A -> M B) :
  respects R m -> (forall a, respects R (k a)) -> respects R (m ≫= k).
Proof.
  intros Hm Hk s. rewrite exec_bind. specialize (Hm s). unfold exec in Hm.
  destruct (m s) as [[a|] s']; simpl in Hm; [|exact Hm].
  etransitivity; [exact Hm | apply Hk].
Qed.

Lemma respects_modify (f : state -> state) :
  (forall s, R s (f s)) -> respects R (modify f).
Proof. intros Hf s. apply Hf. Qed.

Lemma respects_forEach {A} (f : A -> M unit) (l : list A) :
  (forall x, respects R (f x)) -> respects R (forEach f l).
Proof.
  intros Hf. induction l as [|x l IH]; simpl.
  - apply respects_ret.
  - apply respects_bind; [apply Hf | intros _; exact IH].
Qed.

Lemma respects_if {A} (b : bool) (m1 m2 : M A) :
  respects R m1 -> respects R m2 -> respects R (if b then m1 else m2).
Proof. destruct b; auto. Qed.

End Respects.

(** [forEach] over a batch split in two: the second part runs only when
    the first returns. *)
Lemma forEach_app {A} (f : A -> M unit) (l1 l2 : list A) s :
  forEach f (l1 ++ l2) s =
  match forEach f l1 s with
  | (Returned _, s') => forEach f l2 s'
  | (Threw, s') => (Threw, s')
  end.
Proof.
  revert s. induction l1 as [|x l1 IH]; intros s; simpl.
  - reflexivity.
  - rewrite !run_bind. destruct (f x s) as [[[]|] s']; [apply IH | reflexivity].
Qed.

End MonadLemmas.

Module ControllerLemmas.
Import JS Page Controller Facts MonadLemmas.

#[export] Instance quiet_rel_preorder : PreOrder quiet_rel.
Proof.
  split.
  - intros s. repeat split; reflexivity.
  - intros s1 s2 s3 (Ha & Hb & Hc & Hd) (Ha' & Hb' & Hc' & Hd').
    split; [congruence | split; [congruence | split; [| congruence]]].
    intros d e. rewrite Hc'. apply Hc.
Qed.

Lemma invocations_snoc d e t f :
  invocations d e (t ++ [f]) =
  (invocations d e t + if is_enter d e f then 1 else 0)%nat.
Proof.
  unfold invocations. rewrite List.filter_app, List.length_app. simpl.
  destruct (is_enter d e f); reflexivity.
Qed.

Lemma recomputations_snoc t f :
  recomputations (t ++ [f]) =
  (recomputations t + if is_recompute f then 1 else 0)%nat.
Proof.
  unfold recomputations. rewrite List.filter_app, List.length_app. simpl.
  destruct (is_recompute f); reflexivity.
Qed.

Lemma plain_is_enter d e f : plain f -> is_enter d e f = false.
Proof. destruct f as [[] ?| | | |], d; simpl; tauto. Qed.

Lemma plain_is_recompute f : plain f -> is_recompute f = false.
Proof. destruct f; simpl; tauto. Qed.

Lemma quiet_record f : plain f -> quiet (record f).
Proof.
  intros Hf s. unfold exec, record, modify, set_trace; simpl.
  split; [reflexivity | split; [reflexivity | split]]; simpl.
  - intros d e. rewrite invocations_snoc, plain_is_enter by assumption. lia.
  - rewrite recomputations_snoc, plain_is_recompute by assumption. lia.
Qed.

Lemma quiet_invoke throws f : plain f -> quiet (invoke throws f).
Proof.
  intros Hf. unfold invoke. apply respects_bind; [apply _ | |].
  - apply quiet_record, Hf.
  - intros _. apply respects_if; [apply respects_throw | apply respects_ret];
      apply _.
Qed.

Lemma quiet_call_inherited name : quiet (call_inherited name).
Proof.
  unfold call_inherited. apply respects_bind; [apply _ | |].
  - apply quiet_record. exact I.
  - intros _. apply respects_if; [apply respects_throw | apply respects_ret];
      apply _.
Qed.

Lemma quiet_style_opacity e v : quiet (style_opacity e v).
Proof. intros s. repeat split. Qed.

Lemma quiet_style_transform e v : quiet (style_transform e v).
Proof. intros s. repeat split. Qed.

Lemma quiet_observe o e : quiet (observe o e).
Proof. intros s. repeat split. Qed.

Lemma quiet_unobserve o e : quiet (unobserve o e).
Proof. intros s. repeat split. Qed.

Lemma quiet_forEach {A} (f : A -> M unit) l :
  (forall x, quiet (f x)) -> quiet (forEach f l).
Proof. apply respects_forEach, _. Qed.

Lemma quiet_bind {A B} (m : M A) (k : A -> M B) :
  quiet m -> (forall a, quiet (k a)) -> quiet (m ≫= k).
Proof. apply respects_bind, _. Qed.

(** The entries of the preset tables are library calls. *)
Lemma get_cases {A} (table : list (string * A)) key :
  (exists v, get table key = Own v /\ In (key, v) table)
  \/ (get table key = Inherited key) \/ get table key = Undefined.
Proof.
  unfold get. destruct (assoc table key) as [v|] eqn:E.
  - left. exists v. split; [reflexivity|].
    induction table as [|[k w] r IH]; simpl in *; [discriminate|].
    destruct (String.eqb k key) eqn:Ek.
    + apply String.eqb_eq in Ek. left. congruence.
    + right. auto.
  - right. destruct (existsb _ _); auto.
Qed.

End ControllerLemmas.

Module RevisionLemmas.
Import JS Page Controller Facts MonadLemmas ControllerLemmas.

Lemma get_own_in {A} (table : list (string * A)) key v :
  get table key = Own v -> In (key, v) table.
Proof.
  destruct (get_cases table key) as [(w & Hw & Hin) | [H | H]];
    intros E; rewrite E in *; congruence.
Qed.

Ltac table_entries H :=
  simpl in H;
  repeat (destruct H as [H | H]; [inversion H; subst; clear H |]);
  try contradiction.

Lemma full_animations_plain e d dl k v :
  In (k, v) (MotionFull.animations e d dl) -> plain v.
Proof. intros H. table_entries H; exact I. Qed.

Lemma minimal_animations_plain e d dl k v :
  In (k, v) (MotionMinimal.animations e d dl) -> plain v.
Proof. intros H. table_entries H; exact I. Qed.

Lemma anime_animations_plain e d dl k v :
  In (k, v) (AnimeJs.animations e d dl) -> plain v.
Proof. intros H. table_entries H; exact I. Qed.

Lemma full_animateElement_quiet throws doc e :
  quiet (MotionFull.animateElement throws doc e).
Proof.
  unfold MotionFull.animateElement.
  destruct (get _ _) as [v | name |] eqn:E.
  - apply quiet_invoke. eapply full_animations_plain, get_own_in, E.
  - apply quiet_call_inherited.
  - apply quiet_bind; [apply quiet_style_opacity |].
    intros _. apply quiet_style_transform.
Qed.

Lemma minimal_animateElement_quiet throws doc e :
  quiet (MotionMinimal.animateElement throws doc e).
Proof.
  unfold MotionMinimal.animateElement.
  destruct (get _ _) as [v | name |] eqn:E.
  - apply quiet_invoke. eapply minimal_animations_plain, get_own_in, E.
  - apply quiet_call_inherited.
  - apply respects_ret, _.
Qed.

Lemma anime_animateElement_quiet throws doc e :
  quiet (AnimeJs.animateElement throws doc e).
Proof.
  unfold AnimeJs.animateElement.
  destruct (get _ _) as [v | name |] eqn:E.
  - apply quiet_invoke. eapply anime_animations_plain, get_own_in, E.
  - apply quiet_invoke. exact I.
  - apply respects_ret, _.
Qed.

Lemma full_animateStaggerChildren_quiet throws doc c :
  quiet (MotionFull.animateStaggerChildren throws doc c).
Proof.
  unfold MotionFull.animateStaggerChildren. apply quiet_bind.
  - apply quiet_forEach. intros x. apply quiet_style_opacity.
  - intros _. apply quiet_invoke. exact I.
Qed.

Lemma minimal_animateStaggerChildren_quiet throws doc c :
  quiet (MotionMinimal.animateStaggerChildren throws doc c).
Proof. apply quiet_invoke. exact I. Qed.

Lemma anime_animateStaggerChildren_quiet throws doc c :
  quiet (AnimeJs.animateStaggerChildren throws doc c).
Proof.
  unfold AnimeJs.animateStaggerChildren. apply quiet_bind.
  - apply quiet_forEach. intros x. apply quiet_style_opacity.
  - intros _. apply quiet_invoke.
    unfold AnimeJs.stagger_call. destruct (get _ _) as [[kf ease]| |]; exact I.
Qed.

(** A kind that names an inherited member of the table is not looked up
    as unknown: the member is called and the fallback branch is skipped. *)
Lemma inherited_kind_skips_fallback :
  let s := MotionFull.run Examples.reliable Examples.page_inherited_kind
             [Intersection [Examples.visible 1%nat]] in
  trace s = [Enter AnimateElement 1%nat; CallInherited "constructor"]
  /\ opacity s !! 1%nat = Some "0"%string.
Proof. vm_compute. split; reflexivity. Qed.

End RevisionLemmas.

Module DispatchLemmas.
Import JS Page Controller Facts MonadLemmas ControllerLemmas.

#[export] Instance keeps_preorder P : PreOrder (keeps P).
Proof. split; [intros s H; exact H | intros s1 s2 s3 H1 H2 H; auto]. Qed.

Lemma quiet_keeps_seen_bound s s' :
  quiet_rel s s' -> seen_bound s -> seen_bound s'.
Proof.
  intros (Ha & _ & Hc & _) H e. unfold dispatched. rewrite !Hc, Ha. apply H.
Qed.

Lemma quiet_keeps_throttle s s' :
  quiet_rel s s' -> throttle_ok s -> throttle_ok s'.
Proof. intros (_ & Hb & _) H. unfold throttle_ok. rewrite Hb. exact H. Qed.

Section Generic.

Variable doc : document.
Variable animateElement : elem -> M unit.
Variable animateStaggerChildren : elem -> M unit.
Hypothesis animateElement_quiet : forall e, quiet (animateElement e).
Hypothesis animateStaggerChildren_quiet :
  forall e, quiet (animateStaggerChildren e).

(** Marking a fresh target and recording the call keeps the bound. *)
Lemma mark_keeps_bound d s t :
  seen_bound s -> t ∉ animatedElements s ->
  seen_bound
    (set_trace (fun tr => tr ++ [Enter d t])
       (set_animatedElements (fun seen => seen ∪ {[t]}) s)).
Proof.
  intros H Ht e. unfold dispatched; simpl.
  rewrite !invocations_snoc. specialize (H e). unfold dispatched in H.
  destruct (decide (e = t)) as [->|Hne].
  - rewrite bool_decide_eq_false_2 in H by assumption.
    rewrite bool_decide_eq_true_2 by set_solver.
    destruct d; simpl; rewrite Nat.eqb_refl; lia.
  - assert (is_enter AnimateElement e (Enter d t) = false
            /\ is_enter AnimateStaggerChildren e (Enter d t) = false)
      as [-> ->].
    { destruct d; simpl; split; try reflexivity;
        apply Nat.eqb_neq; congruence. }
    destruct (bool_decide (e ∈ animatedElements s)) eqn:E.
    + apply bool_decide_eq_true_1 in E.
      rewrite bool_decide_eq_true_2 by set_solver. lia.
    + destruct (bool_decide _); lia.
Qed.

Lemma handleIntersection_keeps_bound entries :
  respects (keeps seen_bound) (handleIntersection animateElement entries).
Proof.
  apply respects_forEach; [apply _|]. intros en s Hs.
  rewrite exec_bind; simpl.
  destruct (isIntersecting en && _) eqn:E; [|exact Hs].
  apply andb_prop in E as [_ E]. apply negb_true_iff in E.
  apply bool_decide_eq_false_1 in E.
  rewrite exec_bind; simpl. rewrite exec_bind; simpl.
  eapply quiet_keeps_seen_bound; [apply animateElement_quiet|].
  apply mark_keeps_bound; assumption.
Qed.

Lemma staggerCallback_keeps_bound entries :
  respects (keeps seen_bound) (staggerCallback animateStaggerChildren entries).
Proof.
  apply respects_forEach; [apply _|]. intros en s Hs.
  rewrite exec_bind; simpl.
  destruct (isIntersecting en && _) eqn:E; [|exact Hs].
  apply andb_prop in E as [_ E]. apply negb_true_iff in E.
  apply bool_decide_eq_false_1 in E.
  rewrite exec_bind; simpl. rewrite exec_bind; simpl.
  eapply quiet_keeps_seen_bound; [apply animateStaggerChildren_quiet|].
  apply mark_keeps_bound; assumption.
Qed.

End Generic.

End DispatchLemmas.

Module ThrottleLemmas.
Import JS Page Controller Facts MonadLemmas ControllerLemmas DispatchLemmas.

#[export] Instance dispatch_rel_preorder : PreOrder dispatch_rel.
Proof.
  split.
  - intros s. split; reflexivity.
  - intros s1 s2 s3 [Ha Hb] [Ha' Hb']. split; [congruence|].
    intros d e. rewrite Hb'. apply Hb.
Qed.

#[export] Instance scroll_rel_preorder : PreOrder scroll_rel.
Proof.
  split.
  - intros s. split; reflexivity.
  - intros s1 s2 s3 [Ha Hb] [Ha' Hb']. split; congruence.
Qed.

Lemma respects_weaken {A} (R R' : relation state) (m : M A) :
  (forall s s', R s s' -> R' s s') -> respects R m -> respects R' m.
Proof. intros H Hm s. apply H, Hm. Qed.

Lemma quiet_dispatch_rel s s' : quiet_rel s s' -> dispatch_rel s s'.
Proof. intros (Ha & _ & Hc & _). split; assumption. Qed.

Lemma quiet_scroll_rel s s' : quiet_rel s s' -> scroll_rel s s'.
Proof. intros (_ & Hb & _ & Hd). split; assumption. Qed.

Lemma dispatch_rel_keeps_bound s s' :
  dispatch_rel s s' -> seen_bound s -> seen_bound s'.
Proof. intros [Ha Hc] H e. unfold dispatched. rewrite !Hc, Ha. apply H. Qed.

Lemma scroll_rel_keeps_throttle s s' :
  scroll_rel s s' -> throttle_ok s -> throttle_ok s'.
Proof. intros [Hb _] H. unfold throttle_ok. rewrite Hb. exact H. Qed.

(** The scroll listener never touches the trace. *)
Lemma onScroll_trace s : trace (exec onScroll s) = trace s.
Proof.
  unfold onScroll. rewrite exec_bind; simpl.
  destruct (listening (scroll s)); [|reflexivity].
  destruct (ticking (scroll s)); reflexivity.
Qed.

Lemma onScroll_seen s :
  animatedElements (exec onScroll s) = animatedElements s.
Proof.
  unfold onScroll. rewrite exec_bind; simpl.
  destruct (listening (scroll s)); [|reflexivity].
  destruct (ticking (scroll s)); reflexivity.
Qed.

Lemma onScroll_throttle s : throttle_ok s -> throttle_ok (exec onScroll s).
Proof.
  unfold onScroll, throttle_ok. rewrite exec_bind; simpl.
  destruct (listening (scroll s)); [|auto].
  destruct (ticking (scroll s)) eqn:E; simpl; intros H.
  - unfold exec; simpl. rewrite E. exact H.
  - lia.
Qed.

(** While a frame callback is outstanding, a scroll event is dropped. *)
Lemma onScroll_dropped s : ticking (scroll s) = true -> exec onScroll s = s.
Proof.
  intros H. unfold onScroll. rewrite exec_bind; simpl. rewrite H.
  destruct (listening (scroll s)); reflexivity.
Qed.

(** [handleScroll] returns, notes the recomputation and writes nothing but
    transforms. *)
Lemma handleScroll_effect doc v s :
  let r := handleScroll doc v s in
  fst r = Returned tt
  /\ trace (snd r) = trace s ++ [Recompute]
  /\ animatedElements (snd r) = animatedElements s
  /\ scroll (snd r) = scroll s
  /\ opacity (snd r) = opacity s
  /\ timers (snd r) = timers s.
Proof.
  unfold handleScroll. rewrite run_bind; simpl.
  set (s1 := set_trace _ s).
  change (trace s ++ [Recompute]) with (trace s1).
  change (animatedElements s) with (animatedElements s1).
  change (scroll s) with (scroll s1).
  change (opacity s) with (opacity s1).
  change (timers s) with (timers s1).
  generalize s1. clear s s1.
  induction (querySelectorAll doc "parallax") as [|x l IH]; intros s; simpl.
  - repeat split.
  - rewrite run_bind.
    destruct (Qlt_bool _ _ && Qlt_bool _ _); [destruct (isFinite _)|];
      simpl; try apply IH.
    match goal with
    | |- context [forEach _ l ?s1] =>
        destruct (IH s1) as (H1 & H2 & H3 & H4 & H5 & H6)
    end.
    repeat split; assumption.
Qed.

(** A frame runs the queued callbacks: none or one. *)
Lemma onFrame_cases doc v s :
  throttle_ok s ->
  let s' := exec (onFrame doc v) s in
  animatedElements s' = animatedElements s
  /\ opacity s' = opacity s
  /\ frameRequests (scroll s') = 0%nat
  /\ (trace s' = trace s
      \/ (trace s' = trace s ++ [Recompute]
          /\ frameRequests (scroll s) = 1%nat
          /\ ticking (scroll s') = false)).
Proof.
  unfold throttle_ok, onFrame. intros H. rewrite exec_bind; simpl.
  rewrite exec_bind; simpl.
  destruct (frameRequests (scroll s)) as [|[|n]] eqn:E; simpl.
  - auto.
  - unfold frameCallback, exec. rewrite !run_bind.
    match goal with
    | |- context [handleScroll doc v ?s1] =>
        destruct (handleScroll_effect doc v s1) as (H1 & H2 & H3 & H4 & H5 & _);
        destruct (handleScroll doc v s1) as [[[]|] s2];
        simpl in *; [|discriminate]
    end.
    rewrite H2, H3, H5, H4. simpl.
    split; [reflexivity|]. split; [reflexivity|]. split; [reflexivity|].
    right. auto.
  - destruct (ticking (scroll s)); lia.
Qed.

Lemma onFrame_throttle doc v s :
  throttle_ok s -> throttle_ok (exec (onFrame doc v) s).
Proof.
  intros H. destruct (onFrame_cases doc v s H) as (_ & _ & H0 & _).
  unfold throttle_ok. rewrite H0. lia.
Qed.

Lemma onFrame_dispatch_rel doc v s :
  throttle_ok s -> dispatch_rel s (exec (onFrame doc v) s).
Proof.
  intros H. destruct (onFrame_cases doc v s H) as (Ha & _ & _ & [Ht | (Ht & _)]).
  - split; [exact Ha|]. intros d e. rewrite Ht. reflexivity.
  - split; [exact Ha|]. intros d e. rewrite Ht, invocations_snoc.
    destruct d; simpl; lia.
Qed.

Lemma onFrame_recomputations doc v s :
  throttle_ok s ->
  (recomputations (trace (exec (onFrame doc v) s))
   <= recomputations (trace s) + 1)%nat.
Proof.
  intros H. destruct (onFrame_cases doc v s H) as (_ & _ & _ & [Ht | (Ht & _)]);
    rewrite Ht; [lia|]. rewrite recomputations_snoc. simpl. lia.
Qed.

Section Generic.

Variable doc : document.
Variable animateElement : elem -> M unit.
Variable animateStaggerChildren : elem -> M unit.
Hypothesis animateElement_quiet : forall e, quiet (animateElement e).
Hypothesis animateStaggerChildren_quiet :
  forall e, quiet (animateStaggerChildren e).

Lemma handleIntersection_scroll_rel entries :
  respects scroll_rel (handleIntersection animateElement entries).
Proof.
  apply respects_forEach; [apply _|]. intros en.
  apply respects_bind; [apply _ | apply respects_read, _ |]. intros s.
  apply respects_if; [|apply respects_ret, _].
  apply respects_bind; [apply _ | |].
  { apply respects_modify. intros s0. split; reflexivity. }
  intros _. apply respects_bind; [apply _ | |].
  { apply respects_modify. intros s0. split; [reflexivity|].
    simpl. rewrite recomputations_snoc. simpl. lia. }
  intros _. eapply respects_weaken;
    [apply quiet_scroll_rel | apply animateElement_quiet].
Qed.

Lemma staggerCallback_scroll_rel entries :
  respects scroll_rel (staggerCallback animateStaggerChildren entries).
Proof.
  apply respects_forEach; [apply _|]. intros en.
  apply respects_bind; [apply _ | apply respects_read, _ |]. intros s.
  apply respects_if; [|apply respects_ret, _].
  apply respects_bind; [apply _ | |].
  { apply respects_modify. intros s0. split; reflexivity. }
  intros _. apply respects_bind; [apply _ | |].
  { apply respects_modify. intros s0. split; [reflexivity|].
    simpl. rewrite recomputations_snoc. simpl. lia. }
  intros _. eapply respects_weaken;
    [apply quiet_scroll_rel | apply animateStaggerChildren_quiet].
Qed.

Lemma step_sound s ev :
  sound s -> sound (step doc animateElement animateStaggerChildren s ev).
Proof.
  intros [Hb Ht]. unfold step. destruct ev as [entries | entries | | v]; simpl.
  - split.
    + exact (handleIntersection_keeps_bound _ _ animateElement_quiet
               animateStaggerChildren_quiet entries s Hb).
    + eapply scroll_rel_keeps_throttle;
        [apply handleIntersection_scroll_rel | exact Ht].
  - split.
    + exact (staggerCallback_keeps_bound _ _ animateElement_quiet
               animateStaggerChildren_quiet entries s Hb).
    + eapply scroll_rel_keeps_throttle;
        [apply staggerCallback_scroll_rel | exact Ht].
  - split; [|apply onScroll_throttle, Ht].
    intros e. unfold dispatched. rewrite onScroll_trace, onScroll_seen.
    apply Hb.
  - split; [|apply onFrame_throttle, Ht].
    eapply dispatch_rel_keeps_bound; [apply onFrame_dispatch_rel, Ht | exact Hb].
Qed.

Lemma run_sound evs s :
  sound s -> sound (Controller.run doc animateElement animateStaggerChildren evs s).
Proof.
  revert s. induction evs as [|ev evs IH]; intros s H; simpl; [exact H|].
  apply IH, step_sound, H.
Qed.

Lemma run_app evs1 evs2 s :
  Controller.run doc animateElement animateStaggerChildren (evs1 ++ evs2) s =
  Controller.run doc animateElement animateStaggerChildren evs2
    (Controller.run doc animateElement animateStaggerChildren evs1 s).
Proof. apply fold_left_app. Qed.

(** A burst of scroll events adds no recomputation and keeps what the
    next frame will run. *)
Lemma burst_trace n s :
  trace (Controller.run doc animateElement animateStaggerChildren
           (repeat ScrollEvent n) s) = trace s.
Proof.
  revert s. induction n as [|n IH]; intros s; simpl; [reflexivity|].
  rewrite IH. apply onScroll_trace.
Qed.

Lemma burst_then_frame n v s :
  sound s ->
  (recomputations
     (trace (Controller.run doc animateElement animateStaggerChildren
               (repeat ScrollEvent n ++ [AnimationFrame v]) s))
   <= recomputations (trace s) + 1)%nat.
Proof.
  intros H. rewrite run_app. simpl. unfold step at 1. simpl.
  etransitivity; [apply onFrame_recomputations, run_sound, H|].
  rewrite burst_trace. lia.
Qed.

(** The setup keeps both invariants. *)
Lemma setupParallax_sound s : sound s -> sound (exec (setupParallax doc) s).
Proof.
  intros [Hb Ht]. unfold setupParallax.
  destruct (_ =? _)%nat; [split; assumption|]. split.
  - exact Hb.
  - unfold throttle_ok in *. simpl. lia.
Qed.

Lemma setupStaggerObservers_quiet : quiet (setupStaggerObservers doc).
Proof. apply quiet_forEach. intros c. apply quiet_observe. Qed.

End Generic.

Lemma quiet_sound s s' : quiet_rel s s' -> sound s -> sound s'.
Proof.
  intros H [Hb Ht]. split.
  - eapply quiet_keeps_seen_bound; eauto.
  - eapply quiet_keeps_throttle; eauto.
Qed.

Lemma initial_sound : sound initial.
Proof.
  split.
  - intros e. unfold dispatched, invocations. simpl.
    destruct (bool_decide _); lia.
  - unfold throttle_ok. simpl. lia.
Qed.

End ThrottleLemmas.

Module RunLemmas.
Import JS Page Controller Facts MonadLemmas ControllerLemmas DispatchLemmas.
Import ThrottleLemmas RevisionLemmas.

Lemma respects_keeps_quiet {A} (m : M A) :
  quiet m -> respects (keeps sound) m.
Proof. intros H s Hs. eapply quiet_sound; [apply H | exact Hs]. Qed.

Lemma setupParallax_keeps doc : respects (keeps sound) (setupParallax doc).
Proof. intros s Hs. apply setupParallax_sound, Hs. Qed.

Lemma full_ready_sound doc : sound (MotionFull.ready doc).
Proof.
  unfold MotionFull.ready, MotionFull.setupObservers.
  apply (respects_bind (keeps sound)); [| |apply initial_sound].
  - apply respects_keeps_quiet, quiet_forEach. intros el.
    apply quiet_bind; [apply quiet_style_opacity | intros _; apply quiet_observe].
  - intros _. apply (respects_bind (keeps sound));
      [apply setupParallax_keeps |].
    intros _. apply respects_keeps_quiet, setupStaggerObservers_quiet.
Qed.

Lemma minimal_ready_sound doc : sound (MotionMinimal.ready doc).
Proof.
  unfold MotionMinimal.ready, MotionMinimal.setupObservers.
  apply (respects_bind (keeps sound)); [| |apply initial_sound].
  - apply respects_keeps_quiet, quiet_forEach. intros el. apply quiet_observe.
  - intros _. apply (respects_bind (keeps sound));
      [apply setupParallax_keeps |].
    intros _. apply respects_keeps_quiet, setupStaggerObservers_quiet.
Qed.

Lemma anime_ready_sound doc : sound (AnimeJs.ready doc).
Proof.
  unfold AnimeJs.ready, AnimeJs.setupObservers.
  apply (respects_bind (keeps sound)); [| |apply initial_sound].
  - apply respects_keeps_quiet, quiet_forEach. intros el.
    apply quiet_bind; [apply quiet_style_opacity | intros _; apply quiet_observe].
  - intros _. apply (respects_bind (keeps sound));
      [apply setupParallax_keeps |].
    intros _. apply respects_keeps_quiet, setupStaggerObservers_quiet.
Qed.

Lemma full_run_sound throws doc evs : sound (MotionFull.run throws doc evs).
Proof.
  apply run_sound;
    [intros e; apply full_animateElement_quiet
    |intros e; apply full_animateStaggerChildren_quiet
    |apply full_ready_sound].
Qed.

Lemma minimal_run_sound throws doc evs :
  sound (MotionMinimal.run throws doc evs).
Proof.
  apply run_sound;
    [intros e; apply minimal_animateElement_quiet
    |intros e; apply minimal_animateStaggerChildren_quiet
    |apply minimal_ready_sound].
Qed.

Lemma anime_run_sound throws doc evs : sound (AnimeJs.run throws doc evs).
Proof.
  apply run_sound;
    [intros e; apply anime_animateElement_quiet
    |intros e; apply anime_animateStaggerChildren_quiet
    |apply anime_ready_sound].
Qed.

Lemma sound_dispatched s e : sound s -> (dispatched s e <= 1)%nat.
Proof.
  intros [H _]. specialize (H e). destruct (bool_decide _); lia.
Qed.

Lemma sound_outstanding s : sound s -> (frameRequests (scroll s) <= 1)%nat.
Proof.
  intros [_ H]. unfold throttle_ok in H. destruct (ticking _); lia.
Qed.

(** Two scroll events in a row do what one does. *)
Lemma onScroll_twice s : exec onScroll (exec onScroll s) = exec onScroll s.
Proof.
  unfold exec, onScroll, mbind, M_bind, bind, read, modify, mret, M_ret, ret.
  simpl.
  destruct (listening (scroll s)) eqn:L, (ticking (scroll s)) eqn:E;
    simpl; rewrite ?L, ?E; reflexivity.
Qed.

Lemma burst_is_one_scroll doc animateElement animateStaggerChildren n s :
  Controller.run doc animateElement animateStaggerChildren
    (repeat ScrollEvent (S n)) s
  = step doc animateElement animateStaggerChildren s ScrollEvent.
Proof.
  unfold Controller.run. revert s.
  induction n as [|n IH]; intros s; [reflexivity|].
  change (repeat ScrollEvent (S (S n)))
    with (ScrollEvent :: repeat ScrollEvent (S n)).
  rewrite (fold_left_app _ [ScrollEvent] (repeat ScrollEvent (S n)) s
           : fold_left _ (ScrollEvent :: repeat ScrollEvent (S n)) s = _).
  rewrite IH. unfold step; simpl. apply onScroll_twice.
Qed.

End RunLemmas.

Module BatchLemmas.
Import JS Page Controller Facts MonadLemmas ControllerLemmas.

#[export] Instance grows_preorder : PreOrder grows.
Proof.
  split; [intros s; unfold grows; set_solver|].
  intros s1 s2 s3; unfold grows; set_solver.
Qed.

Lemma all_marked_grows entries s s' :
  grows s s' -> all_marked entries s = true -> all_marked entries s' = true.
Proof.
  unfold all_marked, grows. intros Hg. rewrite !forallb_forall.
  intros H en Hin. specialize (H en Hin).
  destruct (isIntersecting en); simpl in *; [|reflexivity].
  apply bool_decide_eq_true_1 in H. apply bool_decide_eq_true_2. set_solver.
Qed.

Section Generic.

Variable animateElement : elem -> M unit.
Variable ok : elem -> bool.
Hypothesis animateElement_quiet : forall e, quiet (animateElement e).
Hypothesis animateElement_returns :
  forall e s, ok e = true -> fst (animateElement e s) = Returned tt.

(** One entry, when the dispatcher returns: the callback returns, the
    seen set has grown, and the entry is marked if it intersects. *)
Lemma one_entry en s :
  ok (entryTarget en) = true ->
  let r := handleIntersection animateElement [en] s in
  fst r = Returned tt
  /\ grows s (snd r)
  /\ all_marked [en] (snd r) = true.
Proof.
  intros Hok.
  unfold handleIntersection, all_marked, grows, forEach, mbind, M_bind, bind,
    read, modify, record, mret, M_ret, ret; simpl.
  destruct (isIntersecting en) eqn:Ei; simpl.
  - destruct (bool_decide (entryTarget en ∈ animatedElements s)) eqn:Es;
      simpl.
    + rewrite Es. split; [reflexivity|]. split; [set_solver | reflexivity].
    + match goal with
      | |- context [animateElement _ ?x] => set (s2 := x)
      end.
      pose proof (animateElement_returns (entryTarget en) s2 Hok) as Hr.
      pose proof (animateElement_quiet (entryTarget en) s2) as (Ha & _).
      unfold exec in Ha.
      destruct (animateElement (entryTarget en) s2) as [[[]|] s3];
        simpl in *; [|discriminate].
      rewrite Ha. subst s2; simpl.
      split; [reflexivity|]. split; [apply union_subseteq_l|].
      rewrite bool_decide_eq_true_2; [reflexivity|].
      apply elem_of_union_r, elem_of_singleton. reflexivity.
  - split; [reflexivity|]. split; [set_solver | reflexivity].
Qed.

Lemma whole_batch entries s :
  forallb (fun en => ok (entryTarget en)) entries = true ->
  let r := handleIntersection animateElement entries s in
  fst r = Returned tt
  /\ grows s (snd r)
  /\ all_marked entries (snd r) = true.
Proof.
  revert s. induction entries as [|en entries IH]; intros s Hok.
  - simpl. split; [reflexivity|]. split; [reflexivity | reflexivity].
  - cbn [forallb] in Hok. apply andb_true_iff in Hok as [Hen Hrest].
    change (en :: entries) with ([en] ++ entries).
    unfold handleIntersection in *. rewrite forEach_app.
    destruct (one_entry en s Hen) as (Hr & Hg & Hm).
    unfold handleIntersection in *.
    destruct (forEach _ [en] s) as [[[]|] s1]; simpl in *; [|discriminate].
    destruct (IH s1 Hrest) as (Hr' & Hg' & Hm').
    split; [exact Hr'|]. split; [etransitivity; eassumption|].
    unfold all_marked in *. simpl. rewrite Hm'.
    rewrite andb_true_r in Hm.
    rewrite andb_true_r. eapply (all_marked_grows [en]) in Hg'.
    + unfold all_marked in Hg'. simpl in Hg'. rewrite andb_true_r in Hg'.
      exact Hg'.
    + unfold all_marked. simpl. rewrite andb_true_r. exact Hm.
Qed.

End Generic.

Section Marking.

Variable animateElement : elem -> M unit.
Hypothesis animateElement_quiet : forall e, quiet (animateElement e).

(** The target is marked before the dispatcher is called: an intersecting
    entry is in the seen set after its turn, whether the call throws or
    not. *)
Lemma one_entry_marked en s :
  all_marked [en] (exec (handleIntersection animateElement [en]) s) = true.
Proof.
  unfold exec, handleIntersection, all_marked, forEach, mbind, M_bind, bind,
    read, modify, record, mret, M_ret, ret; simpl.
  destruct (isIntersecting en) eqn:Ei; simpl; [|reflexivity].
  destruct (bool_decide (entryTarget en ∈ animatedElements s)) eqn:Es; simpl.
  - rewrite Es. reflexivity.
  - match goal with
    | |- context [animateElement _ ?x] => set (s2 := x)
    end.
    pose proof (animateElement_quiet (entryTarget en) s2) as (Ha & _).
    unfold exec in Ha.
    destruct (animateElement (entryTarget en) s2) as [[[]|] s3];
      simpl in *; rewrite Ha; subst s2; simpl;
      (rewrite bool_decide_eq_true_2; [reflexivity|]);
      apply elem_of_union_r, elem_of_singleton; reflexivity.
Qed.

(** The dispatcher throws on an entry: the callback ends there, in the
    state the dispatcher left. *)
Lemma failing_entry before en after s s1 :
  handleIntersection animateElement before s = (Returned tt, s1) ->
  isIntersecting en = true ->
  entryTarget en ∉ animatedElements s1 ->
  fst (animateElement (entryTarget en)
         (marked AnimateElement (entryTarget en) s1)) = Threw ->
  let final := snd (animateElement (entryTarget en)
                      (marked AnimateElement (entryTarget en) s1)) in
  handleIntersection animateElement (before ++ en :: after) s
  = (Threw, final)
  /\ animatedElements final = animatedElements s1 ∪ {[entryTarget en]}
  /\ forall x, x <> entryTarget en ->
               invocations AnimateElement x (trace final)
               = invocations AnimateElement x (trace s1).
Proof.
  intros Hb Hi Hs Ht final.
  pose proof (animateElement_quiet (entryTarget en)
                (marked AnimateElement (entryTarget en) s1))
    as (Ha & _ & Hc & _).
  unfold exec in Ha, Hc. fold final in Ha, Hc.
  split; [|split].
  - unfold handleIntersection in *. rewrite forEach_app, Hb.
    cbn [forEach]. rewrite !run_bind. cbn [read].
    rewrite Hi, (bool_decide_eq_false_2 _ Hs). cbn [andb negb].
    rewrite !run_bind. cbn [modify]. rewrite !run_bind. cbn [record modify].
    change (set_trace _ (set_animatedElements _ s1))
      with (marked AnimateElement (entryTarget en) s1).
    subst final.
    destruct (animateElement (entryTarget en)
                (marked AnimateElement (entryTarget en) s1)) as [[[]|] s2];
      simpl in *; [discriminate | reflexivity].
  - rewrite Ha. reflexivity.
  - intros x Hx. rewrite Hc. unfold marked. cbn [trace set_trace].
    rewrite invocations_snoc. cbn [is_enter set_animatedElements trace].
    destruct (Nat.eqb_spec (entryTarget en) x) as [E | E];
      [congruence | lia].
Qed.

End Marking.

(** With a library that never throws, the dispatchers return. *)
Lemma invoke_returns throws f s :
  throws f = false -> fst (invoke throws f s) = Returned tt.
Proof.
  intros H. unfold invoke. rewrite run_bind; simpl. rewrite H. reflexivity.
Qed.

Lemma get_inherited_name {A} (table : list (string * A)) key name :
  get table key = Inherited name -> name = key.
Proof.
  unfold get. destruct (assoc table key); [discriminate|].
  destruct (existsb _ _); congruence.
Qed.

Lemma call_inherited_returns name s :
  inherited_call_throws name = false ->
  fst (call_inherited name s) = Returned tt.
Proof.
  intros H. unfold call_inherited. rewrite run_bind; simpl. rewrite H.
  reflexivity.
Qed.

Lemma full_animateElement_returns throws doc e s :
  (forall f, throws f = false) ->
  inherited_call_throws (MotionFull.resolve_kind doc e) = false ->
  fst (MotionFull.animateElement throws doc e s) = Returned tt.
Proof.
  intros H Hk. unfold MotionFull.animateElement.
  destruct (get _ _) as [v | name |] eqn:E;
    [apply invoke_returns, H | | reflexivity].
  apply get_inherited_name in E. subst name.
  apply call_inherited_returns, Hk.
Qed.

Lemma minimal_animateElement_returns throws doc e s :
  (forall f, throws f = false) ->
  inherited_call_throws (MotionMinimal.resolve_kind doc e) = false ->
  fst (MotionMinimal.animateElement throws doc e s) = Returned tt.
Proof.
  intros H Hk. unfold MotionMinimal.animateElement.
  destruct (get _ _) as [v | name |] eqn:E;
    [apply invoke_returns, H | | reflexivity].
  apply get_inherited_name in E. subst name.
  apply call_inherited_returns, Hk.
Qed.

Lemma anime_animateElement_returns throws doc e s :
  (forall f, throws f = false) ->
  fst (AnimeJs.animateElement throws doc e s) = Returned tt.
Proof.
  intros H. unfold AnimeJs.animateElement.
  destruct (get _ _); [apply invoke_returns, H .. | reflexivity].
Qed.

(** A batch in two parts: a throw in the first part ends the callback. *)
Lemma batch_split animateElement before after s :
  handleIntersection animateElement (before ++ after) s =
  match handleIntersection animateElement before s with
  | (Returned _, s') => handleIntersection animateElement after s'
  | (Threw, s') => (Threw, s')
  end.
Proof. apply forEach_app. Qed.

End BatchLemmas.

Module HiddenLemmas.
Import JS Page Controller Facts MonadLemmas ControllerLemmas.
Import DispatchLemmas ThrottleLemmas.

Lemma hide_keeps e x : respects (keeps (hidden e)) (style_opacity x "0").
Proof.
  intros s H. unfold hidden, exec, style_opacity, modify in *; simpl.
  destruct (decide (x = e)) as [->|Hne].
  - apply lookup_insert_eq.
  - rewrite lookup_insert_ne by assumption. exact H.
Qed.

Lemma same_opacity_keeps {A} e (m : M A) :
  (forall s, opacity (exec m s) = opacity s) -> respects (keeps (hidden e)) m.
Proof. intros H s Hs. unfold hidden. rewrite H. exact Hs. Qed.

Lemma invoke_opacity throws f s :
  opacity (exec (invoke throws f) s) = opacity s.
Proof.
  unfold invoke. rewrite exec_bind; simpl. destruct (throws f); reflexivity.
Qed.

Lemma anime_animateElement_keeps throws doc e x :
  respects (keeps (hidden e)) (AnimeJs.animateElement throws doc x).
Proof.
  unfold AnimeJs.animateElement.
  destruct (get _ _);
    [apply same_opacity_keeps, invoke_opacity ..
    |apply respects_ret, _].
Qed.

Lemma anime_animateStaggerChildren_keeps throws doc e x :
  respects (keeps (hidden e)) (AnimeJs.animateStaggerChildren throws doc x).
Proof.
  unfold AnimeJs.animateStaggerChildren.
  apply respects_bind; [apply _ | |].
  - apply respects_forEach; [apply _|]. intros c. apply hide_keeps.
  - intros _. apply same_opacity_keeps, invoke_opacity.
Qed.

Lemma mark_keeps e (d : dispatcher) (run : elem -> M unit) en s :
  (forall x, respects (keeps (hidden e)) (run x)) ->
  respects (keeps (hidden e))
    (if isIntersecting en
        && negb (bool_decide (entryTarget en ∈ animatedElements s))
     then
       modify (set_animatedElements (fun seen => seen ∪ {[entryTarget en]})) ;;
       record (Enter d (entryTarget en)) ;;
       run (entryTarget en)
     else mret tt).
Proof.
  intros Hrun. apply respects_if; [|apply respects_ret, _].
  apply respects_bind; [apply _ | |].
  { apply same_opacity_keeps. reflexivity. }
  intros _. apply respects_bind; [apply _ | |].
  { apply same_opacity_keeps. reflexivity. }
  intros _. apply Hrun.
Qed.

Lemma anime_step_keeps throws doc e ev :
  respects (keeps (hidden e))
    (handle doc (AnimeJs.animateElement throws doc)
            (AnimeJs.animateStaggerChildren throws doc) ev).
Proof.
  destruct ev as [entries | entries | | v]; simpl.
  - apply respects_forEach; [apply _|]. intros en.
    apply respects_bind; [apply _ | apply respects_read, _ |]. intros s.
    apply (mark_keeps e AnimateElement). apply anime_animateElement_keeps.
  - apply respects_forEach; [apply _|]. intros en.
    apply respects_bind; [apply _ | apply respects_read, _ |]. intros s.
    apply (mark_keeps e AnimateStaggerChildren).
    apply anime_animateStaggerChildren_keeps.
  - apply same_opacity_keeps. intros s. unfold onScroll.
    rewrite exec_bind; simpl.
    destruct (listening _); [|reflexivity]. destruct (ticking _); reflexivity.
  - apply respects_bind; [apply _ | apply respects_read, _ |]. intros s.
    apply respects_bind; [apply _ | |].
    { apply same_opacity_keeps. reflexivity. }
    intros _. apply respects_forEach; [apply _|]. intros _.
    apply respects_bind; [apply _ | |]; [|intros _];
      apply same_opacity_keeps; [|reflexivity].
    intros s0. apply (handleScroll_effect doc v s0).
Qed.

Lemma anime_run_keeps throws doc e evs s :
  hidden e s ->
  hidden e (Controller.run doc (AnimeJs.animateElement throws doc)
              (AnimeJs.animateStaggerChildren throws doc) evs s).
Proof.
  revert s. induction evs as [|ev evs IH]; intros s H; simpl; [exact H|].
  apply IH. apply (anime_step_keeps throws doc e ev s H).
Qed.

(** After [m], whatever holds of its final state and is kept by the
    continuation holds after [m ≫= k]. *)
Lemma exec_bind_keeps {A B} (P : state -> Prop) (m : M A) (k : A -> M B) s :
  P (exec m s) -> (forall a, respects (keeps P) (k a)) -> P (exec (m ≫= k) s).
Proof.
  intros Hm Hk. rewrite exec_bind. unfold exec in Hm.
  destruct (m s) as [[a|] s']; simpl in Hm; [apply Hk, Hm | exact Hm].
Qed.

(** A setup loop that hides and observes each element of a list leaves
    each of them hidden. *)
Lemma hide_all e o l s :
  In e l ->
  hidden e
    (exec (forEach (fun el => style_opacity el "0" ;; observe o el) l) s).
Proof.
  set (body := fun el => style_opacity el "0" ;; observe o el).
  assert (forall x, respects (keeps (hidden e)) (body x)) as Hk.
  { intros x. apply respects_bind; [apply _ | apply hide_keeps |].
    intros _. apply same_opacity_keeps. reflexivity. }
  revert s. induction l as [|x l IH]; intros s Hin; [destruct Hin|].
  simpl. destruct (decide (x = e)) as [->|Hne].
  - apply exec_bind_keeps.
    + unfold hidden, exec. simpl. apply lookup_insert_eq.
    + intros _. apply respects_forEach; [apply _ | exact Hk].
  - rewrite (exec_bind_returns _ _ s tt) by reflexivity.
    apply IH. destruct Hin; [contradiction | assumption].
Qed.

Lemma anime_stays_hidden throws doc evs e :
  In e (querySelectorAll doc "animate") ->
  opacity (AnimeJs.run throws doc evs) !! e = Some "0"%string.
Proof.
  intros Hin. change (hidden e (AnimeJs.run throws doc evs)).
  unfold AnimeJs.run. apply anime_run_keeps.
  unfold AnimeJs.ready, AnimeJs.setupObservers.
  apply exec_bind_keeps; [apply hide_all, Hin|].
  intros _. apply respects_bind; [apply _ | |].
  - apply same_opacity_keeps. intros s. unfold setupParallax.
    destruct (_ =? _)%nat; reflexivity.
  - intros _. apply respects_forEach; [apply _|]. intros c.
    apply same_opacity_keeps. reflexivity.
Qed.

End HiddenLemmas.

Module TimingLemmas.
Import JS Page Controller Facts MonadLemmas ControllerLemmas.

(** The delay of the item at index [i] under [stagger(ms / 1000)] is
    [i * ms] milliseconds, in seconds. *)
Lemma stagger_delay_seconds (ms : number) (i : nat) :
  num_eq (delay_at (Stagger (seconds ms)) i)
         (seconds (mul (ofZ (Z.of_nat i)) ms)).
Proof.
  unfold delay_at, seconds. destruct ms as [| sg | q]; simpl.
  - exact I.
  - unfold Qis_zero; simpl. destruct (Z.of_nat i =? 0)%Z; simpl; [exact I|].
    destruct sg, (Qsign_neg (inject_Z (Z.of_nat i))); reflexivity.
  - unfold Qdiv. ring.
Qed.

Lemma stagger_delay_millis (ms : number) (i : nat) :
  num_eq (delay_at (Stagger ms) i) (mul (ofZ (Z.of_nat i)) ms).
Proof.
  unfold delay_at. destruct (mul _ _) as [| sg | q]; simpl;
    [exact I | reflexivity | reflexivity].
Qed.

(** The code's resolution of a numeric attribute agrees with the
    declaration. *)
Lemma parse_or_default_100 attr :
  parseInt (or_default attr "100") = declared attr 100.
Proof. destruct attr as [[|c v]|]; reflexivity. Qed.

Lemma parse_or_default_800 attr :
  parseInt (or_default attr "800") = declared attr 800.
Proof. destruct attr as [[|c v]|]; reflexivity. Qed.

Lemma parse_or_default_0 attr :
  parseInt (or_default attr "0") = declared attr 0.
Proof. destruct attr as [[|c v]|]; reflexivity. Qed.

Lemma kind_or_default attr : or_default attr "fade-up" = declared_kind attr.
Proof. destruct attr as [[|c v]|]; reflexivity. Qed.

(** Hiding the children returns and leaves the trace alone. *)
Lemma hide_children_returns v l s :
  fst (forEach (fun child => style_opacity child v) l s) = Returned tt
  /\ trace (snd (forEach (fun child => style_opacity child v) l s)) = trace s.
Proof.
  revert s. induction l as [|x l IH]; intros s; simpl; [split; reflexivity|].
  rewrite run_bind; simpl.
  destruct (IH (set_opacity (insert x v) s)) as [H1 H2].
  split; [exact H1 | exact H2].
Qed.

Lemma invoke_trace throws f s :
  trace (exec (invoke throws f) s) = trace s ++ [f].
Proof.
  unfold invoke. rewrite exec_bind; simpl. destruct (throws f); reflexivity.
Qed.

End TimingLemmas.

Module FormatLemmas.
Import JS Format.









Local Open Scope Q_scope.



Lemma Qabs_scale (p t : Q) (b : Q) :
  0 <= p -> p <= 1 -> Qabs t < b -> Qabs (p * t) < b.
Proof.
  intros H0 H1 Ht. rewrite Qabs_Qmult.
  rewrite (Qabs_pos p) by assumption.
  apply Qle_lt_trans with (1 * Qabs t); [|rewrite Qmult_1_l; exact Ht].
  apply Qmult_le_compat_r; [exact H1 | apply Qabs_nonneg].
Qed.


End FormatLemmas.

Module TextLemmas.
Import JS Page Controller Ancillary Facts MonadLemmas ControllerLemmas.
Import DispatchLemmas HiddenLemmas.

#[export] Instance text_rel_preorder : PreOrder text_rel.
Proof.
  split.
  - intros s. split; reflexivity.
  - intros s1 s2 s3 [Ha Hb] [Ha' Hb']. split; congruence.
Qed.






Section Generic.

Variable doc : document.
Variable animate_chars : list target -> M unit.
Variable animate_words : list target -> M unit.
Hypothesis animate_chars_rel : forall ts, respects text_rel (animate_chars ts).
Hypothesis animate_words_rel : forall ts, respects text_rel (animate_words ts).


Abbreviation step := (text_step doc animate_chars animate_words).
Abbreviation run := (text_run doc animate_chars animate_words).







End Generic.



End TextLemmas.

Module OptionLemmas.
Import JS Page Controller Facts Invariants MonadLemmas TimingLemmas.

Ltac one_of_the_kinds L :=
  unfold listed, entrance_kinds in L; cbn [existsb] in L;
  repeat (apply orb_true_iff in L as [L | L];
          [apply String.eqb_eq in L |]);
  [.. | discriminate L].

(** A listed kind: the call the full Motion One dispatcher makes. *)
Lemma full_hands throws doc e s :
  listed entrance_kinds (MotionFull.resolve_kind doc e) = true ->
  hands s (exec (MotionFull.animateElement throws doc e) s) e
    (MotionFull.resolve_delay doc e)
    (preset_duration (MotionFull.resolve_kind doc e)
       (MotionFull.resolve_duration doc e)).
Proof.
  intros L. unfold MotionFull.animateElement, hands.
  one_of_the_kinds L; rewrite L;
    cbn -[MotionFull.resolve_delay MotionFull.resolve_duration invoke exec];
    rewrite invoke_trace; eexists; repeat split.
Qed.

(** A listed kind: the call the minimal dispatcher makes. *)
Lemma minimal_hands throws doc e s :
  listed entrance_kinds (MotionMinimal.resolve_kind doc e) = true ->
  hands s (exec (MotionMinimal.animateElement throws doc e) s) e
    (MotionMinimal.resolve_delay doc e) (Finite (3 # 10)).
Proof.
  intros L. unfold MotionMinimal.animateElement, hands.
  one_of_the_kinds L; rewrite L;
    cbn -[MotionMinimal.resolve_delay invoke exec];
    rewrite invoke_trace; eexists; repeat split.
Qed.

End OptionLemmas.

Module CounterFormatLemmas.
Import JS Page Controller Ancillary Facts Invariants Examples.
Import FormatLemmas MonadLemmas.
Local Open Scope Z_scope.




Section Counter.
Variable throws : effect -> bool.
Variable doc : document.
Variable counter_duration : elem -> number.




End Counter.
End CounterFormatLemmas.

(* ===================================================================== *)
(** * The specification, claim by claim *)
(* ===================================================================== *)

Import JS Page Controller Ancillary Facts Examples.
Local Open Scope nat_scope.

(** C1.  In each revision, over any sequence of callbacks (entrance and
    stagger batches, scroll events, frames) and whatever the animation
    library does, [animateElement] is called at most once on any element:
    [handleIntersection] skips a target that is already in the seen set,
    so leaving and re-entering the viewport never dispatches it again. *)
Theorem entrance_fires_at_most_once
  (throws : effect -> bool) (doc : document) (evs : list event) (e : elem) :
  (invocations AnimateElement e (trace (MotionFull.run throws doc evs)) <= 1
   /\ invocations AnimateElement e (trace (MotionMinimal.run throws doc evs)) <= 1
   /\ invocations AnimateElement e (trace (AnimeJs.run throws doc evs)) <= 1)%nat.
Proof.
  pose proof (RunLemmas.sound_dispatched _ e
                (RunLemmas.full_run_sound throws doc evs)) as H1.
  pose proof (RunLemmas.sound_dispatched _ e
                (RunLemmas.minimal_run_sound throws doc evs)) as H2.
  pose proof (RunLemmas.sound_dispatched _ e
                (RunLemmas.anime_run_sound throws doc evs)) as H3.
  unfold dispatched in *. lia.
Qed.

(** C7.  In each revision, at every point of every run: at most one frame
    callback of the parallax listener is outstanding; a burst of scroll
    events does what its first event does, the others are dropped; and a
    burst followed by a rendered frame runs at most one recomputation. *)
Theorem parallax_one_recomputation_per_frame
  (throws : effect -> bool) (doc : document) (evs : list event) (n : nat)
  (v : viewport) :
  let full := MotionFull.run throws doc in
  let minimal := MotionMinimal.run throws doc in
  let anime := AnimeJs.run throws doc in
  ((frameRequests (scroll (full evs)) <= 1
    /\ full (evs ++ repeat ScrollEvent (S n)) = full (evs ++ [ScrollEvent])
    /\ recomputations
         (trace (full (evs ++ repeat ScrollEvent n ++ [AnimationFrame v])))
       <= recomputations (trace (full evs)) + 1)
   /\ (frameRequests (scroll (minimal evs)) <= 1
    /\ minimal (evs ++ repeat ScrollEvent (S n)) = minimal (evs ++ [ScrollEvent])
    /\ recomputations
         (trace (minimal (evs ++ repeat ScrollEvent n ++ [AnimationFrame v])))
       <= recomputations (trace (minimal evs)) + 1)
   /\ (frameRequests (scroll (anime evs)) <= 1
    /\ anime (evs ++ repeat ScrollEvent (S n)) = anime (evs ++ [ScrollEvent])
    /\ recomputations
         (trace (anime (evs ++ repeat ScrollEvent n ++ [AnimationFrame v])))
       <= recomputations (trace (anime evs)) + 1))%nat.
Proof.
  intros full minimal anime. subst full minimal anime.
  unfold MotionFull.run, MotionMinimal.run, AnimeJs.run.
  rewrite !(ThrottleLemmas.run_app _ _ _ evs), !RunLemmas.burst_is_one_scroll.
  repeat split; try reflexivity.
  - apply RunLemmas.sound_outstanding, RunLemmas.full_run_sound.
  - apply ThrottleLemmas.burst_then_frame;
      [intros x; apply RevisionLemmas.full_animateElement_quiet
      |intros x; apply RevisionLemmas.full_animateStaggerChildren_quiet
      |apply (RunLemmas.full_run_sound throws doc evs)].
  - apply RunLemmas.sound_outstanding, RunLemmas.minimal_run_sound.
  - apply ThrottleLemmas.burst_then_frame;
      [intros x; apply RevisionLemmas.minimal_animateElement_quiet
      |intros x; apply RevisionLemmas.minimal_animateStaggerChildren_quiet
      |apply (RunLemmas.minimal_run_sound throws doc evs)].
  - apply RunLemmas.sound_outstanding, RunLemmas.anime_run_sound.
  - apply ThrottleLemmas.burst_then_frame;
      [intros x; apply RevisionLemmas.anime_animateElement_quiet
      |intros x; apply RevisionLemmas.anime_animateStaggerChildren_quiet
      |apply (RunLemmas.anime_run_sound throws doc evs)].
Qed.

(** C8, as stated, fails.  On a page whose element 1 carries both
    [data-animate] and [data-stagger], both observers watch it; revealed to
    the stagger trigger alone it is dispatched, but once the entrance
    trigger has marked it the stagger trigger skips it. *)
Lemma seen_set_is_shared_counterexample :
  In 1%nat (querySelectorAll page_both "animate")
  /\ In 1%nat (querySelectorAll page_both "stagger")
  /\ invocations AnimateStaggerChildren 1
       (trace (MotionFull.run reliable page_both
                 [StaggerIntersection [visible 1]])) = 1%nat
  /\ invocations AnimateStaggerChildren 1
       (trace (MotionFull.run reliable page_both
                 [Intersection [visible 1];
                  StaggerIntersection [visible 1]])) = 0%nat.
Proof. vm_compute. repeat split; auto. Qed.

(** C8, amended.  The entrance trigger and the stagger trigger are two
    observers that consult and write the same set [animatedElements]: in
    each revision, over any run, an element is dispatched at most once
    across the two triggers taken together. *)
Theorem triggers_share_one_seen_set
  (throws : effect -> bool) (doc : document) (evs : list event) (e : elem) :
  (invocations AnimateElement e (trace (MotionFull.run throws doc evs))
   + invocations AnimateStaggerChildren e
       (trace (MotionFull.run throws doc evs)) <= 1
   /\ invocations AnimateElement e (trace (MotionMinimal.run throws doc evs))
      + invocations AnimateStaggerChildren e
          (trace (MotionMinimal.run throws doc evs)) <= 1
   /\ invocations AnimateElement e (trace (AnimeJs.run throws doc evs))
      + invocations AnimateStaggerChildren e
          (trace (AnimeJs.run throws doc evs)) <= 1)%nat.
Proof.
  split; [|split].
  - apply (RunLemmas.sound_dispatched _ e), RunLemmas.full_run_sound.
  - apply (RunLemmas.sound_dispatched _ e), RunLemmas.minimal_run_sound.
  - apply (RunLemmas.sound_dispatched _ e), RunLemmas.anime_run_sound.
Qed.

(** C4, as stated, fails.  With a library that throws on the call for
    element 1, the batch [1; 2] ends in the exception: element 2 is neither
    marked seen nor dispatched, while a library that does not throw
    dispatches it. *)
Lemma failure_is_not_isolated_counterexample :
  let crashed :=
    MotionFull.run fails_on_1 page_two [Intersection [visible 1; visible 2]] in
  let fine :=
    MotionFull.run reliable page_two [Intersection [visible 1; visible 2]] in
  fst (handleIntersection (MotionFull.animateElement fails_on_1 page_two)
         [visible 1; visible 2] (MotionFull.ready page_two)) = Threw
  /\ bool_decide (2 ∈ animatedElements crashed) = false
  /\ invocations AnimateElement 2 (trace crashed) = 0
  /\ invocations AnimateElement 2 (trace fine) = 1.
Proof. vm_compute. repeat split. Qed.

(** C4, amended.  In each revision an error thrown by the dispatcher is
    not caught: it leaves [handleIntersection].  When the entries before
    [en] have been handled and the dispatcher throws on [en], the callback
    ends in the exception, in the state the dispatcher left: [en]'s
    target was marked seen before the call and stays so, and the entries
    after [en] are not looked at, so no other element is marked or
    dispatched by that callback.  When the library does not throw and no
    entry's kind names an inherited member whose call raises a TypeError,
    the callback returns and every intersecting entry of the batch is in
    the seen set. *)
Theorem failure_ends_the_batch
  (throws : effect -> bool) (doc : document) (s s1 : state)
  (before after entries : list entry) (en : entry) :
  let e := entryTarget en in
  let ends_batch (dispatch : elem -> M unit) :=
    handleIntersection dispatch before s = (Returned tt, s1) ->
    isIntersecting en = true ->
    e ∉ animatedElements s1 ->
    fst (dispatch e (marked AnimateElement e s1)) = Threw ->
    let final := snd (dispatch e (marked AnimateElement e s1)) in
    handleIntersection dispatch (before ++ en :: after) s = (Threw, final)
    /\ animatedElements final = animatedElements s1 ∪ {[e]}
    /\ forall x, x <> e ->
                 invocations AnimateElement x (trace final)
                 = invocations AnimateElement x (trace s1) in
  let completes (dispatch : elem -> M unit) (calls_well : elem -> bool) :=
    forallb (fun en' => calls_well (entryTarget en')) entries = true ->
    fst (handleIntersection dispatch entries s) = Returned tt
    /\ all_marked entries (snd (handleIntersection dispatch entries s))
       = true in
  (ends_batch (MotionFull.animateElement throws doc)
   /\ ends_batch (MotionMinimal.animateElement throws doc)
   /\ ends_batch (AnimeJs.animateElement throws doc))
  /\ completes (MotionFull.animateElement reliable doc)
       (fun x => negb (inherited_call_throws (MotionFull.resolve_kind doc x)))
  /\ completes (MotionMinimal.animateElement reliable doc)
       (fun x =>
          negb (inherited_call_throws (MotionMinimal.resolve_kind doc x)))
  /\ completes (AnimeJs.animateElement reliable doc) (fun _ => true).
Proof.
  intros e ends_batch completes. subst e ends_batch completes. cbv beta.
  split; [split; [|split] | split; [|split]].
  - intros Hb Hi Hs Ht.
    apply (BatchLemmas.failing_entry _
             (RevisionLemmas.full_animateElement_quiet throws doc)
             before en after s s1 Hb Hi Hs Ht).
  - intros Hb Hi Hs Ht.
    apply (BatchLemmas.failing_entry _
             (RevisionLemmas.minimal_animateElement_quiet throws doc)
             before en after s s1 Hb Hi Hs Ht).
  - intros Hb Hi Hs Ht.
    apply (BatchLemmas.failing_entry _
             (RevisionLemmas.anime_animateElement_quiet throws doc)
             before en after s s1 Hb Hi Hs Ht).
  - intros Hok.
    destruct (BatchLemmas.whole_batch (MotionFull.animateElement reliable doc)
                (fun x =>
                   negb (inherited_call_throws (MotionFull.resolve_kind doc x)))
                (RevisionLemmas.full_animateElement_quiet reliable doc)
                (fun x s0 Hx =>
                   BatchLemmas.full_animateElement_returns reliable doc x s0
                     (fun _ => eq_refl) (proj1 (negb_true_iff _) Hx))
                entries s Hok) as (H1 & _ & H2).
    split; assumption.
  - intros Hok.
    destruct (BatchLemmas.whole_batch
                (MotionMinimal.animateElement reliable doc)
                (fun x =>
                   negb (inherited_call_throws
                           (MotionMinimal.resolve_kind doc x)))
                (RevisionLemmas.minimal_animateElement_quiet reliable doc)
                (fun x s0 Hx =>
                   BatchLemmas.minimal_animateElement_returns reliable doc x
                     s0 (fun _ => eq_refl) (proj1 (negb_true_iff _) Hx))
                entries s Hok) as (H1 & _ & H2).
    split; assumption.
  - intros Hok.
    destruct (BatchLemmas.whole_batch (AnimeJs.animateElement reliable doc)
                (fun _ => true)
                (RevisionLemmas.anime_animateElement_quiet reliable doc)
                (fun x s0 _ =>
                   BatchLemmas.anime_animateElement_returns reliable doc x s0
                     (fun _ => eq_refl))
                entries s Hok) as (H1 & _ & H2).
    split; assumption.
Qed.

Lemma failure_ends_the_batch_witness :
  let dispatch := MotionFull.animateElement fails_on_1 page_two in
  let ready := MotionFull.ready page_two in
  fst (dispatch 1 (marked AnimateElement 1 ready)) = Threw
  /\ handleIntersection dispatch [visible 1; visible 2] ready
     = (Threw, snd (dispatch 1 (marked AnimateElement 1 ready)))
  /\ fst (handleIntersection (MotionFull.animateElement reliable page_two)
            [visible 1; visible 2] ready) = Returned tt.
Proof.
  pose proof (failure_ends_the_batch fails_on_1 page_two
                (MotionFull.ready page_two) (MotionFull.ready page_two)
                [] [visible 2] [visible 1; visible 2] (visible 1))
    as [(Hfull & _ & _) (Hok & _ & _)].
  assert (fst (MotionFull.animateElement fails_on_1 page_two 1
                 (marked AnimateElement 1 (MotionFull.ready page_two)))
          = Threw) as Ht by reflexivity.
  assert (entryTarget (visible 1)
          ∉ animatedElements (MotionFull.ready page_two)) as Hs
    by (intros H; apply (bool_decide_eq_true_2 _) in H;
        vm_compute in H; discriminate H).
  split; [exact Ht|]. split.
  - exact (proj1 (Hfull eq_refl eq_refl Hs Ht)).
  - exact (proj1 (Hok eq_refl)).
Defined.

(** C2: the Anime.js revision at [data-animate="wobble"].  The element is
    hidden at setup; its reveal calls [animateElement], which finds no
    entry, calls nothing and restores nothing, and no later callback ever
    changes that.  The Motion One revision that hides at setup shows the
    element in its fallback branch. *)
Theorem unknown_kind_stays_hidden_in_animejs
  (throws : effect -> bool) (evs : list event) :
  get (AnimeJs.animations 1 (AnimeJs.resolve_duration page_unknown_kind 1)
         (AnimeJs.resolve_delay page_unknown_kind 1))
      (AnimeJs.resolve_kind page_unknown_kind 1) = Undefined
  /\ opacity (AnimeJs.ready page_unknown_kind) !! 1 = Some "0"%string
  /\ trace (AnimeJs.run reliable page_unknown_kind [Intersection [visible 1]])
     = [Enter AnimateElement 1]
  /\ opacity (AnimeJs.run throws page_unknown_kind evs) !! 1
     = Some "0"%string
  /\ opacity (MotionFull.run reliable page_unknown_kind
                [Intersection [visible 1]]) !! 1 = Some "1"%string.
Proof.
  split; [vm_compute; reflexivity|].
  split; [vm_compute; reflexivity|].
  split; [vm_compute; reflexivity|].
  split; [|vm_compute; reflexivity].
  apply HiddenLemmas.anime_stays_hidden. vm_compute. auto.
Qed.

(** C3, as stated, fails.  In the minimal Motion One revision a grid with
    no [data-stagger-delay] staggers its items by 30 ms, not 100 ms, and a
    grid that declares 250 ms is staggered by 30 ms as well. *)
Lemma stagger_delay_is_fixed_counterexample :
  dataset page_grid 1 "staggerDelay" = None
  /\ call_targets (MotionMinimal.stagger_call page_grid 1)
     = [Node 2; Node 3; Node 4]
  /\ num_eq (delay_at (call_delay (MotionMinimal.stagger_call page_grid 1)) 1)
            (seconds (ofZ 30))
  /\ ~ num_eq (delay_at (call_delay (MotionMinimal.stagger_call page_grid 1)) 1)
              (seconds (ofZ 100))
  /\ dataset page_grid_250 1 "staggerDelay" = Some "250"%string
  /\ ~ num_eq
         (delay_at (call_delay (MotionMinimal.stagger_call page_grid_250 1)) 1)
         (seconds (ofZ 250)).
Proof.
  split; [reflexivity|]. split; [reflexivity|].
  split; [vm_compute; reflexivity|].
  split; [vm_compute; discriminate|].
  split; [reflexivity|]. vm_compute; discriminate.
Qed.

(** C3, amended.  Revealing a container makes exactly one library call,
    over its [data-stagger-item] descendants in document order.  The item
    at index [i] is delayed by [i] times the item delay.  In the full
    Motion One revision and in the Anime.js revision the item delay is the
    integer [parseInt] reads from [data-stagger-delay], 100 ms when the
    attribute is absent or empty; in the minimal Motion One revision it is
    30 ms whatever the attribute says. *)
Theorem stagger_delay_is_index_times_item_delay
  (throws : effect -> bool) (doc : document) (container : elem)
  (s : state) (i : nat) :
  let children := map Node (querySelectorAllIn doc container "staggerItem") in
  let itemDelayMs := declared (dataset doc container "staggerDelay") 100 in
  let full := MotionFull.stagger_call doc container in
  let minimal := MotionMinimal.stagger_call doc container in
  let anime := AnimeJs.stagger_call doc container in
  (trace (exec (MotionFull.animateStaggerChildren throws doc container) s)
   = trace s ++ [full]
   /\ call_targets full = children
   /\ num_eq (delay_at (call_delay full) i)
             (seconds (mul (ofZ (Z.of_nat i)) itemDelayMs)))
  /\ (trace (exec (MotionMinimal.animateStaggerChildren throws doc container) s)
      = trace s ++ [minimal]
      /\ call_targets minimal = children
      /\ num_eq (delay_at (call_delay minimal) i)
                (seconds (mul (ofZ (Z.of_nat i)) (ofZ 30))))
  /\ (trace (exec (AnimeJs.animateStaggerChildren throws doc container) s)
      = trace s ++ [anime]
      /\ call_targets anime = children
      /\ num_eq (delay_at (call_delay anime) i)
                (mul (ofZ (Z.of_nat i)) itemDelayMs)).
Proof.
  intros children itemDelayMs full minimal anime.
  split; [|split].
  - split; [|split].
    + unfold MotionFull.animateStaggerChildren.
      destruct (TimingLemmas.hide_children_returns "0"
                  (querySelectorAllIn doc container "staggerItem") s)
        as [Hr Ht].
      rewrite (MonadLemmas.exec_bind_returns _ _ s tt Hr).
      rewrite TimingLemmas.invoke_trace, Ht. reflexivity.
    + reflexivity.
    + subst full itemDelayMs. unfold MotionFull.stagger_call; simpl.
      unfold MotionFull.staggerDelayMs.
      rewrite TimingLemmas.parse_or_default_100.
      apply TimingLemmas.stagger_delay_seconds.
  - split; [|split].
    + apply TimingLemmas.invoke_trace.
    + reflexivity.
    + apply (TimingLemmas.stagger_delay_seconds (ofZ 30)).
  - split; [|split].
    + unfold AnimeJs.animateStaggerChildren.
      destruct (TimingLemmas.hide_children_returns "0"
                  (querySelectorAllIn doc container "staggerItem") s)
        as [Hr Ht].
      rewrite (MonadLemmas.exec_bind_returns _ _ s tt Hr).
      rewrite TimingLemmas.invoke_trace, Ht. reflexivity.
    + subst anime. unfold AnimeJs.stagger_call.
      destruct (get _ _) as [[kf ease]| |]; reflexivity.
    + subst anime itemDelayMs. unfold AnimeJs.stagger_call.
      destruct (get _ _) as [[kf ease]| |]; simpl;
        unfold AnimeJs.staggerDelay;
        rewrite TimingLemmas.parse_or_default_100;
        apply TimingLemmas.stagger_delay_millis.
Qed.

(** C5, as stated, fails.  In the minimal Motion One revision an element
    that declares [data-duration="1200"] is animated over 300 ms, and so
    is an element that declares no duration. *)
Lemma duration_is_fixed_counterexample :
  dataset page_duration 1 "duration" = Some "1200"%string
  /\ map call_duration
       (trace (MotionMinimal.run reliable page_duration
                 [Intersection [visible 1]]))
     = [NaN; Finite (3 # 10)]
  /\ ~ num_eq (MotionMinimal.resolve_duration 1)
              (seconds (ofZ 1200))
  /\ dataset page_two 1 "duration" = None
  /\ ~ num_eq (MotionMinimal.resolve_duration 1) (seconds (ofZ 800)).
Proof.
  split; [reflexivity|]. split; [vm_compute; reflexivity|].
  split; [vm_compute; discriminate|].
  split; [reflexivity|]. vm_compute; discriminate.
Qed.

(** C5, amended.  Option resolution reads the kind with default
    [fade-up], the delay with default 0 and, in the full Motion One
    revision, the duration with default 800 ms, each default applying when
    the attribute is absent or empty; milliseconds are divided by 1000
    once.  For every listed kind [animateElement] makes one library call,
    on the element alone, and hands it that delay and that duration, plus
    0.2 s for [flip-up] and [slide-reveal] and plus 0.4 s for
    [bounce-in].  In the minimal Motion One revision kind and delay
    resolve the same way and the duration handed over is 300 ms whatever
    [data-duration] says. *)
Theorem option_resolution_and_defaults
  (throws : effect -> bool) (doc : document) (element : elem) (s : state) :
  let kind := declared_kind (dataset doc element "animate") in
  let delay := seconds (declared (dataset doc element "delay") 0) in
  let duration := seconds (declared (dataset doc element "duration") 800) in
  (MotionFull.resolve_kind doc element = kind
   /\ MotionFull.resolve_delay doc element = delay
   /\ MotionFull.resolve_duration doc element = duration
   /\ (Invariants.listed Invariants.entrance_kinds kind = true ->
       Invariants.hands s
         (exec (MotionFull.animateElement throws doc element) s)
         element delay (Invariants.preset_duration kind duration)))
  /\ (MotionMinimal.resolve_kind doc element = kind
      /\ MotionMinimal.resolve_delay doc element = delay
      /\ MotionMinimal.resolve_duration element = Finite (3 # 10)
      /\ (Invariants.listed Invariants.entrance_kinds kind = true ->
          Invariants.hands s
            (exec (MotionMinimal.animateElement throws doc element) s)
            element delay (Finite (3 # 10)))).
Proof.
  intros kind delay duration.
  assert (MotionFull.resolve_kind doc element = kind) as Hk
    by apply TimingLemmas.kind_or_default.
  assert (MotionMinimal.resolve_kind doc element = kind) as Hk'
    by apply TimingLemmas.kind_or_default.
  assert (MotionFull.resolve_delay doc element = delay) as Hd.
  { unfold MotionFull.resolve_delay.
    rewrite TimingLemmas.parse_or_default_0. reflexivity. }
  assert (MotionFull.resolve_duration doc element = duration) as Hu.
  { unfold MotionFull.resolve_duration.
    rewrite TimingLemmas.parse_or_default_800. reflexivity. }
  assert (MotionMinimal.resolve_delay doc element = delay) as Hd'.
  { unfold MotionMinimal.resolve_delay.
    rewrite TimingLemmas.parse_or_default_0. reflexivity. }
  split.
  - split; [exact Hk|]. split; [exact Hd|]. split; [exact Hu|].
    intros L. rewrite <- Hk, <- Hd, <- Hu. rewrite <- Hk in L.
    apply OptionLemmas.full_hands, L.
  - split; [exact Hk'|]. split; [exact Hd'|]. split; [reflexivity|].
    intros L. rewrite <- Hd'. rewrite <- Hk' in L.
    apply OptionLemmas.minimal_hands, L.
Qed.

Lemma option_resolution_and_defaults_witness :
  Invariants.hands initial
    (exec (MotionFull.animateElement reliable page_duration 1) initial)
    1 (seconds (ofZ 150)) (seconds (ofZ 1200))
  /\ Invariants.hands initial
       (exec (MotionMinimal.animateElement reliable page_duration 1) initial)
       1 (seconds (ofZ 150)) (Finite (3 # 10)).
Proof.
  pose proof (option_resolution_and_defaults reliable page_duration 1 initial)
    as [(_ & _ & _ & Hfull) (_ & _ & _ & Hminimal)].
  split; [exact (Hfull eq_refl) | exact (Hminimal eq_refl)].
Defined.







(** C10.  On the text ["Hi there"]: in [chars] mode the split yields one
    wrapped unit per character, in the order of the text, the space
    replaced by [&nbsp;]; in words mode, which is also what an empty
    [data-text-reveal] selects, it yields two wrapped units holding ["Hi"]
    and ["there"].  The markup written and the units handed to the library
    are those, in both revisions that have a text reveal. *)
Theorem text_split_hi_there :
  let chars := ["H"; "i"; "&nbsp;"; "t"; "h"; "e"; "r"; "e"]%string in
  let span_c c :=
    ("<span class=" ++ dq ++ "char-reveal" ++ dq ++ " style=" ++ dq
       ++ "display:inline-block;" ++ dq ++ ">" ++ c ++ "</span>")%string in
  let span_w w :=
    ("<span class=" ++ dq ++ "word-reveal" ++ dq ++ " style=" ++ dq
       ++ "display:inline-block; margin-right: 0.25em;" ++ dq ++ ">"
       ++ w ++ "</span>")%string in
  let reveal := [TextIntersection [visible 1; visible 2]] in
  let full :=
    MotionFull.text_run reliable page_text reveal
      (exec (MotionFull.setupTextRevealAnimations page_text) initial) in
  let anime :=
    AnimeJs.text_run reliable page_text reveal
      (exec (AnimeJs.setupTextRevealAnimations page_text) initial) in
  map char_content (split_chars "Hi there") = chars
  /\ char_units "Hi there" = map span_c chars
  /\ length (char_units "Hi there") = String.length "Hi there"
  /\ split "Hi there" " " = ["Hi"; "there"]%string
  /\ word_units "Hi there" = [span_w "Hi"; span_w "there"]%string
  /\ (innerHTML full !! 1 = Some (join (map span_c chars))
      /\ innerHTML full !! 2 = Some (span_w "Hi" ++ span_w "there")%string
      /\ map call_targets (trace full)
         = [map (Unit 1) (seq 0 8); [Unit 2 0; Unit 2 1]])
  /\ (innerHTML anime !! 1 = Some (join (map span_c chars))
      /\ innerHTML anime !! 2 = Some (span_w "Hi" ++ span_w "there")%string
      /\ map call_targets (trace anime)
         = [map (Unit 1) (seq 0 8); [Unit 2 0; Unit 2 1]]).
Proof. vm_compute. repeat split. Qed.

(* ===================================================================== *)
(** * Further properties of the controller *)
(* ===================================================================== *)

Module InvariantLemmas.
Import JS Page Controller Facts Invariants MonadLemmas ControllerLemmas.
Import DispatchLemmas ThrottleLemmas RevisionLemmas.

#[export] Instance unchanged_preorder {K} (f : state -> K) :
  PreOrder (unchanged f).
Proof.
  split; [intros s; reflexivity|].
  intros s1 s2 s3 H1 H2. unfold unchanged in *. congruence.
Qed.

Lemma dispatch_rel_keeps_exact s s' :
  dispatch_rel s s' -> exact_bound s -> exact_bound s'.
Proof. intros [Ha Hc] H e. unfold dispatched. rewrite !Hc, Ha. apply H. Qed.

Lemma mark_keeps_exact d s t :
  exact_bound s -> t ∉ animatedElements s ->
  exact_bound
    (set_trace (fun tr => tr ++ [Enter d t])
       (set_animatedElements (fun seen => seen ∪ {[t]}) s)).
Proof.
  intros H Ht e. unfold dispatched; simpl.
  rewrite !invocations_snoc. specialize (H e). unfold dispatched in H.
  destruct (decide (e = t)) as [->|Hne].
  - rewrite bool_decide_eq_false_2 in H by assumption.
    rewrite bool_decide_eq_true_2
      by (apply elem_of_union_r, elem_of_singleton; reflexivity).
    destruct d; simpl; rewrite Nat.eqb_refl; lia.
  - assert (is_enter AnimateElement e (Enter d t) = false
            /\ is_enter AnimateStaggerChildren e (Enter d t) = false)
      as [-> ->].
    { destruct d; simpl; split; try reflexivity;
        apply Nat.eqb_neq; congruence. }
    rewrite !Nat.add_0_r. rewrite H.
    destruct (bool_decide (e ∈ animatedElements s)) eqn:E.
    + apply bool_decide_eq_true_1 in E.
      rewrite bool_decide_eq_true_2; [reflexivity|].
      apply elem_of_union_l, E.
    + apply bool_decide_eq_false_1 in E.
      rewrite bool_decide_eq_false_2; [reflexivity|].
      intros Hin. apply elem_of_union in Hin as [Hin | Hin];
        [contradiction|]. apply elem_of_singleton in Hin. contradiction.
Qed.

Section Generic.

Variable doc : document.
Variable animateElement : elem -> M unit.
Variable animateStaggerChildren : elem -> M unit.
Hypothesis animateElement_quiet : forall e, quiet (animateElement e).
Hypothesis animateStaggerChildren_quiet :
  forall e, quiet (animateStaggerChildren e).

Lemma reveal_keeps_exact d (dispatch : elem -> M unit) en :
  (forall e, quiet (dispatch e)) ->
  respects (keeps exact_bound)
    (s ← read;
     if isIntersecting en
        && negb (bool_decide (entryTarget en ∈ animatedElements s))
     then
       modify (set_animatedElements (fun seen => seen ∪ {[entryTarget en]})) ;;
       record (Enter d (entryTarget en)) ;;
       dispatch (entryTarget en)
     else mret tt).
Proof.
  intros Hq s Hs. rewrite exec_bind; simpl.
  destruct (isIntersecting en && _) eqn:E; [|exact Hs].
  apply andb_prop in E as [_ E]. apply negb_true_iff in E.
  apply bool_decide_eq_false_1 in E.
  rewrite exec_bind; simpl. rewrite exec_bind; simpl.
  eapply dispatch_rel_keeps_exact;
    [apply quiet_dispatch_rel, Hq | apply mark_keeps_exact; assumption].
Qed.

Lemma step_keeps_exact s ev :
  throttle_ok s -> exact_bound s ->
  exact_bound (step doc animateElement animateStaggerChildren s ev).
Proof.
  intros Ht Hb. unfold step. destruct ev as [entries | entries | | v]; simpl.
  - apply (respects_forEach (keeps exact_bound)); [|exact Hb].
    intros en. apply (reveal_keeps_exact AnimateElement).
    exact animateElement_quiet.
  - apply (respects_forEach (keeps exact_bound)); [|exact Hb].
    intros en. apply (reveal_keeps_exact AnimateStaggerChildren).
    exact animateStaggerChildren_quiet.
  - intros e. unfold dispatched. rewrite onScroll_trace, onScroll_seen.
    apply Hb.
  - eapply dispatch_rel_keeps_exact;
      [apply onFrame_dispatch_rel, Ht | exact Hb].
Qed.

Lemma run_keeps_exact evs s :
  sound s -> exact_bound s ->
  exact_bound (Controller.run doc animateElement animateStaggerChildren evs s).
Proof.
  revert s. induction evs as [|ev evs IH]; intros s Hs Hb; simpl; [exact Hb|].
  apply IH.
  - apply step_sound; assumption.
  - apply step_keeps_exact; [apply Hs | exact Hb].
Qed.

(** A batch with no intersecting entry changes nothing. *)
Lemma away_batch_entrance entries s :
  all_away entries = true ->
  handleIntersection animateElement entries s = (Returned tt, s).
Proof.
  revert s. induction entries as [|en entries IH]; intros s H; [reflexivity|].
  simpl in H. apply andb_prop in H as [Hen H]. apply negb_true_iff in Hen.
  unfold handleIntersection in *. simpl. rewrite run_bind.
  rewrite run_bind; simpl. rewrite Hen; simpl. apply IH, H.
Qed.

Lemma away_batch_stagger entries s :
  all_away entries = true ->
  staggerCallback animateStaggerChildren entries s = (Returned tt, s).
Proof.
  revert s. induction entries as [|en entries IH]; intros s H; [reflexivity|].
  simpl in H. apply andb_prop in H as [Hen H]. apply negb_true_iff in Hen.
  unfold staggerCallback in *. simpl. rewrite run_bind.
  rewrite run_bind; simpl. rewrite Hen; simpl. apply IH, H.
Qed.

End Generic.

Lemma initial_exact : exact_bound initial.
Proof.
  intros e. unfold dispatched, invocations. simpl.
  rewrite bool_decide_eq_false_2; [reflexivity | apply not_elem_of_empty].
Qed.

Lemma quiet_keeps_exact {A} (m : M A) :
  quiet m -> respects (keeps exact_bound) m.
Proof.
  intros H s Hs. eapply dispatch_rel_keeps_exact;
    [apply quiet_dispatch_rel, H | exact Hs].
Qed.

Lemma setupParallax_keeps_exact doc :
  respects (keeps exact_bound) (setupParallax doc).
Proof.
  intros s Hs. unfold setupParallax. destruct (_ =? _)%nat; exact Hs.
Qed.

Lemma full_ready_exact doc : exact_bound (MotionFull.ready doc).
Proof.
  unfold MotionFull.ready, MotionFull.setupObservers.
  apply (respects_bind (keeps exact_bound)); [| |apply initial_exact].
  - apply quiet_keeps_exact, quiet_forEach. intros el.
    apply quiet_bind; [apply quiet_style_opacity | intros _; apply quiet_observe].
  - intros _. apply (respects_bind (keeps exact_bound));
      [apply setupParallax_keeps_exact |].
    intros _. apply quiet_keeps_exact, setupStaggerObservers_quiet.
Qed.

Lemma minimal_ready_exact doc : exact_bound (MotionMinimal.ready doc).
Proof.
  unfold MotionMinimal.ready, MotionMinimal.setupObservers.
  apply (respects_bind (keeps exact_bound)); [| |apply initial_exact].
  - apply quiet_keeps_exact, quiet_forEach. intros el. apply quiet_observe.
  - intros _. apply (respects_bind (keeps exact_bound));
      [apply setupParallax_keeps_exact |].
    intros _. apply quiet_keeps_exact, setupStaggerObservers_quiet.
Qed.

Lemma anime_ready_exact doc : exact_bound (AnimeJs.ready doc).
Proof.
  unfold AnimeJs.ready, AnimeJs.setupObservers.
  apply (respects_bind (keeps exact_bound)); [| |apply initial_exact].
  - apply quiet_keeps_exact, quiet_forEach. intros el.
    apply quiet_bind; [apply quiet_style_opacity | intros _; apply quiet_observe].
  - intros _. apply (respects_bind (keeps exact_bound));
      [apply setupParallax_keeps_exact |].
    intros _. apply quiet_keeps_exact, setupStaggerObservers_quiet.
Qed.

End InvariantLemmas.

Import Invariants.

(** X1.  An element is in the seen set exactly when a dispatcher was
    called on it, and then it was called once: in each revision, after
    any run, the number of dispatcher calls on an element over the two
    triggers is 1 if the element is in [animatedElements] and 0
    otherwise. *)
Theorem seen_set_is_the_dispatched_set
  (throws : effect -> bool) (doc : document) (evs : list event) (e : elem) :
  let count s :=
    invocations AnimateElement e (trace s)
    + invocations AnimateStaggerChildren e (trace s) in
  let mark s := if bool_decide (e ∈ animatedElements s) then 1 else 0 in
  count (MotionFull.run throws doc evs) = mark (MotionFull.run throws doc evs)
  /\ count (MotionMinimal.run throws doc evs)
     = mark (MotionMinimal.run throws doc evs)
  /\ count (AnimeJs.run throws doc evs) = mark (AnimeJs.run throws doc evs).
Proof.
  intros count mark. split; [|split].
  - apply (InvariantLemmas.run_keeps_exact doc _ _
             (RevisionLemmas.full_animateElement_quiet throws doc)
             (RevisionLemmas.full_animateStaggerChildren_quiet throws doc)
             evs _ (RunLemmas.full_ready_sound doc)
             (InvariantLemmas.full_ready_exact doc) e).
  - apply (InvariantLemmas.run_keeps_exact doc _ _
             (RevisionLemmas.minimal_animateElement_quiet throws doc)
             (RevisionLemmas.minimal_animateStaggerChildren_quiet throws doc)
             evs _ (RunLemmas.minimal_ready_sound doc)
             (InvariantLemmas.minimal_ready_exact doc) e).
  - apply (InvariantLemmas.run_keeps_exact doc _ _
             (RevisionLemmas.anime_animateElement_quiet throws doc)
             (RevisionLemmas.anime_animateStaggerChildren_quiet throws doc)
             evs _ (RunLemmas.anime_ready_sound doc)
             (InvariantLemmas.anime_ready_exact doc) e).
Qed.

(** X2.  Entries that do not intersect are ignored: a batch in which no
    entry intersects returns and leaves the page exactly as it was, for
    the entrance callback and for the stagger callback, whatever the
    dispatchers are. *)
Theorem exits_are_ignored
  (animateElement animateStaggerChildren : elem -> M unit)
  (entries : list entry) (s : state) :
  all_away entries = true ->
  handleIntersection animateElement entries s = (Returned tt, s)
  /\ staggerCallback animateStaggerChildren entries s = (Returned tt, s).
Proof.
  intros H. split.
  - apply InvariantLemmas.away_batch_entrance, H.
  - apply InvariantLemmas.away_batch_stagger, H.
Qed.

Lemma exits_are_ignored_witness :
  handleIntersection (MotionFull.animateElement fails_on_1 page_two)
    [away 1; away 2] (MotionFull.ready page_two)
  = (Returned tt, MotionFull.ready page_two).
Proof.
  apply (exits_are_ignored (MotionFull.animateElement fails_on_1 page_two)
           (MotionFull.animateStaggerChildren fails_on_1 page_two)
           [away 1; away 2] (MotionFull.ready page_two)).
  reflexivity.
Defined.

Module SetupLemmas.
Import JS Page Controller Facts Invariants MonadLemmas ControllerLemmas.
Import ThrottleLemmas InvariantLemmas.

Lemma existsb_eqb_In (x : elem) (l : list elem) :
  existsb (Nat.eqb x) l = true <-> In x l.
Proof.
  rewrite existsb_exists. split.
  - intros (y & Hy & E). apply Nat.eqb_eq in E. subst. exact Hy.
  - intros H. exists x. split; [exact H | apply Nat.eqb_refl].
Qed.

(** One [observe]: the element joins the targets of its observer unless
    it is there already; the other observers keep theirs. *)
Lemma observe_targets o x s o' :
  targets (exec (observe o x) s) o' =
  if observer_eqb o o'
  then (if existsb (Nat.eqb x) (targets s o') then targets s o'
        else targets s o' ++ [x])
  else targets s o'.
Proof. reflexivity. Qed.

Lemma observer_eqb_refl o : observer_eqb o o = true.
Proof. destruct o; reflexivity. Qed.

Section Loop.

Variable o : observer.
Variable f : elem -> M unit.
Hypothesis f_observes :
  forall x s, fst (f x s) = Returned tt
              /\ targets (exec (f x) s) = targets (exec (observe o x) s).

Lemma loop_observes l s :
  fst (forEach f l s) = Returned tt
  /\ (forall e, In e (targets (exec (forEach f l) s) o)
                <-> In e (targets s o) \/ In e l)
  /\ (NoDup (targets s o) -> NoDup (targets (exec (forEach f l) s) o))
  /\ (forall o', observer_eqb o o' = false ->
                 targets (exec (forEach f l) s) o' = targets s o').
Proof.
  revert s. induction l as [|x l IH]; intros s.
  - simpl. split; [reflexivity|]. split; [intros e; simpl; tauto|].
    split; [auto | reflexivity].
  - destruct (f_observes x s) as [Hr Ht].
    assert (forEach f (x :: l) s = forEach f l (exec (f x) s)) as E.
    { simpl. rewrite run_bind. unfold exec.
      destruct (f x s) as [[[]|] s1]; simpl in *; [reflexivity | discriminate]. }
    destruct (IH (exec (f x) s)) as (H1 & H2 & H3 & H4).
    remember (exec (f x) s) as s1 eqn:Es1.
    assert (exec (forEach f (x :: l)) s = exec (forEach f l) s1) as E'
      by (unfold exec; rewrite E; reflexivity).
    rewrite E, E'. subst s1.
    split; [exact H1|].
    assert (forall e, In e (targets (exec (f x) s) o)
                      <-> In e (targets s o) \/ e = x) as Hx.
    { intros e. rewrite Ht, observe_targets, observer_eqb_refl.
      destruct (existsb (Nat.eqb x) (targets s o)) eqn:Ex.
      - apply existsb_eqb_In in Ex. split; [tauto|].
        intros [H | ->]; assumption.
      - rewrite in_app_iff. simpl. split; [intros [H | [H | []]]; auto|].
        intros [H | H]; auto. }
    split; [|split].
    + intros e. rewrite H2, Hx. simpl. split.
      * intros [[H | H] | H]; auto.
      * intros [H | [H | H]]; auto.
    + intros Hnd. apply H3. rewrite Ht, observe_targets, observer_eqb_refl.
      destruct (existsb (Nat.eqb x) (targets s o)) eqn:Ex; [exact Hnd|].
      apply NoDup_app. split; [exact Hnd|]. split.
      * intros y Hy Hy'. apply list_elem_of_In in Hy.
        apply list_elem_of_In in Hy'. destruct Hy' as [<- | []].
        apply existsb_eqb_In in Hy. congruence.
      * apply NoDup_singleton.
    + intros o' Ho. rewrite H4 by exact Ho.
      rewrite Ht, observe_targets, Ho. reflexivity.
Qed.

End Loop.

(** The loop that hides and observes. *)
Lemma loop_hides o l s e :
  opacity (exec (forEach (fun el => style_opacity el "0" ;; observe o el) l) s)
    !! e
  = if bool_decide (e ∈ l) then Some "0"%string else opacity s !! e.
Proof.
  revert s. induction l as [|x l IH]; intros s.
  - cbn [forEach]. rewrite exec_ret.
    rewrite bool_decide_eq_false_2; [reflexivity | apply not_elem_of_nil].
  - cbn [forEach]. rewrite (exec_bind_returns _ _ s tt) by reflexivity.
    rewrite IH. unfold exec; simpl.
    destruct (decide (e = x)) as [->|Hne].
    + rewrite lookup_insert_eq.
      rewrite (bool_decide_eq_true_2 (x ∈ x :: l))
        by (apply elem_of_cons; left; reflexivity).
      destruct (bool_decide (x ∈ l)); reflexivity.
    + rewrite lookup_insert_ne by congruence.
      destruct (bool_decide (e ∈ l)) eqn:E.
      * apply bool_decide_eq_true_1 in E.
        rewrite bool_decide_eq_true_2; [reflexivity|].
        apply elem_of_cons. right. exact E.
      * apply bool_decide_eq_false_1 in E.
        rewrite bool_decide_eq_false_2; [reflexivity|].
        intros H. apply elem_of_cons in H as [H | H]; contradiction.
Qed.

Lemma observe_loop_opacity o l s :
  opacity (exec (forEach (fun el => observe o el) l) s) = opacity s.
Proof.
  apply (respects_forEach (unchanged opacity) (fun el => observe o el) l
           (fun x s0 => eq_refl) s).
Qed.

Lemma setupParallax_returns doc s :
  fst (setupParallax doc s) = Returned tt
  /\ targets (exec (setupParallax doc) s) = targets s
  /\ opacity (exec (setupParallax doc) s) = opacity s.
Proof.
  unfold setupParallax. destruct (_ =? _)%nat; repeat split.
Qed.

Section Setup.

Variable doc : document.
Variable f : elem -> M unit.
Hypothesis f_observes :
  forall x s, fst (f x s) = Returned tt
              /\ targets (exec (f x) s)
                 = targets (exec (observe EntranceObserver x) s).

(** The shape all three [setupObservers] share. *)
Lemma setup_shape e :
  let ready :=
    exec (forEach f (querySelectorAll doc "animate") ;;
          setupParallax doc ;; setupStaggerObservers doc) initial in
  (In e (targets ready EntranceObserver)
   <-> In e (querySelectorAll doc "animate"))
  /\ NoDup (targets ready EntranceObserver)
  /\ (In e (targets ready StaggerObserver)
      <-> In e (querySelectorAll doc "stagger"))
  /\ NoDup (targets ready StaggerObserver)
  /\ opacity ready
     = opacity (exec (forEach f (querySelectorAll doc "animate")) initial).
Proof.
  intros ready.
  destruct (loop_observes EntranceObserver f f_observes
              (querySelectorAll doc "animate") initial)
    as (Hr1 & Hin1 & Hnd1 & Hoth1).
  set (s1 := exec (forEach f (querySelectorAll doc "animate")) initial) in *.
  destruct (setupParallax_returns doc s1) as (Hr2 & Ht2 & Ho2).
  set (s2 := exec (setupParallax doc) s1) in *.
  destruct (loop_observes StaggerObserver
              (fun container => observe StaggerObserver container)
              (fun x s => conj eq_refl eq_refl)
              (querySelectorAll doc "stagger") s2)
    as (Hr3 & Hin3 & Hnd3 & Hoth3).
  assert (ready = exec (setupStaggerObservers doc) s2) as ->.
  { subst ready. rewrite (exec_bind_returns _ _ initial tt Hr1).
    fold s1. rewrite (exec_bind_returns _ _ s1 tt Hr2). reflexivity. }
  unfold setupStaggerObservers. cbv zeta.
  split; [|split; [|split; [|split]]].
  - rewrite (Hoth3 EntranceObserver eq_refl), Ht2, Hin1. simpl. tauto.
  - rewrite (Hoth3 EntranceObserver eq_refl), Ht2. apply Hnd1. constructor.
  - rewrite Hin3, Ht2, (Hoth1 StaggerObserver eq_refl). simpl. tauto.
  - apply Hnd3. rewrite Ht2, (Hoth1 StaggerObserver eq_refl). constructor.
  - rewrite observe_loop_opacity. exact Ho2.
Qed.

End Setup.

(** What the dispatchers and the loops of the minimal revision leave
    alone: the inline opacity. *)
Lemma invoke_unchanged_opacity throws call :
  respects (unchanged opacity) (invoke throws call).
Proof. intros s. apply HiddenLemmas.invoke_opacity. Qed.

Lemma call_inherited_unchanged_opacity name :
  respects (unchanged opacity) (call_inherited name).
Proof.
  intros s. unfold unchanged, call_inherited. rewrite exec_bind; simpl.
  destruct (inherited_call_throws name); reflexivity.
Qed.

Lemma minimal_handle_opacity throws doc ev :
  respects (unchanged opacity)
    (handle doc (MotionMinimal.animateElement throws doc)
            (MotionMinimal.animateStaggerChildren throws doc) ev).
Proof.
  destruct ev as [entries | entries | | v]; simpl.
  - apply respects_forEach; [apply _|]. intros en.
    apply respects_bind; [apply _ | apply respects_read, _ |]. intros s.
    apply respects_if; [|apply respects_ret, _].
    apply respects_bind; [apply _ | intros s0; reflexivity |]. intros _.
    apply respects_bind; [apply _ | intros s0; reflexivity |]. intros _.
    unfold MotionMinimal.animateElement.
    destruct (get _ _);
      [apply invoke_unchanged_opacity | apply call_inherited_unchanged_opacity
      |apply respects_ret, _].
  - apply respects_forEach; [apply _|]. intros en.
    apply respects_bind; [apply _ | apply respects_read, _ |]. intros s.
    apply respects_if; [|apply respects_ret, _].
    apply respects_bind; [apply _ | intros s0; reflexivity |]. intros _.
    apply respects_bind; [apply _ | intros s0; reflexivity |]. intros _.
    apply invoke_unchanged_opacity.
  - intros s. unfold onScroll. rewrite exec_bind; simpl.
    destruct (listening _); [|reflexivity]. destruct (ticking _); reflexivity.
  - apply respects_bind; [apply _ | apply respects_read, _ |]. intros s.
    apply respects_bind; [apply _ | intros s0; reflexivity |]. intros _.
    apply respects_forEach; [apply _|]. intros _.
    apply respects_bind; [apply _ | | intros _; intros s0; reflexivity].
    intros s0. apply (handleScroll_effect doc v s0).
Qed.

Lemma minimal_run_opacity throws doc evs s :
  opacity (Controller.run doc (MotionMinimal.animateElement throws doc)
             (MotionMinimal.animateStaggerChildren throws doc) evs s)
  = opacity s.
Proof.
  revert s. induction evs as [|ev evs IH]; intros s; simpl; [reflexivity|].
  rewrite IH. apply minimal_handle_opacity.
Qed.

Lemma minimal_ready_opacity doc : opacity (MotionMinimal.ready doc) = ∅.
Proof.
  pose proof (setup_shape doc (fun el => observe EntranceObserver el)
                (fun x s => conj eq_refl eq_refl) 0%nat)
    as (_ & _ & _ & _ & H).
  unfold MotionMinimal.ready, MotionMinimal.setupObservers.
  rewrite H. apply observe_loop_opacity.
Qed.

End SetupLemmas.

(** X3.  Setup observes exactly what opted in, each element once: after
    [setupObservers] the entrance observer watches the elements with
    [data-animate] and the stagger observer those with [data-stagger],
    without repetition.  In the full Motion One and the Anime.js revisions
    the elements with [data-animate], and no others, carry the inline
    opacity ["0"]; in the minimal revision no element carries an inline
    opacity. *)
Theorem setup_observes_and_hides_what_opted_in (doc : document) (e : elem) :
  let entrance := querySelectorAll doc "animate" in
  let containers := querySelectorAll doc "stagger" in
  let watched ready :=
    (In e (targets ready EntranceObserver) <-> In e entrance)
    /\ NoDup (targets ready EntranceObserver)
    /\ (In e (targets ready StaggerObserver) <-> In e containers)
    /\ NoDup (targets ready StaggerObserver) in
  let hidden_if_entrance ready :=
    opacity ready !! e
    = if bool_decide (e ∈ entrance) then Some "0"%string else None in
  (watched (MotionFull.ready doc) /\ hidden_if_entrance (MotionFull.ready doc))
  /\ (watched (MotionMinimal.ready doc)
      /\ opacity (MotionMinimal.ready doc) = ∅)
  /\ (watched (AnimeJs.ready doc) /\ hidden_if_entrance (AnimeJs.ready doc)).
Proof.
  intros entrance containers watched hidden_if_entrance.
  pose proof (SetupLemmas.setup_shape doc
                (fun el => style_opacity el "0" ;; observe EntranceObserver el)
                (fun x s => conj eq_refl eq_refl) e)
    as (H1 & H2 & H3 & H4 & H5).
  pose proof (SetupLemmas.setup_shape doc
                (fun el => observe EntranceObserver el)
                (fun x s => conj eq_refl eq_refl) e)
    as (M1 & M2 & M3 & M4 & M5).
  assert (hidden_if_entrance (MotionFull.ready doc)) as Hh.
  { unfold hidden_if_entrance, MotionFull.ready, MotionFull.setupObservers.
    rewrite H5, SetupLemmas.loop_hides. reflexivity. }
  split; [|split].
  - split; [|exact Hh]. repeat split; assumption || apply H1 || apply H3.
  - split; [repeat split; assumption || apply M1 || apply M3|].
    apply SetupLemmas.minimal_ready_opacity.
  - split; [|exact Hh]. repeat split; assumption || apply H1 || apply H3.
Qed.

(** X4.  The minimal revision never hides anything: over any run of its
    controller no element ever carries an inline opacity. *)
Theorem minimal_revision_never_sets_opacity
  (throws : effect -> bool) (doc : document) (evs : list event) :
  opacity (MotionMinimal.run throws doc evs) = ∅.
Proof.
  unfold MotionMinimal.run. rewrite SetupLemmas.minimal_run_opacity.
  apply SetupLemmas.minimal_ready_opacity.
Qed.

Module KindLemmas.
Import JS Page Controller Facts Invariants MonadLemmas ControllerLemmas.
Import RevisionLemmas TimingLemmas DispatchLemmas HiddenLemmas.

Lemma assoc_listed {A} (table : list (string * A)) k :
  existsb (String.eqb k) (map fst table) = true ->
  exists v, assoc table k = Some v /\ In (k, v) table.
Proof.
  induction table as [|[k' v] r IH]; simpl; [discriminate|].
  rewrite (String.eqb_sym k k').
  destruct (String.eqb k' k) eqn:E; simpl.
  - intros _. apply String.eqb_eq in E. subst. exists v. auto.
  - intros H. destruct (IH H) as (w & Hw & Hin). exists w. auto.
Qed.

Lemma assoc_unlisted {A} (table : list (string * A)) k :
  existsb (String.eqb k) (map fst table) = false -> assoc table k = None.
Proof.
  induction table as [|[k' v] r IH]; simpl; [reflexivity|].
  rewrite (String.eqb_sym k k').
  destruct (String.eqb k' k); simpl; [discriminate | exact IH].
Qed.

Lemma get_listed {A} (table : list (string * A)) k :
  existsb (String.eqb k) (map fst table) = true ->
  exists v, get table k = Own v /\ In (k, v) table.
Proof.
  intros H. destruct (assoc_listed table k H) as (v & Hv & Hin).
  exists v. unfold get. rewrite Hv. auto.
Qed.

Lemma get_unlisted {A} (table : list (string * A)) k :
  existsb (String.eqb k) (map fst table) = false ->
  get table k = if listed inherited_names k then Inherited k else Undefined.
Proof. intros H. unfold get. rewrite (assoc_unlisted _ _ H). reflexivity. Qed.

Lemma full_table_animates_opacity e d dl :
  Forall (fun entry => animates_opacity e (snd entry))
         (MotionFull.animations e d dl).
Proof.
  unfold MotionFull.animations.
  repeat (constructor; [do 2 eexists; split; reflexivity|]). constructor.
Qed.

Lemma anime_table_animates_opacity e d dl :
  Forall (fun entry => animates_opacity e (snd entry))
         (AnimeJs.animations e d dl).
Proof.
  unfold AnimeJs.animations.
  repeat (constructor; [do 2 eexists; split; reflexivity|]). constructor.
Qed.

Lemma minimal_table_transform_only e d dl :
  Forall (fun entry => animates_transform_only e (snd entry))
         (MotionMinimal.animations e d dl).
Proof.
  unfold MotionMinimal.animations.
  repeat (constructor; [do 3 eexists; reflexivity|]). constructor.
Qed.

Lemma Forall_in {A} (P : A -> Prop) (l : list A) x :
  List.Forall P l -> In x l -> P x.
Proof. intros H Hin. rewrite List.Forall_forall in H. apply H, Hin. Qed.

Lemma exec_invoke throws f s :
  exec (invoke throws f) s = set_trace (fun t => t ++ [f])%list s.
Proof.
  unfold invoke. rewrite exec_bind; simpl. destruct (throws f); reflexivity.
Qed.

Lemma exec_call_inherited name s :
  exec (call_inherited name) s
  = set_trace (fun t => t ++ [CallInherited name])%list s.
Proof.
  unfold call_inherited. rewrite exec_bind; simpl.
  destruct (inherited_call_throws name); reflexivity.
Qed.

Lemma listed_names_full e d dl :
  map fst (MotionFull.animations e d dl) = entrance_kinds.
Proof. reflexivity. Qed.

Lemma listed_names_minimal e d dl :
  map fst (MotionMinimal.animations e d dl) = entrance_kinds.
Proof. reflexivity. Qed.

Lemma listed_names_anime e d dl :
  map fst (AnimeJs.animations e d dl) = entrance_kinds.
Proof. reflexivity. Qed.

(** The items of a group are hidden by the loop that precedes the call. *)
Lemma hide_children e l s :
  In e l ->
  hidden e (exec (forEach (fun child => style_opacity child "0") l) s).
Proof.
  assert (forall l s, hidden e s ->
            hidden e (exec (forEach (fun child => style_opacity child "0") l) s))
    as Hkeep.
  { intros l0.
    assert (respects (keeps (hidden e))
              (forEach (fun child => style_opacity child "0") l0)) as R.
    { apply respects_forEach; [apply _|].
      intros c. apply HiddenLemmas.hide_keeps. }
    exact R. }
  revert s. induction l as [|x r IH]; intros s Hin; [destruct Hin|].
  cbn [forEach]. rewrite exec_bind.
  unfold style_opacity at 1, modify at 1. cbn [fst snd].
  destruct Hin as [->|Hin].
  - apply Hkeep. unfold hidden. simpl. apply lookup_insert_eq.
  - apply IH, Hin.
Qed.

End KindLemmas.

Import KindLemmas.

(** X5. Entrance dispatch of the full Motion One revision, by kind.  A kind
    the table lists makes exactly one library call, on the element alone,
    that animates the opacity from 0 to 1, and writes no inline style
    itself.  A kind that only names an inherited member of the table
    object is called as such.  Any other kind makes no call, cannot throw,
    and shows the element: inline opacity 1 and transform none. *)
Theorem full_entrance_dispatch_by_kind
  (throws : effect -> bool) (doc : document) (e : elem) (s : state) :
  let kind := or_default (dataset doc e "animate") "fade-up" in
  let after := exec (MotionFull.animateElement throws doc e) s in
  if listed entrance_kinds kind then
    (exists call, trace after = (trace s ++ [call])%list
                  /\ animates_opacity e call)
    /\ opacity after = opacity s /\ transform after = transform s
  else if listed inherited_names kind then
    trace after = (trace s ++ [CallInherited kind])%list
    /\ opacity after = opacity s /\ transform after = transform s
  else
    MotionFull.animateElement throws doc e s = (Returned tt, after)
    /\ trace after = trace s
    /\ opacity after = <[e := "1"%string]> (opacity s)
    /\ transform after = <[e := Css "none"]> (transform s).
Proof.
  intros kind after. subst after. unfold MotionFull.animateElement.
  unfold MotionFull.resolve_kind. fold kind. cbv zeta.
  destruct (listed entrance_kinds kind) eqn:L.
  - unfold listed in L. rewrite <- (listed_names_full e
      (MotionFull.resolve_duration doc e) (MotionFull.resolve_delay doc e)) in L.
    destruct (get_listed _ _ L) as (call & -> & Hin).
    rewrite exec_invoke. simpl. repeat split; try reflexivity.
    exists call. split; [reflexivity|].
    exact (Forall_in _ _ _ (full_table_animates_opacity e _ _) Hin).
  - unfold listed in L. rewrite <- (listed_names_full e
      (MotionFull.resolve_duration doc e) (MotionFull.resolve_delay doc e)) in L.
    rewrite (get_unlisted _ _ L).
    destruct (listed inherited_names kind).
    + rewrite exec_call_inherited. simpl. auto.
    + repeat split; reflexivity.
Qed.

(** X6. Entrance dispatch of the two revisions without a fallback.  For a
    listed kind each makes exactly one library call on the element alone:
    the Anime.js revision animates the opacity from 0 to 1, the minimal
    revision animates the transform only.  For a kind that is neither
    listed nor an inherited member, both return without a call and leave
    the whole state as it was. *)
Theorem entrance_dispatch_without_fallback
  (throws : effect -> bool) (doc : document) (e : elem) (s : state) :
  let kind := or_default (dataset doc e "animate") "fade-up" in
  let anime := AnimeJs.animateElement throws doc e s in
  let minimal := MotionMinimal.animateElement throws doc e s in
  if listed entrance_kinds kind then
    (exists call, trace (snd anime) = (trace s ++ [call])%list
                  /\ animates_opacity e call)
    /\ (exists call, trace (snd minimal) = (trace s ++ [call])%list
                     /\ animates_transform_only e call)
  else if listed inherited_names kind then
    trace (snd anime) = (trace s ++ [CallInherited kind])%list
    /\ trace (snd minimal) = (trace s ++ [CallInherited kind])%list
  else
    anime = (Returned tt, s) /\ minimal = (Returned tt, s).
Proof.
  intros kind anime minimal. subst anime minimal.
  unfold AnimeJs.animateElement, MotionMinimal.animateElement.
  unfold AnimeJs.resolve_kind, MotionMinimal.resolve_kind. fold kind.
  cbv zeta.
  pose proof (listed_names_anime e (AnimeJs.resolve_duration doc e)
                (AnimeJs.resolve_delay doc e)) as Ha.
  pose proof (listed_names_minimal e (MotionMinimal.resolve_duration e)
                (MotionMinimal.resolve_delay doc e)) as Hm.
  destruct (listed entrance_kinds kind) eqn:L; unfold listed in L.
  - pose proof L as L'. rewrite <- Ha in L. rewrite <- Hm in L'.
    destruct (get_listed _ _ L) as (call & -> & Hin).
    destruct (get_listed _ _ L') as (call' & -> & Hin').
    split.
    + exists call. split; [apply (f_equal trace (exec_invoke throws call s))|].
      exact (Forall_in _ _ _ (anime_table_animates_opacity e _ _) Hin).
    + exists call'. split; [apply (f_equal trace (exec_invoke throws call' s))|].
      exact (Forall_in _ _ _ (minimal_table_transform_only e _ _) Hin').
  - pose proof L as L'. rewrite <- Ha in L. rewrite <- Hm in L'.
    rewrite (get_unlisted _ _ L), (get_unlisted _ _ L').
    destruct (listed inherited_names kind).
    + split; [apply (f_equal trace (exec_invoke throws _ s))
             |apply (f_equal trace (exec_call_inherited _ s))].
    + split; reflexivity.
Qed.

Module GroupLemmas.
Import JS Page Controller Facts Invariants MonadLemmas ControllerLemmas.
Import DispatchLemmas HiddenLemmas KindLemmas.

Lemma full_groups_listed :
  map fst MotionFull.baseConfig = group_kinds.
Proof. reflexivity. Qed.

Lemma minimal_groups_listed :
  map fst MotionMinimal.baseConfig = group_kinds.
Proof. reflexivity. Qed.

Lemma anime_groups_listed :
  map fst AnimeJs.baseConfig = group_kinds.
Proof. reflexivity. Qed.

Lemma full_groups_fade :
  Forall (fun entry => assoc (snd entry) "opacity" = Some ["0"; "1"]%string)
         MotionFull.baseConfig.
Proof. repeat (constructor; [reflexivity|]). constructor. Qed.

Lemma anime_groups_fade :
  Forall (fun entry =>
            assoc (fst (snd entry)) "opacity" = Some ["0"; "1"]%string)
         AnimeJs.baseConfig.
Proof. repeat (constructor; [reflexivity|]). constructor. Qed.

Lemma minimal_groups_move :
  Forall (fun entry => assoc (snd entry) "opacity" = None)
         MotionMinimal.baseConfig.
Proof. repeat (constructor; [reflexivity|]). constructor. Qed.

(** Hiding the items and calling the library: what the state is after. *)
Lemma hide_then_invoke throws children call s child :
  In child children ->
  hidden child
    (exec (forEach (fun c => style_opacity c "0") children ;;
           invoke throws call) s).
Proof.
  intros Hin. apply exec_bind_keeps; [apply hide_children, Hin|].
  intros _. apply same_opacity_keeps, invoke_opacity.
Qed.

Lemma hide_trace l s :
  trace (exec (forEach (fun c => style_opacity c "0") l) s) = trace s.
Proof.
  assert (respects (unchanged trace)
            (forEach (fun c => style_opacity c "0") l)) as R.
  { apply respects_forEach; [apply InvariantLemmas.unchanged_preorder|].
    intros c s0. reflexivity. }
  exact (R s).
Qed.

Lemma hide_returns l s :
  exists s', forEach (fun c => style_opacity c "0") l s = (Returned tt, s').
Proof.
  revert s. induction l as [|x r IH]; intros s; [eexists; reflexivity|].
  cbn [forEach]. unfold mbind, M_bind, bind, style_opacity at 1, modify at 1.
  cbn [fst snd]. apply IH.
Qed.

Lemma hide_then_invoke_trace throws children call s :
  trace (exec (forEach (fun c => style_opacity c "0") children ;;
               invoke throws call) s)
  = (trace s ++ [call])%list.
Proof.
  rewrite exec_bind.
  destruct (hide_returns children s) as (s' & E).
  pose proof (hide_trace children s) as T. unfold exec in T.
  rewrite E in *. cbn [fst snd] in *.
  change (trace (exec (invoke throws call) s') = (trace s ++ [call])%list).
  rewrite exec_invoke. simpl. rewrite T. reflexivity.
Qed.

End GroupLemmas.

Import GroupLemmas.

(** X7. Group dispatch, by the container's group kind.  Every revision
    makes exactly one library call over the container's items.  The full
    and the Anime.js revision hide each item first, so the items have
    inline opacity 0 after the call whether or not it throws; the minimal
    revision writes no opacity.  For a listed kind the keyframes of the
    full and the Anime.js revision animate the opacity from 0 to 1.  For a
    kind that is neither listed nor an inherited member the full and the
    minimal revision fall back to their fade-up keyframes, while the
    Anime.js revision passes no keyframes and no easing at all: its hidden
    items are never faded in. *)
Theorem group_dispatch_by_kind
  (throws : effect -> bool) (doc : document) (container : elem) (s : state) :
  let kind := or_default (dataset doc container "stagger") "fade-up" in
  let children := querySelectorAllIn doc container "staggerItem" in
  let full := exec (MotionFull.animateStaggerChildren throws doc container) s in
  let minimal :=
    exec (MotionMinimal.animateStaggerChildren throws doc container) s in
  let anime := exec (AnimeJs.animateStaggerChildren throws doc container) s in
  (trace full = (trace s ++ [MotionFull.stagger_call doc container])%list
   /\ trace minimal = (trace s ++ [MotionMinimal.stagger_call doc container])%list
   /\ trace anime = (trace s ++ [AnimeJs.stagger_call doc container])%list)
  /\ (forall child, In child children ->
        opacity full !! child = Some "0"%string
        /\ opacity anime !! child = Some "0"%string)
  /\ opacity minimal = opacity s
  /\ call_targets (MotionFull.stagger_call doc container) = map Node children
  /\ call_targets (MotionMinimal.stagger_call doc container) = map Node children
  /\ call_targets (AnimeJs.stagger_call doc container) = map Node children
  /\ if listed group_kinds kind then
       (exists kf,
          call_config (MotionFull.stagger_call doc container) = Some (Preset kf)
          /\ assoc kf "opacity" = Some ["0"; "1"]%string)
       /\ (exists kf,
             call_config (AnimeJs.stagger_call doc container) = Some (Preset kf)
             /\ assoc kf "opacity" = Some ["0"; "1"]%string)
       /\ (exists kf,
             call_config (MotionMinimal.stagger_call doc container)
             = Some (Preset kf)
             /\ assoc kf "opacity" = None)
     else if listed inherited_names kind then
       call_config (MotionFull.stagger_call doc container) = Some (Member kind)
       /\ call_config (MotionMinimal.stagger_call doc container)
          = Some (Member kind)
       /\ call_config (AnimeJs.stagger_call doc container) = Some (Preset [])
     else
       call_config (MotionFull.stagger_call doc container)
       = Some (Preset [("opacity", ["0"; "1"]);
                       ("transform", ["translateY(50px)"; "translateY(0px)"])]
                      %string)
       /\ call_config (MotionMinimal.stagger_call doc container)
          = Some (Preset [("transform",
                           ["translateY(10px)"; "translateY(0px)"])]%string)
       /\ AnimeJs.stagger_call doc container
          = Animate (map Node children) (Preset [])
              {| duration := ofZ 800;
                 delayOpt := Stagger (AnimeJs.staggerDelay doc container);
                 easingOpt := NoEasing |}.
Proof.
  intros kind children full minimal anime.
  split; [|split; [|split; [|split; [|split; [|split]]]]].
  - subst full minimal anime. repeat split.
    + apply hide_then_invoke_trace.
    + unfold MotionMinimal.animateStaggerChildren. rewrite exec_invoke.
      reflexivity.
    + apply hide_then_invoke_trace.
  - intros child Hin. split.
    + apply (hide_then_invoke throws children _ s child Hin).
    + apply (hide_then_invoke throws children _ s child Hin).
  - subst minimal. unfold MotionMinimal.animateStaggerChildren.
    apply HiddenLemmas.invoke_opacity.
  - reflexivity.
  - reflexivity.
  - unfold AnimeJs.stagger_call. destruct (get _ _) as [[? ?]| |]; reflexivity.
  - unfold MotionFull.stagger_call, MotionMinimal.stagger_call,
      AnimeJs.stagger_call. fold kind. cbv zeta.
    destruct (listed group_kinds kind) eqn:L; unfold listed in L.
    + pose proof L as L1. pose proof L as L2.
      rewrite <- full_groups_listed in L.
      rewrite <- anime_groups_listed in L1.
      rewrite <- minimal_groups_listed in L2.
      destruct (get_listed _ _ L) as (kf & -> & Hin).
      destruct (get_listed _ _ L1) as ([kf1 ease] & -> & Hin1).
      destruct (get_listed _ _ L2) as (kf2 & -> & Hin2).
      split; [|split].
      * exists kf. split; [reflexivity|].
        exact (Forall_in _ _ _ full_groups_fade Hin).
      * exists kf1. split; [reflexivity|].
        exact (Forall_in _ _ _ anime_groups_fade Hin1).
      * exists kf2. split; [reflexivity|].
        exact (Forall_in _ _ _ minimal_groups_move Hin2).
    + pose proof L as L1. pose proof L as L2.
      rewrite <- full_groups_listed in L.
      rewrite <- anime_groups_listed in L1.
      rewrite <- minimal_groups_listed in L2.
      rewrite (get_unlisted _ _ L), (get_unlisted _ _ L1),
        (get_unlisted _ _ L2).
      destruct (listed inherited_names kind); repeat split; reflexivity.
Qed.

Module ParallaxLemmas.
Import JS Page Controller Facts Invariants MonadLemmas ControllerLemmas.
Import DispatchLemmas ThrottleLemmas RevisionLemmas RunLemmas.
Import InvariantLemmas.

(** A loop whose body returns and leaves the listener, the trace and the
    transforms alone does so as a whole. *)
Lemma plain_loop {A} (f : A -> M unit) (l : list A) :
  (forall x s, fst (f x s) = Returned tt
               /\ scroll (exec (f x) s) = scroll s
               /\ trace (exec (f x) s) = trace s
               /\ transform (exec (f x) s) = transform s) ->
  forall s, fst (forEach f l s) = Returned tt
            /\ scroll (exec (forEach f l) s) = scroll s
            /\ trace (exec (forEach f l) s) = trace s
            /\ transform (exec (forEach f l) s) = transform s.
Proof.
  intros Hf. induction l as [|x l IH]; intros s; [repeat split|].
  destruct (Hf x s) as (H1 & H2 & H3 & H4).
  destruct (IH (exec (f x) s)) as (I1 & I2 & I3 & I4).
  cbn [forEach]. unfold exec in *. rewrite run_bind.
  destruct (f x s) as [[[]|] s1]; simpl in *; [|discriminate].
  rewrite I2, I3, I4. auto.
Qed.

(** The controller after setup: nothing was traced or moved, and the
    listener is installed exactly when an element opted in. *)
Lemma setup_state doc (f : elem -> M unit) :
  (forall x s, fst (f x s) = Returned tt
               /\ scroll (exec (f x) s) = scroll s
               /\ trace (exec (f x) s) = trace s
               /\ transform (exec (f x) s) = transform s) ->
  let r := exec (forEach f (querySelectorAll doc "animate") ;;
                 setupParallax doc ;; setupStaggerObservers doc) initial in
  trace r = [] /\ transform r = ∅
  /\ scroll r =
     {| listening := negb (length (querySelectorAll doc "parallax") =? 0)%nat;
        ticking := false; frameRequests := 0 |}.
Proof.
  intros Hf r. subst r.
  destruct (plain_loop f (querySelectorAll doc "animate") Hf initial)
    as (H1 & H2 & H3 & H4).
  rewrite (exec_bind_returns _ _ initial tt H1).
  fold (exec (forEach f (querySelectorAll doc "animate")) initial).
  remember (exec (forEach f (querySelectorAll doc "animate")) initial)
    as s1 eqn:E1.
  assert (fst (setupParallax doc s1) = Returned tt) as P1
    by (unfold setupParallax; destruct (_ =? _)%nat; reflexivity).
  rewrite (exec_bind_returns _ _ s1 tt P1).
  fold (exec (setupParallax doc) s1).
  destruct (plain_loop (fun container => observe StaggerObserver container)
              (querySelectorAll doc "stagger")
              (fun x s => conj eq_refl (conj eq_refl (conj eq_refl eq_refl)))
              (exec (setupParallax doc) s1)) as (_ & S2 & S3 & S4).
  unfold setupStaggerObservers. rewrite S2, S3, S4.
  unfold setupParallax. destruct (_ =? _)%nat; unfold exec; simpl.
  - rewrite H3, H4, H2. auto.
  - rewrite H3, H4. auto.
Qed.

Lemma hide_observe_plain x s :
  fst ((style_opacity x "0" ;; observe EntranceObserver x) s) = Returned tt
  /\ scroll (exec (style_opacity x "0" ;; observe EntranceObserver x) s)
     = scroll s
  /\ trace (exec (style_opacity x "0" ;; observe EntranceObserver x) s)
     = trace s
  /\ transform (exec (style_opacity x "0" ;; observe EntranceObserver x) s)
     = transform s.
Proof. repeat split. Qed.

Lemma full_ready_state doc :
  trace (MotionFull.ready doc) = [] /\ transform (MotionFull.ready doc) = ∅
  /\ scroll (MotionFull.ready doc) =
     {| listening := negb (length (querySelectorAll doc "parallax") =? 0)%nat;
        ticking := false; frameRequests := 0 |}.
Proof. apply (setup_state doc _ hide_observe_plain). Qed.

Lemma anime_ready_state doc :
  trace (AnimeJs.ready doc) = [] /\ transform (AnimeJs.ready doc) = ∅
  /\ scroll (AnimeJs.ready doc) =
     {| listening := negb (length (querySelectorAll doc "parallax") =? 0)%nat;
        ticking := false; frameRequests := 0 |}.
Proof. apply (setup_state doc _ hide_observe_plain). Qed.

Lemma minimal_ready_state doc :
  trace (MotionMinimal.ready doc) = []
  /\ transform (MotionMinimal.ready doc) = ∅
  /\ scroll (MotionMinimal.ready doc) =
     {| listening := negb (length (querySelectorAll doc "parallax") =? 0)%nat;
        ticking := false; frameRequests := 0 |}.
Proof.
  apply (setup_state doc (fun el => observe EntranceObserver el)).
  repeat split.
Qed.

(** The scroll listener under the exact throttle invariant. *)
Lemma onScroll_exact s :
  throttle_exact s ->
  throttle_exact (exec onScroll s)
  /\ ticking (scroll (exec onScroll s)) = true
  /\ trace (exec onScroll s) = trace s.
Proof.
  unfold onScroll, throttle_exact. intros [L F]. rewrite exec_bind; simpl.
  rewrite L. destruct (ticking (scroll s)) eqn:E; unfold exec; simpl.
  - rewrite E. auto.
  - auto.
Qed.

(** A frame under the exact throttle invariant: one recomputation when a
    callback is outstanding, none otherwise. *)
Lemma onFrame_exact doc v s :
  throttle_exact s ->
  let s' := exec (onFrame doc v) s in
  throttle_exact s'
  /\ ticking (scroll s') = false
  /\ recomputations (trace s')
     = (recomputations (trace s) + if ticking (scroll s) then 1 else 0)%nat.
Proof.
  unfold throttle_exact, onFrame. intros [L F]. rewrite exec_bind; simpl.
  rewrite exec_bind; simpl. rewrite F.
  destruct (ticking (scroll s)) eqn:E; simpl.
  - unfold frameCallback, exec. rewrite !run_bind.
    match goal with
    | |- context [handleScroll doc v ?s1] =>
        destruct (handleScroll_effect doc v s1) as (H1 & H2 & H3 & H4 & H5 & _);
        destruct (handleScroll doc v s1) as [[[]|] s2];
        simpl in *; [|discriminate]
    end.
    rewrite H2, H4. simpl. rewrite L, recomputations_snoc. simpl. auto.
  - unfold exec; simpl. rewrite L, E. repeat split. lia.
Qed.

(** Without a listener scroll events and frames do nothing to the
    counters. *)
Lemma onScroll_no_listener s : no_listener s -> exec onScroll s = s.
Proof.
  unfold onScroll, no_listener. intros (L & _). rewrite exec_bind; simpl.
  rewrite L. reflexivity.
Qed.

Lemma onFrame_no_listener doc v s :
  no_listener s ->
  no_listener (exec (onFrame doc v) s)
  /\ transform (exec (onFrame doc v) s) = transform s.
Proof.
  unfold onFrame, no_listener. intros (L & F & R). rewrite exec_bind; simpl.
  rewrite exec_bind; simpl. rewrite F. unfold exec; simpl. auto.
Qed.

Section Generic.

Variable doc : document.
Variable animateElement : elem -> M unit.
Variable animateStaggerChildren : elem -> M unit.
Hypothesis animateElement_quiet : forall e, quiet (animateElement e).
Hypothesis animateStaggerChildren_quiet :
  forall e, quiet (animateStaggerChildren e).

Lemma batch_scroll_rel ev s :
  match ev with ScrollEvent | AnimationFrame _ => False | _ => True end ->
  scroll_rel s (step doc animateElement animateStaggerChildren s ev).
Proof.
  destruct ev as [entries | entries | | v]; intros H; try destruct H.
  - apply handleIntersection_scroll_rel, animateElement_quiet.
  - apply staggerCallback_scroll_rel, animateStaggerChildren_quiet.
Qed.

Lemma step_throttle_exact s ev :
  throttle_exact s ->
  throttle_exact (step doc animateElement animateStaggerChildren s ev).
Proof.
  intros H. destruct ev as [entries | entries | | v].
  - destruct (batch_scroll_rel (Intersection entries) s I) as [E _].
    unfold throttle_exact. rewrite E. exact H.
  - destruct (batch_scroll_rel (StaggerIntersection entries) s I) as [E _].
    unfold throttle_exact. rewrite E. exact H.
  - apply onScroll_exact, H.
  - apply (onFrame_exact doc v s H).
Qed.

Lemma run_throttle_exact evs s :
  throttle_exact s ->
  throttle_exact
    (Controller.run doc animateElement animateStaggerChildren evs s).
Proof.
  revert s. induction evs as [|ev evs IH]; intros s H; [exact H|].
  apply IH, step_throttle_exact, H.
Qed.

Lemma step_no_listener s ev :
  no_listener s ->
  no_listener (step doc animateElement animateStaggerChildren s ev).
Proof.
  intros H. destruct ev as [entries | entries | | v].
  - destruct (batch_scroll_rel (Intersection entries) s I) as [E R].
    unfold no_listener. rewrite E, R. exact H.
  - destruct (batch_scroll_rel (StaggerIntersection entries) s I) as [E R].
    unfold no_listener. rewrite E, R. exact H.
  - unfold step; simpl. rewrite onScroll_no_listener; assumption.
  - apply (onFrame_no_listener doc v s H).
Qed.

Lemma run_no_listener evs s :
  no_listener s ->
  no_listener
    (Controller.run doc animateElement animateStaggerChildren evs s).
Proof.
  revert s. induction evs as [|ev evs IH]; intros s H; [exact H|].
  apply IH, step_no_listener, H.
Qed.

(** A burst of scroll events and the frame after it. *)
Lemma burst_frame_exact n v s :
  throttle_exact s ->
  let after :=
    Controller.run doc animateElement animateStaggerChildren
      (repeat ScrollEvent (S n) ++ [AnimationFrame v]) s in
  throttle_exact after
  /\ ticking (scroll after) = false
  /\ recomputations (trace after) = S (recomputations (trace s)).
Proof.
  intros H after. subst after.
  unfold Controller.run. rewrite fold_left_app.
  fold (Controller.run doc animateElement animateStaggerChildren
          (repeat ScrollEvent (S n)) s).
  rewrite burst_is_one_scroll. unfold step; simpl.
  destruct (onScroll_exact s H) as (H1 & H2 & H3).
  destruct (onFrame_exact doc v _ H1) as (F1 & F2 & F3).
  rewrite H2, H3 in F3. split; [exact F1|]. split; [exact F2|].
  rewrite F3. lia.
Qed.

Lemma idle_frame_exact v s :
  throttle_exact s -> ticking (scroll s) = false ->
  recomputations (trace (exec (onFrame doc v) s)) = recomputations (trace s).
Proof.
  intros H T. destruct (onFrame_exact doc v s H) as (_ & _ & F).
  rewrite F, T. lia.
Qed.

(** Counting over a whole run that ends in a burst and a frame. *)
Lemma burst_frame_count s0 evs n v v' :
  throttle_exact s0 ->
  let count l :=
    recomputations
      (trace (Controller.run doc animateElement animateStaggerChildren l s0)) in
  let burst := (repeat ScrollEvent (S n) ++ [AnimationFrame v])%list in
  count (evs ++ burst)%list = S (count evs)
  /\ count (evs ++ burst ++ [AnimationFrame v'])%list = S (count evs).
Proof.
  intros H count burst. subst count burst. cbv beta.
  pose proof (run_throttle_exact evs s0 H) as He.
  destruct (burst_frame_exact n v _ He) as (B1 & B2 & B3). cbv zeta in *.
  assert (forall l1 l2,
            Controller.run doc animateElement animateStaggerChildren
              (l1 ++ l2)%list s0
            = Controller.run doc animateElement animateStaggerChildren l2
                (Controller.run doc animateElement animateStaggerChildren
                   l1 s0)) as App
    by (intros; apply fold_left_app).
  split.
  - rewrite App. exact B3.
  - rewrite app_assoc, App, App.
    change (Controller.run doc animateElement animateStaggerChildren
              [AnimationFrame v'] ?s) with (exec (onFrame doc v') s).
    rewrite idle_frame_exact; assumption.
Qed.

End Generic.

(** The state after setup meets the invariant that fits the page. *)
Lemma listener_of_ready doc (ready : state) :
  trace ready = [] /\ transform ready = ∅
  /\ scroll ready =
     {| listening := negb (length (querySelectorAll doc "parallax") =? 0)%nat;
        ticking := false; frameRequests := 0 |} ->
  (querySelectorAll doc "parallax" <> [] -> throttle_exact ready)
  /\ (querySelectorAll doc "parallax" = [] -> no_listener ready).
Proof.
  intros (T & _ & S). unfold throttle_exact, no_listener. rewrite S, T.
  destruct (querySelectorAll doc "parallax"); simpl; split; intros H;
    try congruence; auto.
Qed.

End ParallaxLemmas.

(** X8.  Scrolling is never lost and never doubled.  On a page with at
    least one parallax element, after any events whatever, a burst of one
    or more scroll events followed by a rendered frame runs the parallax
    recomputation exactly once, and a further frame with no scroll event
    before it runs none. *)
Theorem scroll_burst_then_frame_recomputes_exactly_once
  (throws : effect -> bool) (doc : document) (evs : list event) (n : nat)
  (v v' : viewport) :
  querySelectorAll doc "parallax" <> [] ->
  let exactly_once (run : list event -> state) :=
    let count l := recomputations (trace (run l)) in
    let burst := (repeat ScrollEvent (S n) ++ [AnimationFrame v])%list in
    count (evs ++ burst)%list = S (count evs)
    /\ count (evs ++ burst ++ [AnimationFrame v'])%list = S (count evs) in
  exactly_once (MotionFull.run throws doc)
  /\ exactly_once (MotionMinimal.run throws doc)
  /\ exactly_once (AnimeJs.run throws doc).
Proof.
  intros Hp exactly_once. subst exactly_once. cbv beta zeta.
  split; [|split].
  - apply (ParallaxLemmas.burst_frame_count doc _ _
             (RevisionLemmas.full_animateElement_quiet throws doc)
             (RevisionLemmas.full_animateStaggerChildren_quiet throws doc)).
    apply (ParallaxLemmas.listener_of_ready doc _
             (ParallaxLemmas.full_ready_state doc)), Hp.
  - apply (ParallaxLemmas.burst_frame_count doc _ _
             (RevisionLemmas.minimal_animateElement_quiet throws doc)
             (RevisionLemmas.minimal_animateStaggerChildren_quiet throws doc)).
    apply (ParallaxLemmas.listener_of_ready doc _
             (ParallaxLemmas.minimal_ready_state doc)), Hp.
  - apply (ParallaxLemmas.burst_frame_count doc _ _
             (RevisionLemmas.anime_animateElement_quiet throws doc)
             (RevisionLemmas.anime_animateStaggerChildren_quiet throws doc)).
    apply (ParallaxLemmas.listener_of_ready doc _
             (ParallaxLemmas.anime_ready_state doc)), Hp.
Qed.

Lemma scroll_burst_then_frame_recomputes_exactly_once_witness :
  querySelectorAll page_parallax "parallax" <> []
  /\ recomputations
       (trace (MotionFull.run reliable page_parallax
                 ([ScrollEvent; ScrollEvent; ScrollEvent;
                   AnimationFrame frame_at_100])))
     = 1%nat.
Proof.
  assert (querySelectorAll page_parallax "parallax" <> []) as Hp
    by (vm_compute; discriminate).
  split; [exact Hp|].
  exact (proj1 (proj1 (scroll_burst_then_frame_recomputes_exactly_once
                         reliable page_parallax [] 2 frame_at_100
                         frame_at_100 Hp))).
Defined.

(** X9.  A page without parallax elements gets no scroll listener: over
    any run, in each revision, no frame callback is ever queued and no
    recomputation ever happens, however many scroll events and frames
    arrive. *)
Theorem no_parallax_element_no_listener
  (throws : effect -> bool) (doc : document) (evs : list event) :
  querySelectorAll doc "parallax" = [] ->
  no_listener (MotionFull.run throws doc evs)
  /\ no_listener (MotionMinimal.run throws doc evs)
  /\ no_listener (AnimeJs.run throws doc evs).
Proof.
  intros Hp.
  pose proof (proj2 (ParallaxLemmas.listener_of_ready doc _
                       (ParallaxLemmas.full_ready_state doc)) Hp) as Hf.
  pose proof (proj2 (ParallaxLemmas.listener_of_ready doc _
                       (ParallaxLemmas.minimal_ready_state doc)) Hp) as Hm.
  pose proof (proj2 (ParallaxLemmas.listener_of_ready doc _
                       (ParallaxLemmas.anime_ready_state doc)) Hp) as Ha.
  split; [|split].
  - apply ParallaxLemmas.run_no_listener;
      [apply RevisionLemmas.full_animateElement_quiet
      |apply RevisionLemmas.full_animateStaggerChildren_quiet | exact Hf].
  - apply ParallaxLemmas.run_no_listener;
      [apply RevisionLemmas.minimal_animateElement_quiet
      |apply RevisionLemmas.minimal_animateStaggerChildren_quiet | exact Hm].
  - apply ParallaxLemmas.run_no_listener;
      [apply RevisionLemmas.anime_animateElement_quiet
      |apply RevisionLemmas.anime_animateStaggerChildren_quiet | exact Ha].
Qed.

Lemma no_parallax_element_no_listener_witness :
  querySelectorAll page_two "parallax" = []
  /\ no_listener
       (MotionFull.run reliable page_two
          [ScrollEvent; AnimationFrame frame_at_100]).
Proof.
  assert (querySelectorAll page_two "parallax" = []) as Hp by reflexivity.
  split; [exact Hp|].
  exact (proj1 (no_parallax_element_no_listener reliable page_two
                  [ScrollEvent; AnimationFrame frame_at_100] Hp)).
Defined.

Module BandLemmas.
Import JS Page Controller Facts Invariants MonadLemmas ControllerLemmas.

Lemma Qlt_bool_iff (x y : Q) : Qlt_bool x y = true <-> (x < y)%Q.
Proof.
  unfold Qlt_bool. rewrite negb_true_iff, <- not_true_iff_false, Qle_bool_iff.
  split; [apply Qnot_le_lt | apply Qlt_not_le].
Qed.



End BandLemmas.


(** X11.  The band and the offset in plain geometry, numbers taken as
    exact rationals.  An element is inside its band exactly when its box
    overlaps the viewport vertically (its top above the lower edge, its
    bottom below the upper edge); the scroll position cancels out.  For a
    finite speed the offset is a tenth of speed times the distance of the
    element's top from the lower edge, negated for direction [down], and
    inside the band its magnitude stays below a tenth of the speed's
    magnitude times viewport height plus element height. *)
Theorem parallax_band_is_viewport_overlap
  (doc : document) (v : viewport) (e : elem) (k : Q) :
  parallax_speed doc e = Finite k ->
  (in_band v e = true
   <-> (rectTop v e < innerHeight v /\ 0 < rectTop v e + rectHeight v e)%Q)
  /\ exists y,
       band_offset doc v e = Finite y
       /\ (y == (if points_down doc e then -1 else 1)
                * ((innerHeight v - rectTop v e) * k * (1 # 10)))%Q
       /\ (in_band v e = true ->
           Qabs y <= Qabs k * (innerHeight v + rectHeight v e) * (1 # 10))%Q.
Proof.
  intros Hk.
  assert (in_band v e = true
          <-> (rectTop v e < innerHeight v
               /\ 0 < rectTop v e + rectHeight v e)%Q) as Hband.
  { unfold in_band, scroll_progress.
    rewrite andb_true_iff, !BandLemmas.Qlt_bool_iff. split; intros [? ?];
      split; lra. }
  split; [exact Hband|].
  unfold band_offset. rewrite Hk. cbn [mul].
  set (p := scroll_progress v e).
  assert (p == innerHeight v - rectTop v e)%Q as Hp
    by (unfold p, scroll_progress; lra).
  assert (in_band v e = true ->
          Qabs (p * k * (1 # 10))
          <= Qabs k * (innerHeight v + rectHeight v e) * (1 # 10))%Q as Hb.
  { intros B. unfold in_band in B.
    rewrite andb_true_iff, !BandLemmas.Qlt_bool_iff in B. fold p in B.
    destruct B as [B0 B1].
    rewrite !Qabs_Qmult. rewrite (Qabs_pos p) by lra.
    change (Qabs (1 # 10)) with (1 # 10)%Q.
    assert (0 <= Qabs k)%Q by apply Qabs_nonneg. nra. }
  destruct (points_down doc e); cbn [neg].
  - exists (- (p * k * (1 # 10)))%Q. split; [reflexivity|].
    split; [rewrite Hp; lra|]. intros B. rewrite Qabs_opp. apply Hb, B.
  - exists (p * k * (1 # 10))%Q. split; [reflexivity|].
    split; [rewrite Hp; lra | exact Hb].
Qed.

Lemma parallax_band_is_viewport_overlap_witness :
  parallax_speed page_parallax 1%nat = Finite (5 # 10)
  /\ exists y, band_offset page_parallax frame_at_100 1%nat = Finite y
               /\ (y == -25)%Q.
Proof.
  assert (parallax_speed page_parallax 1%nat = Finite (5 # 10)) as Hk
    by reflexivity.
  split; [exact Hk|].
  destruct (proj2 (parallax_band_is_viewport_overlap page_parallax
                     frame_at_100 1%nat (5 # 10) Hk)) as (y & Hy & Hq & _).
  exists y. split; [exact Hy|]. rewrite Hq. reflexivity.
Defined.

Module NumeralLemmas.
Import JS Page Ancillary Format Invariants.
Local Open Scope Z_scope.

Lemma digit_value_nondigit (c : ascii) :
  is_digit c = false -> digit_value 10 c = None.
Proof.
  unfold is_digit, digit_value. cbv zeta. intros H.
  assert ((48 <=? Z.of_nat (nat_of_ascii c))
          && (Z.of_nat (nat_of_ascii c) <=? 57) = false) as ->.
  { apply andb_false_iff. apply andb_false_iff in H.
    destruct H as [H | H]; [left | right].
    - apply Nat.leb_gt in H. apply Z.leb_gt. lia.
    - apply Nat.leb_gt in H. apply Z.leb_gt. lia. }
  reflexivity.
Qed.

Lemma read_digits_stop (acc : Z) (count : nat) (suffix : string) :
  ends_numeral suffix = true ->
  read_digits 10 acc count suffix = (acc, count, suffix).
Proof.
  destruct suffix as [|c t]; [reflexivity|]. simpl. intros H.
  rewrite digit_value_nondigit; [reflexivity|].
  destruct (is_digit c); [discriminate | reflexivity].
Qed.

Lemma read_digits_uint (u : Decimal.uint) (acc : Z) (count : nat)
  (suffix : string) :
  ends_numeral suffix = true ->
  read_digits 10 acc count (NilEmpty.string_of_uint u ++ suffix)
  = (uint_value acc u, (count + Decimal.nb_digits u)%nat, suffix).
Proof.
  intros H. revert acc count.
  induction u; intros acc count;
    try (simpl; rewrite IHu; f_equal; f_equal; lia).
  simpl. rewrite read_digits_stop by exact H. f_equal. f_equal. lia.
Qed.

Lemma uint_value_acc (u : Decimal.uint) (p : positive) :
  uint_value (Z.pos p) u = Z.pos (Pos.of_uint_acc u p).
Proof.
  revert p. induction u; intros p; cbn [uint_value Pos.of_uint_acc];
    [reflexivity | ..];
    match goal with
    | |- uint_value ?a _ = Z.pos (Pos.of_uint_acc _ ?q) =>
        replace a with (Z.pos q) by lia; apply IHu
    end.
Qed.

Lemma uint_value_of_uint (u : Decimal.uint) :
  uint_value 0 u = Z.of_N (Pos.of_uint u).
Proof.
  induction u; cbn [uint_value Pos.of_uint]; [reflexivity | exact IHu | ..];
    match goal with
    | |- uint_value ?a _ = Z.of_N (N.pos (Pos.of_uint_acc _ ?q)) =>
        change a with (Z.pos q); apply uint_value_acc
    end.
Qed.

Lemma uint_value_to_uint (p : positive) :
  uint_value 0 (Pos.to_uint p) = Z.pos p.
Proof.
  rewrite uint_value_of_uint, DecimalPos.Unsigned.of_to. reflexivity.
Qed.


Lemma parseInt_digit_head (c : ascii) (rest : string) :
  is_digit c = true ->
  match rest with
  | String c' _ => negb (Ascii.eqb c' "x") && negb (Ascii.eqb c' "X")
  | EmptyString => true
  end = true ->
  parseInt (String c rest)
  = match read_digits 10 0 0 (String c rest) with
    | (_, O, _) => NaN
    | (v, _, _) => ofZ v
    end
  /\ parseInt (String "-" (String c rest))
    = match read_digits 10 0 0 (String c rest) with
      | (_, O, _) => NaN
      | (v, _, _) => ofZ (- v)
      end.
Proof.
  intros Hc Hx.
  destruct c as [[] [] [] [] [] [] [] []]; try discriminate Hc;
    try (split; reflexivity).
  destruct rest as [|c' t]; [split; reflexivity|].
  destruct c' as [[] [] [] [] [] [] [] []]; try discriminate Hx;
    split; reflexivity.
Qed.

Lemma uint_head (u : Decimal.uint) (suffix : string) :
  u <> Decimal.Nil -> ends_numeral suffix = true ->
  exists c rest,
    (NilEmpty.string_of_uint u ++ suffix)%string = String c rest
    /\ is_digit c = true
    /\ match rest with
       | String c' _ => negb (Ascii.eqb c' "x") && negb (Ascii.eqb c' "X")
       | EmptyString => true
       end = true.
Proof.
  intros Hu Hs.
  assert (forall v : Decimal.uint,
            match (NilEmpty.string_of_uint v ++ suffix)%string with
            | String c' _ => negb (Ascii.eqb c' "x") && negb (Ascii.eqb c' "X")
            | EmptyString => true
            end = true) as Hrest.
  { intros v. destruct v; try reflexivity. simpl.
    destruct suffix as [|c t]; [reflexivity|]. simpl in Hs.
    destruct (is_digit c); [discriminate|]. exact Hs. }
  destruct u; [congruence | ..]; simpl; do 2 eexists;
    (split; [reflexivity|]); (split; [reflexivity | apply Hrest]).
Qed.

Lemma parseInt_uint (u : Decimal.uint) (suffix : string) :
  u <> Decimal.Nil -> ends_numeral suffix = true ->
  parseInt (NilEmpty.string_of_uint u ++ suffix) = ofZ (uint_value 0 u)
  /\ parseInt (String "-" (NilEmpty.string_of_uint u ++ suffix))
     = ofZ (- uint_value 0 u).
Proof.
  intros Hu Hs.
  destruct (uint_head u suffix Hu Hs) as (c & rest & E & Hc & Hx).
  pose proof (read_digits_uint u 0 0 suffix Hs) as R.
  rewrite E in *.
  destruct (parseInt_digit_head c rest Hc Hx) as [P N].
  rewrite P, N, R.
  destruct u; [congruence | ..]; split; reflexivity.
Qed.

(** [parseInt] reads back the decimal digits of an integer, whatever
    follows them. *)
Lemma parseInt_digits (n : Z) (suffix : string) :
  ends_numeral suffix = true ->
  parseInt (digits n ++ suffix) = ofZ n.
Proof.
  intros Hs. unfold digits. destruct n as [|p|p]; simpl Z.to_int.
  - apply (parseInt_uint (Decimal.D0 Decimal.Nil) suffix); [discriminate | exact Hs].
  - pose proof (DecimalPos.Unsigned.to_uint_nonnil p) as Hn.
    cbn [NilZero.string_of_int].
    replace (NilZero.string_of_uint (Pos.to_uint p))
      with (NilEmpty.string_of_uint (Pos.to_uint p))
      by (destruct (Pos.to_uint p); [congruence | reflexivity ..]).
    destruct (parseInt_uint (Pos.to_uint p) suffix Hn Hs) as [P _].
    rewrite P, uint_value_to_uint. reflexivity.
  - pose proof (DecimalPos.Unsigned.to_uint_nonnil p) as Hn.
    cbn [NilZero.string_of_int].
    replace (NilZero.string_of_uint (Pos.to_uint p))
      with (NilEmpty.string_of_uint (Pos.to_uint p))
      by (destruct (Pos.to_uint p); [congruence | reflexivity ..]).
    destruct (parseInt_uint (Pos.to_uint p) suffix Hn Hs) as [_ N].
    change (parseInt (String "-" (NilEmpty.string_of_uint (Pos.to_uint p)
                                   ++ suffix)) = ofZ (Z.neg p)).
    rewrite N, uint_value_to_uint. reflexivity.
Qed.


Lemma ends_decimal_numeral suffix :
  ends_decimal suffix = true ->
  read_digits 10 0 0 suffix = (0, O, suffix)
  /\ forall acc count, read_digits 10 acc count suffix = (acc, count, suffix).
Proof.
  intros H.
  assert (forall acc count, read_digits 10 acc count suffix = (acc, count, suffix)) as R.
  { intros acc count. destruct suffix as [|c t]; [reflexivity|]. simpl in *.
    rewrite digit_value_nondigit; [reflexivity|].
    destruct (is_digit c); [discriminate | reflexivity]. }
  split; [apply R | exact R].
Qed.

Lemma read_digits_uint' (u : Decimal.uint) (acc : Z) (count : nat)
  (suffix : string) :
  ends_decimal suffix = true ->
  read_digits 10 acc count (NilEmpty.string_of_uint u ++ suffix)
  = (uint_value acc u, (count + Decimal.nb_digits u)%nat, suffix).
Proof.
  intros H. revert acc count.
  induction u; intros acc count;
    try (simpl; rewrite IHu; f_equal; f_equal; lia).
  simpl. rewrite (proj2 (ends_decimal_numeral suffix H)). f_equal. f_equal. lia.
Qed.

(** What [parseFloat] does after the digits of an integer part. *)
Lemma parseFloat_tail (negative : bool) (v : Z) (count : nat) (suffix : string) :
  ends_decimal suffix = true ->
  (let '(ip, icount, s1) := (v, S count, suffix) in
    let '(fp, fcount, s2) :=
      match s1 with
      | String "." r =>
          let '(fp, fcount, r') := read_digits 10 0 0 r in
          match icount, fcount with
          | O, O => (0, O, s1)
          | _, _ => (fp, fcount, r')
          end
      | _ => (0, O, s1)
      end in
    match icount, fcount with
    | O, O => NaN
    | _, _ =>
        let mantissa :=
          (inject_Z ip + inject_Z fp * Qpow10 (- Z.of_nat fcount))%Q in
        let v := (mantissa * Qpow10 (read_exponent s2))%Q in
        Finite (if negative then (- v)%Q else v)
    end)
  = Finite (if negative
            then - ((inject_Z v + inject_Z 0 * Qpow10 (- Z.of_nat 0)) * Qpow10 0)
            else (inject_Z v + inject_Z 0 * Qpow10 (- Z.of_nat 0)) * Qpow10 0)%Q.
Proof.
  intros H. destruct suffix as [|c t]; [reflexivity|].
  destruct c as [[] [] [] [] [] [] [] []]; try discriminate H; reflexivity.
Qed.

Lemma parseFloat_digit_head (c : ascii) (rest : string) :
  is_digit c = true ->
  parseFloat (String c rest)
  = (let '(ip, icount, s1) := read_digits 10 0 0 (String c rest) in
    let '(fp, fcount, s2) :=
      match s1 with
      | String "." r =>
          let '(fp, fcount, r') := read_digits 10 0 0 r in
          match icount, fcount with
          | O, O => (0, O, s1)
          | _, _ => (fp, fcount, r')
          end
      | _ => (0, O, s1)
      end in
    match icount, fcount with
    | O, O => NaN
    | _, _ =>
        let mantissa :=
          (inject_Z ip + inject_Z fp * Qpow10 (- Z.of_nat fcount))%Q in
        let v := (mantissa * Qpow10 (read_exponent s2))%Q in
        Finite (if false then (- v)%Q else v)
    end)
  /\ parseFloat (String "-" (String c rest))
  = (let '(ip, icount, s1) := read_digits 10 0 0 (String c rest) in
    let '(fp, fcount, s2) :=
      match s1 with
      | String "." r =>
          let '(fp, fcount, r') := read_digits 10 0 0 r in
          match icount, fcount with
          | O, O => (0, O, s1)
          | _, _ => (fp, fcount, r')
          end
      | _ => (0, O, s1)
      end in
    match icount, fcount with
    | O, O => NaN
    | _, _ =>
        let mantissa :=
          (inject_Z ip + inject_Z fp * Qpow10 (- Z.of_nat fcount))%Q in
        let v := (mantissa * Qpow10 (read_exponent s2))%Q in
        Finite (if true then (- v)%Q else v)
    end).
Proof.
  intros Hc.
  destruct c as [[] [] [] [] [] [] [] []]; try discriminate Hc;
    split; reflexivity.
Qed.

Lemma parseFloat_uint (u : Decimal.uint) (suffix : string) :
  u <> Decimal.Nil -> ends_decimal suffix = true ->
  (exists q, parseFloat (NilEmpty.string_of_uint u ++ suffix) = Finite q
             /\ (q == inject_Z (uint_value 0 u))%Q)
  /\ (exists q, parseFloat (String "-" (NilEmpty.string_of_uint u ++ suffix))
                = Finite q
                /\ (q == inject_Z (- uint_value 0 u))%Q).
Proof.
  intros Hu Hs.
  pose proof (read_digits_uint' u 0 0 suffix Hs) as R.
  assert (exists c rest,
            (NilEmpty.string_of_uint u ++ suffix)%string = String c rest
            /\ is_digit c = true) as (c & rest & E & Hc)
    by (destruct u; [congruence | ..]; simpl; do 2 eexists; split; reflexivity).
  assert (exists k, (0 + Decimal.nb_digits u)%nat = S k) as [k Hk]
    by (destruct u; [congruence | ..]; simpl; eexists; reflexivity).
  rewrite E, Hk in *.
  destruct (parseFloat_digit_head c rest Hc) as [P N].
  rewrite P, N, R.
  rewrite (parseFloat_tail false _ k suffix Hs).
  rewrite (parseFloat_tail true _ k suffix Hs).
  split; eexists; (split; [reflexivity|]).
  - change (Qpow10 (- Z.of_nat 0)) with 1%Q. change (Qpow10 0) with 1%Q.
    change (inject_Z 0) with 0%Q. ring.
  - change (Qpow10 (- Z.of_nat 0)) with 1%Q. change (Qpow10 0) with 1%Q.
    change (inject_Z 0) with 0%Q. rewrite inject_Z_opp. ring.
Qed.

Lemma digits_shape (n : Z) :
  exists u, u <> Decimal.Nil
            /\ uint_value 0 u = Z.abs n
            /\ digits n = if n <? 0
                          then String "-" (NilEmpty.string_of_uint u)
                          else NilEmpty.string_of_uint u.
Proof.
  unfold digits. destruct n as [|p|p]; simpl Z.to_int.
  - exists (Decimal.D0 Decimal.Nil). repeat split. discriminate.
  - pose proof (DecimalPos.Unsigned.to_uint_nonnil p) as Hn.
    exists (Pos.to_uint p). split; [exact Hn|].
    split; [apply uint_value_to_uint|]. simpl.
    destruct (Pos.to_uint p); [congruence | reflexivity ..].
  - pose proof (DecimalPos.Unsigned.to_uint_nonnil p) as Hn.
    exists (Pos.to_uint p). split; [exact Hn|].
    split; [apply uint_value_to_uint|]. simpl.
    destruct (Pos.to_uint p); [congruence | reflexivity ..].
Qed.

Lemma parseFloat_digits (n : Z) (suffix : string) :
  ends_decimal suffix = true ->
  exists q, parseFloat (digits n ++ suffix) = Finite q /\ (q == inject_Z n)%Q.
Proof.
  intros Hs. destruct (digits_shape n) as (u & Hu & Hv & ->).
  destruct (parseFloat_uint u suffix Hu Hs) as [(q & P & Hq) (q' & N & Hq')].
  destruct (n <? 0) eqn:E.
  - apply Z.ltb_lt in E. exists q'. split; [exact N|].
    rewrite Hq', Hv. f_equiv. lia.
  - apply Z.ltb_ge in E. exists q. split; [exact P|].
    rewrite Hq, Hv. f_equiv. lia.
Qed.

Lemma includes_app (a b : string) (c : ascii) :
  includes (a ++ b) c = includes a c || includes b c.
Proof.
  induction a as [|x a IH]; simpl; [reflexivity|].
  rewrite IH. apply orb_assoc.
Qed.

Lemma includes_uint (u : Decimal.uint) :
  includes (NilEmpty.string_of_uint u) "." = false.
Proof. induction u; simpl; auto. Qed.

Lemma includes_digits (n : Z) : includes (digits n) "." = false.
Proof.
  destruct (digits_shape n) as (u & _ & _ & ->).
  destruct (n <? 0); simpl; apply includes_uint.
Qed.

Lemma round_half_up_integer (q : Q) (n : Z) :
  (q == inject_Z n)%Q -> round_half_up q = n.
Proof.
  intros H. unfold round_half_up.
  rewrite (Qfloor_comp _ (inject_Z n + (1 # 2))) by (rewrite H; reflexivity).
  unfold Qfloor, Qplus, inject_Z. cbn [Qnum Qden].
  change (Z.pos (1 * 2)) with 2. change (Z.pos 1) with 1.
  rewrite Z.mul_1_l. rewrite Z.div_add_l by discriminate.
  change (1 / 2) with 0. lia.
Qed.

(** The counter of an integer target: what it shows at a progress, and
    that it ends on the digits it was given. *)
Lemma counter_text_integer (n : Z) (suffix : string) (p : Q) :
  ends_decimal suffix = true -> includes suffix "." = false ->
  counter_text (digits n ++ suffix) (Finite p)
  = integer_toString (round_half_up (p * inject_Z n)).
Proof.
  intros Hs Hp. unfold counter_text.
  rewrite includes_app, includes_digits, Hp. cbn [orb].
  destruct (parseFloat_digits n suffix Hs) as (q & -> & Hq).
  cbn [mul round_toString]. f_equal. unfold round_half_up.
  apply Qfloor_comp. rewrite Hq. reflexivity.
Qed.
End NumeralLemmas.

(** X12.  Numeric options read back.  When the delay and duration
    attributes hold the decimal digits of an integer of magnitude at most
    2^53 (the range in which the host's numbers hold every integer),
    followed by nothing or by a unit that starts neither with a digit nor
    with [x], option resolution yields exactly that integer: divided by
    1000 in the two Motion One revisions, as it stands in the Anime.js
    revision.  The minimal revision resolves the delay alike and ignores
    the duration. *)
Theorem numeric_options_read_back
  (doc : document) (e : elem) (delay duration : Z) (unit1 unit2 : string) :
  (Z.abs delay <= safe_integer)%Z -> (Z.abs duration <= safe_integer)%Z ->
  dataset doc e "delay" = Some (digits delay ++ unit1)%string ->
  dataset doc e "duration" = Some (digits duration ++ unit2)%string ->
  ends_numeral unit1 = true -> ends_numeral unit2 = true ->
  MotionFull.resolve_delay doc e = Finite (inject_Z delay / inject_Z 1000)
  /\ MotionFull.resolve_duration doc e
     = Finite (inject_Z duration / inject_Z 1000)
  /\ MotionMinimal.resolve_delay doc e
     = Finite (inject_Z delay / inject_Z 1000)
  /\ MotionMinimal.resolve_duration e = Finite (3 # 10)
  /\ AnimeJs.resolve_delay doc e = ofZ delay
  /\ AnimeJs.resolve_duration doc e = ofZ duration.
Proof.
  intros _ _ Hd Hu H1 H2.
  assert (forall n suffix d,
            or_default (Some (digits n ++ suffix)%string) d
            = (digits n ++ suffix)%string) as Hor.
  { intros n suffix d.
    destruct (NumeralLemmas.digits_shape n) as (u & Hu' & _ & ->).
    destruct (n <? 0)%Z; [reflexivity|].
    destruct u; [congruence | reflexivity ..]. }
  unfold MotionFull.resolve_delay, MotionFull.resolve_duration,
    MotionMinimal.resolve_delay, MotionMinimal.resolve_duration,
    AnimeJs.resolve_delay, AnimeJs.resolve_duration.
  rewrite Hd, Hu, !Hor.
  rewrite (NumeralLemmas.parseInt_digits delay unit1 H1).
  rewrite (NumeralLemmas.parseInt_digits duration unit2 H2).
  repeat split; reflexivity.
Qed.

Lemma numeric_options_read_back_witness :
  MotionFull.resolve_delay page_units 1%nat
  = Finite (inject_Z 200 / inject_Z 1000)
  /\ AnimeJs.resolve_duration page_units 1%nat = ofZ 1500.
Proof.
  assert (Z.abs 200 <= safe_integer)%Z as B1 by (vm_compute; discriminate).
  assert (Z.abs 1500 <= safe_integer)%Z as B2 by (vm_compute; discriminate).
  pose proof (numeric_options_read_back page_units 1%nat 200 1500
                "ms"%string EmptyString B1 B2 eq_refl eq_refl eq_refl eq_refl)
    as (H1 & _ & _ & _ & _ & H6).
  split; [exact H1 | exact H6].
Defined.

(** X13.  A counter ends on the integer it was given.  For a target
    literal made of the decimal digits of an integer of magnitude at most
    2^53 (the range in which the host's numbers hold every integer),
    followed by nothing or by a suffix without a point that starts neither
    with a digit nor with [e], the text at progress 1 is those digits
    again, without the suffix, and the text at progress 0 is ["0"]. *)
Theorem counter_ends_on_its_integer_target (n : Z) (suffix : string) :
  (Z.abs n <= safe_integer)%Z ->
  ends_decimal suffix = true -> includes suffix "." = false ->
  counter_text (digits n ++ suffix) (Finite 1) = digits n
  /\ counter_text (digits n ++ suffix) (Finite 0) = "0"%string.
Proof.
  intros Hn Hs Hp. rewrite !NumeralLemmas.counter_text_integer by assumption.
  rewrite (NumeralLemmas.round_half_up_integer (1 * inject_Z n) n)
    by apply Qmult_1_l.
  rewrite (NumeralLemmas.round_half_up_integer (0 * inject_Z n) 0)
    by apply Qmult_0_l.
  unfold integer_toString.
  assert ((Z.abs n <? ten21)%Z = true) as ->.
  { apply Z.ltb_lt. apply Z.le_lt_trans with safe_integer; [exact Hn|].
    reflexivity. }
  split; reflexivity.
Qed.

Lemma counter_ends_on_its_integer_target_witness :
  counter_text "100+" (Finite 1) = "100"%string.
Proof.
  assert (Z.abs 100 <= safe_integer)%Z as B by (vm_compute; discriminate).
  apply (proj1 (counter_ends_on_its_integer_target 100 "+"%string
                  B eq_refl eq_refl)).
Defined.

Lemma group_dispatch_by_kind_witness :
  opacity (exec (AnimeJs.animateStaggerChildren reliable page_grid_unknown
                   1%nat) initial) !! 2%nat = Some "0"%string
  /\ call_config (AnimeJs.stagger_call page_grid_unknown 1%nat)
     = Some (Preset []).
Proof.
  pose proof (group_dispatch_by_kind reliable page_grid_unknown 1%nat initial)
    as (_ & H & _ & _ & _ & _ & K).
  split.
  - apply (H 2%nat). left. reflexivity.
  - cbv zeta in K.
    change (listed group_kinds
              (or_default (dataset page_grid_unknown 1%nat "stagger")
                 "fade-up")) with false in K.
    change (listed inherited_names
              (or_default (dataset page_grid_unknown 1%nat "stagger")
                 "fade-up")) with false in K.
    cbv iota in K. destruct K as (_ & _ & K). rewrite K. reflexivity.
Defined.

Module CounterLemmas.
Import JS Page Controller Ancillary Facts Invariants Examples MonadLemmas.

Lemma unobserve_targets o x s o' :
  targets (exec (unobserve o x) s) o' =
  if observer_eqb o o'
  then List.filter (fun y => negb (y =? x)%nat) (targets s o')
  else targets s o'.
Proof. reflexivity. Qed.

Lemma filter_removes (x : elem) (l : list elem) :
  ~ In x (List.filter (fun y => negb (y =? x)%nat) l).
Proof.
  intros H. apply filter_In in H as [_ H]. rewrite Nat.eqb_refl in H.
  discriminate.
Qed.

Section Counter.

Variable throws : effect -> bool.
Variable doc : document.
Variable counter_duration : elem -> number.

(** One entry of a batch: either the library throws and nothing but the
    trace changes, or the entry is done and, when it intersects, its
    element is no longer observed. *)
Lemma counter_entry en s :
  let r := counterObserverCallback throws doc counter_duration [en] s in
  opacity (snd r) = opacity s
  /\ (forall o x, In x (targets (snd r) o) -> In x (targets s o))
  /\ (forall x, ~ In x (targets s CounterObserver) ->
                ~ In x (targets (snd r) CounterObserver))
  /\ match fst r with
     | Threw => isIntersecting en = true /\ targets (snd r) = targets s
     | Returned _ =>
         isIntersecting en = true ->
         ~ In (entryTarget en) (targets (snd r) CounterObserver)
     end.
Proof.
  unfold counterObserverCallback. cbn [forEach].
  assert (forall (t : list elem) x,
            In x (List.filter (fun y => negb (y =? entryTarget en)%nat) t)
            -> In x t) as Hsub
    by (intros t x H; apply filter_In in H; tauto).
  destruct (isIntersecting en) eqn:I.
  2:{ simpl. repeat split; auto. discriminate. }
  destruct (negb (isNaN (parseFloat
              (or_default (dataset doc (entryTarget en) "counter") "0")))).
  - unfold invoke. rewrite !run_bind. cbn [record modify].
    destruct (throws _); simpl.
    + repeat split; auto.
    + split; [reflexivity|]. split; [|split].
      * intros o x. destruct o; simpl; auto.
      * intros x Hx H. apply Hx, Hsub, H.
      * intros _. apply filter_removes.
  - rewrite !run_bind. simpl.
    split; [reflexivity|]. split; [|split].
    + intros o x. destruct o; simpl; auto.
    + intros x Hx H. apply Hx, Hsub, H.
    + intros _. apply filter_removes.
Qed.

Lemma counter_cons en entries s :
  counterObserverCallback throws doc counter_duration (en :: entries) s
  = match counterObserverCallback throws doc counter_duration [en] s with
    | (Returned _, s') =>
        counterObserverCallback throws doc counter_duration entries s'
    | (Threw, s') => (Threw, s')
    end.
Proof.
  apply (forEach_app _ [en] entries s).
Qed.

Lemma counter_batch entries s :
  let r := counterObserverCallback throws doc counter_duration entries s in
  opacity (snd r) = opacity s
  /\ (forall o x, In x (targets (snd r) o) -> In x (targets s o))
  /\ (forall x, ~ In x (targets s CounterObserver) ->
                ~ In x (targets (snd r) CounterObserver))
  /\ (fst r = Returned tt ->
      forall en, In en entries -> isIntersecting en = true ->
                 ~ In (entryTarget en) (targets (snd r) CounterObserver)).
Proof.
  revert s. induction entries as [|en entries IH]; intros s.
  - simpl. repeat split; auto.
  - cbv zeta. rewrite counter_cons.
    destruct (counter_entry en s) as (E1 & E2 & E3 & E4).
    destruct (counterObserverCallback throws doc counter_duration [en] s)
      as [[[]|] s1]; cbn [fst snd] in *.
    + destruct (IH s1) as (I1 & I2 & I3 & I4). cbv zeta in *.
      split; [congruence|]. split; [auto|]. split; [auto|].
      intros Hr en' [<- | Hin] Hi; [apply I3, E4, Hi | apply I4; assumption].
    + repeat split; auto. discriminate.
Qed.

(** The library throws on the first entry of a batch. *)
Lemma counter_throw en rest s :
  isIntersecting en = true ->
  isNaN (parseFloat (or_default (dataset doc (entryTarget en) "counter")
                       "0")) = false ->
  throws (Progress (entryTarget en)
            {| duration := counter_duration (entryTarget en);
               delayOpt := NoDelay;
               easingOpt := Curve "ease-out" |}) = true ->
  let r :=
    counterObserverCallback throws doc counter_duration (en :: rest) s in
  fst r = Threw /\ targets (snd r) = targets s.
Proof.
  intros Hi Hn Ht.
  rewrite counter_cons.
  unfold counterObserverCallback at 1. cbn [forEach].
  rewrite Hi, Hn. cbn [negb]. unfold invoke.
  rewrite !run_bind. cbn [record modify]. rewrite Ht.
  split; reflexivity.
Qed.

End Counter.

End CounterLemmas.

(** X14.  A counter is started once.  The counter callback never adds an
    observed element and never writes an inline opacity.  When it returns,
    no intersecting entry of the batch is observed any longer, whether or
    not its target parsed as a number.  When the library throws on the
    first entry, the callback ends there and the observed elements are
    what they were: the element is still observed, so its next
    intersection starts it again. *)
Theorem counter_is_one_shot
  (throws : effect -> bool) (doc : document) (counter_duration : elem -> number)
  (entries : list entry) (s : state) :
  let r := counterObserverCallback throws doc counter_duration entries s in
  (forall o x, In x (targets (snd r) o) -> In x (targets s o))
  /\ opacity (snd r) = opacity s
  /\ (fst r = Returned tt ->
      forall en, In en entries -> isIntersecting en = true ->
                 ~ In (entryTarget en) (targets (snd r) CounterObserver))
  /\ (forall en rest,
        entries = en :: rest -> isIntersecting en = true ->
        isNaN (parseFloat (or_default (dataset doc (entryTarget en) "counter")
                             "0")) = false ->
        throws (Progress (entryTarget en)
                  {| duration := counter_duration (entryTarget en);
                     delayOpt := NoDelay;
                     easingOpt := Curve "ease-out" |}) = true ->
        fst r = Threw /\ targets (snd r) = targets s).
Proof.
  intros r. subst r.
  destruct (CounterLemmas.counter_batch throws doc counter_duration entries s)
    as (H1 & H2 & _ & H4). cbv zeta in *.
  split; [exact H2|]. split; [exact H1|]. split; [exact H4|].
  intros en rest -> Hi Hn Ht.
  apply (CounterLemmas.counter_throw throws doc counter_duration en rest s
           Hi Hn Ht).
Qed.

Lemma counter_is_one_shot_witness :
  In 1%nat (targets (exec (setupCounterAnimations page_counters) initial)
              CounterObserver)
  /\ ~ In 1%nat
        (targets
           (snd (counterObserverCallback reliable page_counters
                   (fun _ => Finite (8 # 10)) [visible 1%nat]
                   (exec (setupCounterAnimations page_counters) initial)))
           CounterObserver).
Proof.
  split; [left; reflexivity|].
  apply (proj1 (proj2 (proj2 (counter_is_one_shot reliable page_counters
                                (fun _ => Finite (8 # 10)) [visible 1%nat]
                                (exec (setupCounterAnimations page_counters)
                                      initial))))
           eq_refl (visible 1%nat)); [left; reflexivity | reflexivity].
Defined.

Module SplitLemmas.
Import JS Page Ancillary Invariants.
Local Open Scope string_scope.

Lemma append_cons (x : ascii) (a b : string) :
  String x a ++ b = String x (a ++ b).
Proof. reflexivity. Qed.

Lemma append_assoc (a b c : string) : (a ++ b) ++ c = a ++ (b ++ c).
Proof.
  induction a as [|x a IH]; [reflexivity|].
  rewrite !append_cons, IH. reflexivity.
Qed.

Lemma append_empty (a : string) : a ++ "" = a.
Proof.
  induction a as [|x a IH]; [reflexivity|].
  rewrite append_cons, IH. reflexivity.
Qed.

Lemma includes_append (a b : string) (c : ascii) :
  includes (a ++ b) c = includes a c || includes b c.
Proof.
  induction a as [|x a IH]; simpl; [reflexivity|].
  rewrite IH. apply orb_assoc.
Qed.

Lemma split_on_length (cur s : string) :
  length (split_on " " cur s) = S (count_spaces s).
Proof.
  revert cur. induction s as [|c s IH]; intros cur; simpl; [reflexivity|].
  destruct (Ascii.eqb c " "); simpl; rewrite IH; reflexivity.
Qed.

Lemma split_on_join_with_space (cur s : string) :
  join_with_space (split_on " " cur s) = cur ++ s.
Proof.
  revert cur. induction s as [|c s IH]; intros cur; simpl.
  - symmetry. apply append_empty.
  - destruct (Ascii.eqb c " ") eqn:E.
    + apply Ascii.eqb_eq in E. subst c.
      specialize (IH ""). simpl in IH.
      destruct (split_on " " "" s) eqn:Es.
      * destruct s; simpl in Es; [discriminate|].
        destruct (Ascii.eqb _ _); discriminate.
      * change (join_with_space (cur :: s0 :: l))
          with (cur ++ String " " (join_with_space (s0 :: l))).
        rewrite IH. reflexivity.
    + rewrite IH, append_assoc. reflexivity.
Qed.

Lemma split_on_join (cur s : string) :
  join (split_on " " cur s) = cur ++ remove_spaces s.
Proof.
  revert cur. induction s as [|c s IH]; intros cur; simpl.
  - reflexivity.
  - destruct (Ascii.eqb c " "); simpl.
    + rewrite IH. reflexivity.
    + rewrite IH, append_assoc. reflexivity.
Qed.

Lemma split_on_no_space (cur s : string) :
  includes cur " " = false ->
  Forall (fun w => includes w " " = false) (split_on " " cur s).
Proof.
  revert cur. induction s as [|c s IH]; intros cur H; simpl.
  - constructor; [exact H | constructor].
  - destruct (Ascii.eqb c " ") eqn:E.
    + constructor; [exact H | apply IH; reflexivity].
    + apply IH. rewrite includes_append, H. simpl. rewrite E. reflexivity.
Qed.

Lemma split_chars_length (s : string) :
  length (split_chars s) = String.length s.
Proof. induction s as [|c s IH]; simpl; [reflexivity | rewrite IH; reflexivity]. Qed.

Lemma split_chars_nth (s : string) (i : nat) :
  nth_error (split_chars s) i = char_at s i.
Proof.
  revert i. induction s as [|c s IH]; intros [|i]; simpl; auto.
Qed.

Lemma text_of_chars_length (s : string) :
  String.length (text_of_chars s) = String.length s.
Proof.
  unfold text_of_chars. induction s as [|c s IH]; [reflexivity|].
  cbn [split_chars map join fold_right].
  destruct (String.eqb (String c "") " "); unfold nbsp;
    rewrite append_cons; cbn [String.length]; f_equal; exact IH.
Qed.

End SplitLemmas.

(** X15.  The text reveal splits without loss, for a text that holds none
    of the characters the HTML parser treats specially ([<], [&], NUL,
    carriage return): the text is written to [innerHTML] unescaped, and
    only such a text comes back as it was written.  In chars mode there is
    one unit per character of the text, the unit at an index wraps the
    character at that index, and the text content keeps its length.  In
    words mode there is one unit more than the text has spaces (so one
    empty unit for an empty text, and empty units between consecutive
    spaces), no word holds a space, and the words put together again with
    single spaces give the text back; the text content of the element
    afterwards is the text with its spaces removed. *)
Theorem text_is_split_without_loss (text : string) :
  markup_free text = true ->
  length (char_units text) = String.length text
  /\ (forall i, nth_error (char_units text) i
                = option_map char_span (char_at text i))
  /\ String.length (text_of_chars text) = String.length text
  /\ length (word_units text) = S (count_spaces text)
  /\ join_with_space (split text " ") = text
  /\ List.Forall (fun w => includes w " " = false) (split text " ")
  /\ text_of_words text = remove_spaces text.
Proof.
  intros _. unfold char_units, word_units, text_of_words, split.
  split; [rewrite length_map; apply SplitLemmas.split_chars_length|].
  split; [intros i; rewrite nth_error_map, SplitLemmas.split_chars_nth;
          reflexivity|].
  split; [apply SplitLemmas.text_of_chars_length|].
  split; [rewrite length_map; apply SplitLemmas.split_on_length|].
  split; [apply (SplitLemmas.split_on_join_with_space EmptyString)|].
  split; [apply SplitLemmas.split_on_no_space; reflexivity|].
  apply (SplitLemmas.split_on_join EmptyString).
Qed.

Lemma text_is_split_without_loss_witness :
  length (word_units "Hi there") = 2
  /\ text_of_words "Hi there" = "Hithere"%string.
Proof.
  pose proof (text_is_split_without_loss "Hi there" eq_refl)
    as (_ & _ & _ & Hw & _ & _ & Ht).
  split; [exact Hw | exact Ht].
Defined.

Import Magnetic.






Module RevealLemmas.
Import JS Page Controller Ancillary Facts Invariants Examples MonadLemmas.

Section Reveal.

Variable doc : document.
Variable animate_chars : list target -> M unit.
Variable animate_words : list target -> M unit.
Hypothesis animate_chars_plain :
  forall l s, targets (exec (animate_chars l) s) = targets s
              /\ opacity (exec (animate_chars l) s) = opacity s.
Hypothesis animate_words_plain :
  forall l s, targets (exec (animate_words l) s) = targets s
              /\ opacity (exec (animate_words l) s) = opacity s.

Lemma text_entry en s :
  let r := textObserverCallback doc animate_chars animate_words [en] s in
  opacity (snd r) = opacity s
  /\ (forall o x, In x (targets (snd r) o) -> In x (targets s o))
  /\ (forall x, ~ In x (targets s TextObserver) ->
                ~ In x (targets (snd r) TextObserver))
  /\ (fst r = Returned tt -> isIntersecting en = true ->
      ~ In (entryTarget en) (targets (snd r) TextObserver)).
Proof.
  unfold textObserverCallback. cbn [forEach].
  assert (forall (t : list elem) x,
            In x (List.filter (fun y => negb (y =? entryTarget en)%nat) t)
            -> In x t) as Hsub
    by (intros t x H; apply filter_In in H; tauto).
  destruct (isIntersecting en) eqn:I.
  2:{ simpl. repeat split; auto. discriminate. }
  rewrite !run_bind. cbn [read].
  destruct (String.eqb _ "chars").
  - repeat (rewrite !run_bind; cbn [modify set_textContent]).
    match goal with
    | |- context [animate_chars ?l ?s1] =>
        destruct (animate_chars_plain l s1) as [Ht Ho]; unfold exec in Ht, Ho;
        destruct (animate_chars l s1) as [[[]|] s2]
    end; simpl in *.
    + rewrite Ho. split; [reflexivity|]. split; [|split].
      * intros o x. rewrite Ht. destruct o; simpl; auto.
      * intros x Hx H. apply Hx. rewrite Ht in H. apply Hsub in H. exact H.
      * intros _ _. apply CounterLemmas.filter_removes.
    + rewrite Ho, Ht. repeat split; auto. discriminate.
  - repeat (rewrite !run_bind; cbn [modify set_textContent]).
    match goal with
    | |- context [animate_words ?l ?s1] =>
        destruct (animate_words_plain l s1) as [Ht Ho]; unfold exec in Ht, Ho;
        destruct (animate_words l s1) as [[[]|] s2]
    end; simpl in *.
    + rewrite Ho. split; [reflexivity|]. split; [|split].
      * intros o x. rewrite Ht. destruct o; simpl; auto.
      * intros x Hx H. apply Hx. rewrite Ht in H. apply Hsub in H. exact H.
      * intros _ _. apply CounterLemmas.filter_removes.
    + rewrite Ho, Ht. repeat split; auto. discriminate.
Qed.

Lemma text_cons en entries s :
  textObserverCallback doc animate_chars animate_words (en :: entries) s
  = match textObserverCallback doc animate_chars animate_words [en] s with
    | (Returned _, s') =>
        textObserverCallback doc animate_chars animate_words entries s'
    | (Threw, s') => (Threw, s')
    end.
Proof. apply (forEach_app _ [en] entries s). Qed.

Lemma text_batch entries s :
  let r := textObserverCallback doc animate_chars animate_words entries s in
  opacity (snd r) = opacity s
  /\ (forall o x, In x (targets (snd r) o) -> In x (targets s o))
  /\ (forall x, ~ In x (targets s TextObserver) ->
                ~ In x (targets (snd r) TextObserver))
  /\ (fst r = Returned tt ->
      forall en, In en entries -> isIntersecting en = true ->
                 ~ In (entryTarget en) (targets (snd r) TextObserver)).
Proof.
  revert s. induction entries as [|en entries IH]; intros s.
  - simpl. repeat split; auto.
  - cbv zeta. rewrite text_cons.
    destruct (text_entry en s) as (E1 & E2 & E3 & E4).
    destruct (textObserverCallback doc animate_chars animate_words [en] s)
      as [[[]|] s1]; cbn [fst snd] in *.
    + destruct (IH s1) as (I1 & I2 & I3 & I4). cbv zeta in *.
      split; [congruence|]. split; [auto|]. split; [auto|].
      intros Hr en' [<- | Hin] Hi; [apply I3, E4; auto | apply I4; assumption].
    + repeat split; auto. discriminate.
Qed.

End Reveal.

Lemma invoke_plain throws call s :
  targets (exec (invoke throws call) s) = targets s
  /\ opacity (exec (invoke throws call) s) = opacity s.
Proof.
  unfold invoke. rewrite exec_bind. cbn [record modify].
  destruct (throws call); split; reflexivity.
Qed.

End RevealLemmas.

Module GlueLemmas.
Import JS Page Ancillary Invariants.
Local Open Scope string_scope.

Lemma split_on_spaceless (cur s : string) :
  split_on " " cur (remove_spaces s) = [cur ++ remove_spaces s].
Proof.
  revert cur. induction s as [|c s IH]; intros cur; simpl.
  - rewrite SplitLemmas.append_empty. reflexivity.
  - destruct (Ascii.eqb c " ") eqn:E; [apply IH|].
    simpl. rewrite E, IH, SplitLemmas.append_assoc. reflexivity.
Qed.

End GlueLemmas.

(** X17.  A text reveal is started once.  In the full Motion One and the
    Anime.js revision the text callback never adds an observed element and
    never writes an inline opacity (only the timer of the setup shows the
    text); when it returns, no intersecting entry of the batch is observed
    any longer. *)
Theorem text_reveal_is_one_shot
  (throws : effect -> bool) (doc : document) (entries : list entry)
  (s : state) :
  let one_shot (r : outcome unit * state) :=
    (forall o x, In x (targets (snd r) o) -> In x (targets s o))
    /\ opacity (snd r) = opacity s
    /\ (fst r = Returned tt ->
        forall en, In en entries -> isIntersecting en = true ->
                   ~ In (entryTarget en) (targets (snd r) TextObserver)) in
  one_shot (MotionFull.textObserverCallback throws doc entries s)
  /\ one_shot (AnimeJs.textObserverCallback throws doc entries s).
Proof.
  intros one_shot. subst one_shot. cbv beta.
  split.
  - destruct (RevealLemmas.text_batch doc
                (MotionFull.animate_chars throws)
                (MotionFull.animate_words throws)
                (fun l s0 => RevealLemmas.invoke_plain throws _ s0)
                (fun l s0 => RevealLemmas.invoke_plain throws _ s0)
                entries s) as (H1 & H2 & _ & H4).
    split; [exact H2|]. split; [exact H1 | exact H4].
  - destruct (RevealLemmas.text_batch doc
                (AnimeJs.animate_chars throws)
                (AnimeJs.animate_words throws)
                (fun l s0 => RevealLemmas.invoke_plain throws _ s0)
                (fun l s0 => RevealLemmas.invoke_plain throws _ s0)
                entries s) as (H1 & H2 & _ & H4).
    split; [exact H2|]. split; [exact H1 | exact H4].
Qed.


Lemma text_reveal_is_one_shot_witness :
  In 1 (targets (exec (setupTextRevealAnimations page_text) initial)
          TextObserver)
  /\ ~ In 1
        (targets
           (snd (MotionFull.textObserverCallback reliable page_text
                   [visible 1]
                   (exec (setupTextRevealAnimations page_text) initial)))
           TextObserver).
Proof.
  split; [left; reflexivity|].
  apply (proj2 (proj2 (proj1 (text_reveal_is_one_shot reliable page_text
                                [visible 1]
                                (exec (setupTextRevealAnimations page_text)
                                      initial))))
           eq_refl (visible 1)); [left; reflexivity | reflexivity].
Defined.

(** X18.  A failed reveal in words mode glues the text.  When the library
    throws on the call of a words-mode reveal, the callback ends before
    [unobserve]: the element stays observed, but its markup is already
    rewritten, so its text content is the old text without its spaces and
    a later reveal of the element finds exactly one word.  The text is
    taken free of the characters the HTML parser treats specially, since
    it is written to [innerHTML] unescaped. *)
Theorem failed_words_reveal_glues_the_text
  (doc : document) (e : elem) (s : state) :
  String.eqb (or_default (dataset doc e "textReveal") "words") "chars"
  = false ->
  markup_free (current_text doc s e) = true ->
  let glued (r : outcome unit * state) :=
    fst r = Threw
    /\ targets (snd r) = targets s
    /\ current_text doc (snd r) e = remove_spaces (current_text doc s e)
    /\ word_units (current_text doc (snd r) e)
       = [word_span (remove_spaces (current_text doc s e))] in
  glued (MotionFull.textObserverCallback (fun _ => true) doc [visible e] s)
  /\ glued (AnimeJs.textObserverCallback (fun _ => true) doc [visible e] s).
Proof.
  intros Hm _ glued. subst glued. cbv beta.
  assert (forall t : string, or_default (Some t) "" = t) as Hor
    by (intros [|c t]; reflexivity).
  assert (forall t : string,
            word_units (remove_spaces t) = [word_span (remove_spaces t)]) as Hw.
  { intros t. unfold word_units, split.
    rewrite GlueLemmas.split_on_spaceless. reflexivity. }
  unfold MotionFull.textObserverCallback, AnimeJs.textObserverCallback,
    textObserverCallback.
  cbn [forEach visible isIntersecting entryTarget].
  repeat (rewrite !MonadLemmas.run_bind; cbn [read modify set_textContent]).
  rewrite Hm, Hor.
  unfold MotionFull.animate_words, AnimeJs.animate_words, invoke.
  repeat (rewrite !MonadLemmas.run_bind; cbn [read modify set_textContent record]).
  cbn [throw fst snd].
  assert (forall f h t,
            current_text doc
              (set_trace f (set_text <[e:=t]> (set_innerHTML h s))) e = t)
    as Hc.
  { intros f h t. unfold current_text. cbn [text set_trace set_text].
    rewrite lookup_insert_eq. reflexivity. }
  rewrite !Hc. cbn [targets set_trace set_text set_innerHTML].
  unfold text_of_words, split.
  rewrite (SplitLemmas.split_on_join EmptyString). 
  change (EmptyString ++ remove_spaces (current_text doc s e))%string
    with (remove_spaces (current_text doc s e)).
  rewrite Hw. repeat split; reflexivity.
Qed.

Lemma failed_words_reveal_glues_the_text_witness :
  current_text page_text
    (snd (MotionFull.textObserverCallback (fun _ => true) page_text
            [visible 2] initial)) 2
  = "Hithere"%string.
Proof.
  apply (proj1 (proj2 (proj2 (proj1 (failed_words_reveal_glues_the_text
                                       page_text 2 initial eq_refl
                                       eq_refl))))).
Defined.

Module MalformedLemmas.
Import JS Format Invariants.

Lemma parseInt_malformed (c : ascii) (r : string) :
  opens_integer c = false -> parseInt (String c r) = NaN.
Proof.
  intros H.
  destruct c as [[] [] [] [] [] [] [] []]; try discriminate H; reflexivity.
Qed.

End MalformedLemmas.

(** X19.  A malformed delay is not defaulted.  When the delay attribute
    begins with a character that is neither white space nor a sign nor a
    digit, the resolved delay is NaN in all three revisions: the default 0
    applies to a missing or empty attribute only. *)
Theorem malformed_delay_is_not_a_number
  (doc : document) (e : elem) (c : ascii) (r : string) :
  dataset doc e "delay" = Some (String c r) ->
  opens_integer c = false ->
  MotionFull.resolve_delay doc e = NaN
  /\ MotionMinimal.resolve_delay doc e = NaN
  /\ AnimeJs.resolve_delay doc e = NaN.
Proof.
  intros Hd Hc.
  unfold MotionFull.resolve_delay, MotionMinimal.resolve_delay,
    AnimeJs.resolve_delay.
  rewrite Hd. cbn [or_default].
  rewrite (MalformedLemmas.parseInt_malformed c r Hc).
  repeat split; reflexivity.
Qed.

Lemma malformed_delay_is_not_a_number_witness :
  dataset page_malformed 1 "delay" = Some "fast"%string
  /\ MotionFull.resolve_delay page_malformed 1 = NaN.
Proof.
  split; [reflexivity|].
  apply (proj1 (malformed_delay_is_not_a_number page_malformed 1
                  "f"%char "ast"%string eq_refl eq_refl)).
Defined.

Module DecimalLemmas.
Import JS Page Ancillary Format Invariants NumeralLemmas.
Local Open Scope Z_scope.

Lemma read_digits_before_point (u : Decimal.uint) (acc : Z) (count : nat)
  (rest : string) :
  read_digits 10 acc count (NilEmpty.string_of_uint u ++ String "." rest)
  = (uint_value acc u, (count + Decimal.nb_digits u)%nat, String "." rest).
Proof.
  revert acc count.
  induction u; intros acc count;
    try (simpl; rewrite IHu; f_equal; f_equal; lia).
  simpl. f_equal. f_equal. lia.
Qed.

(** [toFixed(1)] does not depend on how the rational is written. *)
Lemma toFixed1_comp (p q : Q) :
  (p == q)%Q -> toFixed1 (Finite p) = toFixed1 (Finite q).
Proof.
  intros H. unfold toFixed1.
  assert (Qsign_neg p = Qsign_neg q) as ->.
  { unfold Qsign_neg. unfold Qeq in H.
    destruct (Qnum p <? 0) eqn:E1, (Qnum q <? 0) eqn:E2; try reflexivity.
    - apply Z.ltb_lt in E1. apply Z.ltb_ge in E2. nia.
    - apply Z.ltb_ge in E1. apply Z.ltb_lt in E2. nia. }
  assert (Qabs p == Qabs q)%Q as Ha by (rewrite H; reflexivity).
  assert (Qle_bool (inject_Z ten21) (Qabs p)
          = Qle_bool (inject_Z ten21) (Qabs q)) as ->.
  { destruct (Qle_bool _ (Qabs p)) eqn:E1, (Qle_bool _ (Qabs q)) eqn:E2;
      try reflexivity.
    - apply Qle_bool_iff in E1. rewrite Ha in E1. apply Qle_bool_iff in E1.
      congruence.
    - apply Qle_bool_iff in E2. rewrite <- Ha in E2. apply Qle_bool_iff in E2.
      congruence. }
  rewrite (Qfloor_comp _ _ Ha).
  assert (round_half_up (Qabs p * inject_Z 10)
          = round_half_up (Qabs q * inject_Z 10)) as ->
    by (unfold round_half_up; apply Qfloor_comp; rewrite Ha; reflexivity).
  reflexivity.
Qed.

Lemma toFixed1_tenths (a d : Z) :
  0 <= a < 10 ^ 21 -> 0 <= d < 10 ->
  toFixed1 (Finite ((a * 10 + d) # 10)) = (digits a ++ "." ++ digits d)%string.
Proof.
  intros Ha Hd. unfold toFixed1.
  assert (Qsign_neg ((a * 10 + d) # 10) = false) as ->
    by (unfold Qsign_neg; apply Z.ltb_ge; cbn [Qnum]; lia).
  assert (Qabs ((a * 10 + d) # 10) = (a * 10 + d) # 10) as ->
    by (unfold Qabs; rewrite Z.abs_eq by lia; reflexivity).
  assert (Qle_bool (inject_Z ten21) ((a * 10 + d) # 10) = false) as ->.
  { unfold Qle_bool, inject_Z, ten21. cbn [Qnum Qden].
    apply Z.leb_gt. change (Z.pos 10) with 10. change (Z.pos 1) with 1. lia. }
  rewrite (round_half_up_integer _ (a * 10 + d)).
  2:{ unfold Qeq, Qmult, inject_Z. cbn [Qnum Qden].
      change (Z.pos (10 * 1)) with 10. lia. }
  replace ((a * 10 + d) / 10) with a
    by (rewrite Z.div_add_l by lia; rewrite Z.div_small by lia; lia).
  replace ((a * 10 + d) mod 10) with d
    by (rewrite Z.add_comm, Z.mod_add by lia; rewrite Z.mod_small by lia; lia).
  reflexivity.
Qed.

Lemma parseFloat_point_tail (v : Z) (count : nat) (c : ascii) :
  is_digit c = true ->
  (let '(ip, icount, s1) := (v, S count, String "." (String c EmptyString)) in
    let '(fp, fcount, s2) :=
      match s1 with
      | String "." r =>
          let '(fp, fcount, r') := read_digits 10 0 0 r in
          match icount, fcount with
          | O, O => (0, O, s1)
          | _, _ => (fp, fcount, r')
          end
      | _ => (0, O, s1)
      end in
    match icount, fcount with
    | O, O => NaN
    | _, _ =>
        let mantissa :=
          (inject_Z ip + inject_Z fp * Qpow10 (- Z.of_nat fcount))%Q in
        let v := (mantissa * Qpow10 (read_exponent s2))%Q in
        Finite (if false then (- v)%Q else v)
    end)
  = Finite ((inject_Z v
             + inject_Z (Z.of_nat (nat_of_ascii c) - 48) * Qpow10 (- 1))
            * Qpow10 0)%Q.
Proof.
  intros Hc.
  destruct c as [[] [] [] [] [] [] [] []]; try discriminate Hc; reflexivity.
Qed.

Lemma digit_of_single (d : Z) :
  0 <= d < 10 ->
  exists c, digits d = String c EmptyString /\ is_digit c = true
            /\ Z.of_nat (nat_of_ascii c) - 48 = d.
Proof.
  intros Hd.
  assert (d = 0 \/ d = 1 \/ d = 2 \/ d = 3 \/ d = 4 \/ d = 5 \/ d = 6
          \/ d = 7 \/ d = 8 \/ d = 9) as H by lia.
  repeat (destruct H as [-> | H]; [eexists; repeat split|]).
  subst d. eexists. repeat split.
Qed.

Lemma parseFloat_tenths (a d : Z) :
  0 <= a -> 0 <= d < 10 ->
  exists q, parseFloat (digits a ++ "." ++ digits d) = Finite q
            /\ (q == (a * 10 + d) # 10)%Q.
Proof.
  intros Ha Hd.
  destruct (digits_shape a) as (u & Hu & Hv & E).
  assert ((a <? 0) = false) as Hs by (apply Z.ltb_ge; exact Ha).
  rewrite Hs in E. rewrite E.
  destruct (digit_of_single d Hd) as (c & -> & Hc & Hval).
  pose proof (read_digits_before_point u 0 0 (String c EmptyString)) as R.
  assert (exists c0 rest,
            (NilEmpty.string_of_uint u ++ "." ++ String c EmptyString)%string
            = String c0 rest /\ is_digit c0 = true) as (c0 & rest & E0 & Hc0)
    by (destruct u; [congruence | ..]; simpl; do 2 eexists; split; reflexivity).
  assert (exists k, (0 + Decimal.nb_digits u)%nat = S k) as [k Hk]
    by (destruct u; [congruence | ..]; simpl; eexists; reflexivity).
  change ("." ++ String c EmptyString)%string
    with (String "." (String c EmptyString)) in *.
  rewrite E0, Hk in *.
  destruct (parseFloat_digit_head c0 rest Hc0) as [P _].
  rewrite P, R. rewrite (parseFloat_point_tail _ k c Hc).
  eexists. split; [reflexivity|].
  rewrite Hval, Hv. replace (Z.abs a) with a by lia.
  change (Qpow10 (-1)) with (1 # 10)%Q. change (Qpow10 0) with 1%Q.
  unfold Qeq, Qmult, Qplus, inject_Z. cbn [Qnum Qden].
  change (Z.pos (1 * 10 * 1)) with 10. change (Z.pos (1 * 10)) with 10.
  change (Z.pos 10) with 10. change (Z.pos 1) with 1. lia.
Qed.

Lemma includes_point (a b : string) : includes (a ++ "." ++ b) "." = true.
Proof.
  rewrite includes_app. change ("." ++ b)%string with (String "." b).
  simpl. apply orb_true_r.
Qed.

End DecimalLemmas.

(** X20.  A counter ends on the one-decimal target it was given.  For a
    target literal made of the digits of an integer from 0 up to 2^48, a
    point and one more digit, the text at progress 1 is the literal again,
    and the text at progress 0 is ["0.0"].  In that range the host's
    binary64 reading of the literal is nearer to it than 1/20, so the
    tenths [toFixed(1)] finds are the literal's. *)
Theorem counter_ends_on_its_one_decimal_target (a d : Z) :
  (0 <= a < safe_tenths)%Z -> (0 <= d < 10)%Z ->
  counter_text (digits a ++ "." ++ digits d) (Finite 1)
  = (digits a ++ "." ++ digits d)%string
  /\ counter_text (digits a ++ "." ++ digits d) (Finite 0) = "0.0"%string.
Proof.
  intros Ha Hd. unfold counter_text.
  rewrite DecimalLemmas.includes_point.
  destruct (DecimalLemmas.parseFloat_tenths a d (proj1 Ha) Hd) as (q & -> & Hq).
  assert (0 <= a < 10 ^ 21)%Z as Ha'.
  { split; [exact (proj1 Ha)|].
    apply Z.lt_trans with safe_tenths; [exact (proj2 Ha) | reflexivity]. }
  cbn [mul]. split.
  - rewrite (DecimalLemmas.toFixed1_comp _ ((a * 10 + d) # 10))
      by (rewrite Hq; apply Qmult_1_l).
    apply DecimalLemmas.toFixed1_tenths; assumption.
  - rewrite (DecimalLemmas.toFixed1_comp _ ((0 * 10 + 0) # 10))
      by (rewrite Qmult_0_l; reflexivity).
    reflexivity.
Qed.

Lemma counter_ends_on_its_one_decimal_target_witness :
  counter_text "3.5" (Finite 1) = "3.5"%string.
Proof.
  assert (0 <= 3 < safe_tenths)%Z as Ha
    by (split; [discriminate | reflexivity]).
  assert (0 <= 5 < 10)%Z as Hd by (split; [discriminate | reflexivity]).
  exact (proj1 (counter_ends_on_its_one_decimal_target 3 5 Ha Hd)).
Defined.
